(** * ethmonitor: a shallow embedding of the chain-following monitor

    The development follows [ethmonitor/ethmonitor.go].  Go values are
    modelled as the code has them:

    - [*Block] pointers are indices into a heap of [Block.t] objects, so
      that the sharing between the canonical chain, the events sink and
      the publish queue is kept;
    - [uint64] and [int] arithmetic is written with its wrap-around;
    - a function of the monitor is a state transformer over [Monitor],
      whose result is a return value, a Go run-time panic, or the
      exhaustion of the fuel that bounds a loop of the model;
    - the RPC provider and the cancellation of the context are an
      oracle indexed by a clock that advances at every observation. *)

From Stdlib Require Import ZArith Lia.
From stdpp Require Import base tactics option list numbers.

Local Open Scope Z_scope.

(** ** Machine integers *)

(** [uint64]: results are reduced modulo [2^64]. *)
Definition u64 (z : Z) : Z := z mod 2 ^ 64.

(** [int] (64 bits, two's complement). *)
Definition max_int : Z := 2 ^ 63 - 1.
Definition min_int : Z := - 2 ^ 63.
Definition int (z : Z) : Z := (z + 2 ^ 63) mod 2 ^ 64 - 2 ^ 63.
Definition is_int (z : Z) : Prop := min_int <= z <= max_int.

(** [len(s)] as an [int]. *)
Definition len {A} (s : list A) : Z := Z.of_nat (length s).

(** The slice expression [s[lo:hi]] for [0 <= lo <= hi <= len(s)]. *)
Definition slice {A} (lo hi : nat) (s : list A) : list A :=
  take (hi - lo)%nat (drop lo s).

(** ** Blocks *)

Module common.
(** [common.Hash], 32 bytes read as a number; only compared. *)
Definition Hash := Z.
End common.

Module types.
(** The part of [types.Block] the monitor reads.  [Bloom] is the
    logs bloom read as a number, [0] being [types.Bloom{}]. *)
Record Block := mkBlock {
  Number : Z;
  Hash : common.Hash;
  ParentHash : common.Hash;
  Bloom : Z
}.
(** [types.Log]; the monitor never looks inside. *)
Definition Log := Z.
Definition NumberU64 (b : Block) : Z := u64 (Number b).
End types.

(** Modelled from the spec: the type [Event] and its constants [Added]
    and [Removed] are declared outside the sources.  Spec 3:
    "event-tag in {Added, Removed}". *)
Inductive Event := Added | Removed.

Global Instance Event_eq_dec : EqDecision Event.
Proof. solve_decision. Defined.

Module Block.
(** Modelled from the spec: the type [Block] is declared outside the
    sources, which use its fields [Block] (the embedded [*types.Block]),
    [Event], [Logs] and [OK].  Spec 3: "(raw-block, event-tag, ok-flag,
    logs)".  A nil [Logs] slice and an empty one are both [[]]. *)
Record t := mk {
  Block : types.Block;
  Event : Event;
  Logs : list types.Log;
  OK : bool
}.
Definition NumberU64 (b : t) : Z := types.NumberU64 (Block b).
Definition Hash (b : t) : common.Hash := types.Hash (Block b).
Definition ParentHash (b : t) : common.Hash := types.ParentHash (Block b).
Definition set_Event e (b : t) : t := mk (Block b) e (Logs b) (OK b).
Definition set_Logs (l : list types.Log) (b : t) : t := mk (Block b) (Event b) l (OK b).
Definition set_OK (o : bool) (b : t) : t := mk (Block b) (Event b) (Logs b) o.
End Block.

(** A [*Block] is an address of the heap, and [Blocks], a slice of
    [*Block], a list of addresses. *)
Abbreviation ptr := nat (only parsing).
Abbreviation Blocks := (list nat) (only parsing).

(** ** Errors *)

#[warnings="-register-all"]
Inductive error :=
| ErrFatal
| ErrReorg
| ErrUnexpectedParentHash
| ErrUnexpectedBlockNumber
| ErrQueueFull
| ErrMaxAttempts
| NotFound                        (* ethereum.NotFound *)
| ErrProvider (code : Z)          (* any other error of the provider *)
| ErrCanceled                     (* ctx.Err() *)
| ErrAlreadyRunning
| ErrNotBootstrapped
| superr_New (outer : error) (inner : option error).

(** ** Options *)

Record Options := mkOptions {
  PollingInterval : Z;            (* time.Duration, nanoseconds *)
  Timeout : Z;
  StartBlockNumber : option Z;    (* *big.Int *)
  Bootstrap : bool;
  TrailNumBlocksBehindHead : Z;   (* int *)
  BlockRetentionLimit : Z;        (* int *)
  WithLogs : bool;
  LogTopics : list common.Hash;
  DebugLogging : bool
}.

Definition DefaultOptions : Options :=
  {| PollingInterval := 1000 * 1000000;
     Timeout := 20 * 1000000000;
     StartBlockNumber := None;
     Bootstrap := false;
     TrailNumBlocksBehindHead := 0;
     BlockRetentionLimit := 200;
     WithLogs := false;
     LogTopics := [];
     DebugLogging := false |}.

(** ** The monitor and the objects it points to *)

(** Modelled from the spec: [chain.go] (the type [Chain] with [newChain],
    [push], [pop], [Head] and [Blocks]) is not among the sources.  Spec
    3 and 4.1: an ordered sequence of blocks, newest last, with a
    retention limit.  [blocks] is [None] for a nil slice, which [Run]
    tells apart from an empty one. *)
Record Chain := mkChain {
  blocks : option Blocks;
  retentionLimit : Z
}.

(** Modelled from the spec: [queue.go] is not among the sources.  Spec 3
    and 4.2: a size-bounded ordered collection of batches. *)
Record queue := mkQueue {
  batches : list Blocks;
  cap : Z
}.

(** Modelled from the spec: the type [subscriber] is declared outside
    the sources; [Subscribe] fills its fields [ch], [done] and
    [unsubscribe].  Spec 3: "a handle holding a multi-producer/
    single-consumer unbounded channel of Blocks batches, a done signal,
    and an unsubscribe closure".  The unbounded channel is its pending
    batches and a closed flag, [done] is closed or not, and the closure
    is [unsubscribe] below. *)
Record subscriber := mkSubscriber {
  ch_pending : list Blocks;
  ch_closed : bool;
  done_closed : bool
}.

(** The fields of [Monitor] the code below uses, followed by the heap of
    [Block] objects, the heap of [subscriber] objects and the clock of
    the environment.  [publishCh] is unbuffered and drained by the
    broadcast goroutine: it is the list of the batches sent so far. *)
Record Monitor := mkMonitor {
  options : Options;
  chain : Chain;
  nextBlockNumber : option Z;
  publishCh : list Blocks;
  publishQueue : queue;
  subscribers : list nat;
  running : bool;
  heap : list Block.t;
  subheap : list subscriber;
  clock : nat
}.

Definition set_chain (c : Chain) (m : Monitor) : Monitor :=
  mkMonitor (options m) c (nextBlockNumber m) (publishCh m) (publishQueue m)
    (subscribers m) (running m) (heap m) (subheap m) (clock m).
Definition set_nextBlockNumber (n : option Z) (m : Monitor) : Monitor :=
  mkMonitor (options m) (chain m) n (publishCh m) (publishQueue m)
    (subscribers m) (running m) (heap m) (subheap m) (clock m).
Definition set_publishCh (c : list Blocks) (m : Monitor) : Monitor :=
  mkMonitor (options m) (chain m) (nextBlockNumber m) c (publishQueue m)
    (subscribers m) (running m) (heap m) (subheap m) (clock m).
Definition set_publishQueue (q : queue) (m : Monitor) : Monitor :=
  mkMonitor (options m) (chain m) (nextBlockNumber m) (publishCh m) q
    (subscribers m) (running m) (heap m) (subheap m) (clock m).
Definition set_subscribers (l : list nat) (m : Monitor) : Monitor :=
  mkMonitor (options m) (chain m) (nextBlockNumber m) (publishCh m) (publishQueue m)
    l (running m) (heap m) (subheap m) (clock m).
Definition set_running (r : bool) (m : Monitor) : Monitor :=
  mkMonitor (options m) (chain m) (nextBlockNumber m) (publishCh m) (publishQueue m)
    (subscribers m) r (heap m) (subheap m) (clock m).
Definition set_heap (h : list Block.t) (m : Monitor) : Monitor :=
  mkMonitor (options m) (chain m) (nextBlockNumber m) (publishCh m) (publishQueue m)
    (subscribers m) (running m) h (subheap m) (clock m).
Definition set_subheap (h : list subscriber) (m : Monitor) : Monitor :=
  mkMonitor (options m) (chain m) (nextBlockNumber m) (publishCh m) (publishQueue m)
    (subscribers m) (running m) (heap m) h (clock m).
Definition set_clock (t : nat) (m : Monitor) : Monitor :=
  mkMonitor (options m) (chain m) (nextBlockNumber m) (publishCh m) (publishQueue m)
    (subscribers m) (running m) (heap m) (subheap m) t.

Arguments set_chain _ _ /.
Arguments set_nextBlockNumber _ _ /.
Arguments set_publishCh _ _ /.
Arguments set_publishQueue _ _ /.
Arguments set_subscribers _ _ /.
Arguments set_running _ _ /.
Arguments set_heap _ _ /.
Arguments set_subheap _ _ /.
Arguments set_clock _ _ /.

(** The retained blocks, a nil slice read as the empty one. *)
Definition chain_list (m : Monitor) : Blocks := default [] (blocks (chain m)).

(** ** Computations *)

Inductive panic :=
| NilDereference
| IndexOutOfRange
| CloseOfClosedChannel.

Inductive outcome (A : Type) : Type :=
| Ret (a : A) (m : Monitor)
| Panics (p : panic)
| OutOfFuel.
Arguments Ret {A} a m.
Arguments Panics {A} p.
Arguments OutOfFuel {A}.

Definition St (A : Type) : Type := Monitor -> outcome A.

Definition ret {A} (a : A) : St A := fun m => Ret a m.

Definition bind {A B} (c : St A) (k : A -> St B) : St B :=
  fun m =>
    match c m with
    | Ret a m' => k a m'
    | Panics p => Panics p
    | OutOfFuel => OutOfFuel
    end.

Notation "'let*' x ':=' c 'in' k" := (bind c (fun x => k))
  (at level 10, x strict pattern, c at level 100, k at level 200).

Definition get : St Monitor := fun m => Ret m m.
Definition modify (f : Monitor -> Monitor) : St unit := fun m => Ret tt (f m).
Definition throw {A} (p : panic) : St A := fun _ => Panics p.

(** Reading, writing and allocating [Block] objects.  Reading through an
    address outside the heap is the nil dereference. *)
Definition load (p : ptr) : St Block.t :=
  fun m => match heap m !! p with
           | Some b => Ret b m
           | None => Panics NilDereference
           end.

Definition update (p : ptr) (f : Block.t -> Block.t) : St unit :=
  fun m => match heap m !! p with
           | Some b => Ret tt (set_heap (<[p := f b]> (heap m)) m)
           | None => Panics NilDereference
           end.

Definition alloc (b : Block.t) : St ptr :=
  fun m => Ret (length (heap m)) (set_heap (heap m ++ [b]) m).

(** ** The environment *)

Inductive response (A : Type) : Type :=
| Ok (a : A)
| Fail (e : error).
Arguments Ok {A} a.
Arguments Fail {A} e.

(** What the provider answers and whether the context is cancelled, at
    each instant of the clock.  A provider call returns a block or an
    error, never [(nil, nil)]: the client of go-ethereum turns an absent
    block into [ethereum.NotFound]. *)
Record Env := mkEnv {
  BlockByNumber : nat -> option Z -> response types.Block;
  BlockByHash : nat -> common.Hash -> response types.Block;
  FilterLogs : nat -> common.Hash -> list (list common.Hash) -> response (list types.Log);
  ctxDone : nat -> bool
}.

(** Every observation of the environment takes the current instant and
    advances the clock. *)
Definition tick : St nat :=
  fun m => Ret (clock m) (set_clock (S (clock m)) m).

(** [select { case <-ctx.Done(): ... default: }] *)
Definition ctx_Done (E : Env) : St bool :=
  let* t := tick in ret (ctxDone E t).


(** ** Chain *)

Module chain_ops.

(** Modelled from the spec: [Chain.Head] of chain.go.  Spec 4.1: the
    newest retained block, nil on the empty chain. *)
Definition Head : St (option ptr) :=
  fun m => Ret (list.last (chain_list m)) m.

(** Modelled from the spec: [Chain.Blocks] of chain.go.  Spec 4.1:
    the iteration API copies the slice. *)
Definition Blocks_ : St Blocks :=
  fun m => Ret (chain_list m) m.

(** Modelled from the spec: [Chain.push] of chain.go.  Spec 4.1:
    "append b.  Fails with UnexpectedBlockNumber when
    b.number != tail.number + 1 (tail present), and with
    UnexpectedParentHash when b.parentHash != tail.hash.  On empty
    chain the first push establishes the anchor unconditionally.
    Evicts the head when the length exceeds retention." *)
Definition push (p : ptr) : St (option error) :=
  let* b := load p in
  let* m := get in
  let append :=
    let l := chain_list m ++ [p] in
    let l' := if retentionLimit (chain m) <? len l then drop 1 l else l in
    let* _ := modify (set_chain (mkChain (Some l') (retentionLimit (chain m)))) in
    ret None in
  match list.last (chain_list m) with
  | None => append
  | Some hp =>
      let* h := load hp in
      if negb (types.Number (Block.Block b) =? types.Number (Block.Block h) + 1)
      then ret (Some ErrUnexpectedBlockNumber)
      else if negb (Block.ParentHash b =? Block.Hash h)
      then ret (Some ErrUnexpectedParentHash)
      else append
  end.

(** Modelled from the spec: [Chain.pop] of chain.go.  Spec 4.1:
    "remove and return the tail.  Returns nil on empty chain." *)
Definition pop : St (option ptr) :=
  fun m =>
    match list.last (chain_list m) with
    | None => Ret None m
    | Some p =>
        Ret (Some p)
          (set_chain (mkChain (Some (removelast (chain_list m)))
                        (retentionLimit (chain m))) m)
    end.

End chain_ops.

(** ** Accessors *)

(** [s[i]] with its bounds check. *)
Definition index {A} (s : list A) (i : Z) : St A :=
  if (i <? 0) || (len s <=? i) then throw IndexOutOfRange
  else match s !! Z.to_nat i with
       | Some a => ret a
       | None => throw IndexOutOfRange
       end.

(** [func (m *Monitor) LatestBlock() *Block] *)
Definition LatestBlock : St (option ptr) := chain_ops.Head.

(** [func (m *Monitor) LatestFinalBlock(numBlocksToFinality int) *Block] *)
Definition LatestFinalBlock (numBlocksToFinality : Z) : St (option ptr) :=
  let* m := get in
  let n := len (chain_list m) in
  if n <? int (numBlocksToFinality + 1) then
    ret None
  else
    let* b := index (chain_list m) (int (int (n - numBlocksToFinality) - 1)) in
    ret (Some b).

(** [func (m *Monitor) PurgeHistory()] *)
Definition PurgeHistory : St unit :=
  let* m := get in
  if 1 <? len (chain_list m) then
    modify (set_chain (mkChain (Some (slice 1 1 (chain_list m)))
                         (retentionLimit (chain m))))
  else ret tt.

(** ** Publish queue *)

Module queue_ops.

(** Modelled from the spec: the key of a batch in queue.go.  Spec 3:
    batches are "keyed by the highest block number in each batch". *)
Definition top (h : list Block.t) (batch : Blocks) : Z :=
  foldr Z.max 0
    (map (fun p => match h !! p with
                   | Some b => Block.NumberU64 b
                   | None => 0
                   end) batch).

(** The leading batches whose key is at most [maxBlockNum]. *)
Fixpoint leading (h : list Block.t) (maxBlockNum : Z) (q : list Blocks) : list Blocks :=
  match q with
  | [] => []
  | b :: q' => if top h b <=? maxBlockNum then b :: leading h maxBlockNum q' else []
  end.

(** Modelled from the spec: [queue.enqueue] of queue.go.  Spec 4.2:
    "append.  Fails with QueueFull when at capacity." *)
Definition enqueue (events : Blocks) : St (option error) :=
  fun m =>
    let q := publishQueue m in
    if cap q <=? len (batches q) then Ret (Some ErrQueueFull) m
    else Ret None (set_publishQueue (mkQueue (batches q ++ [events]) (cap q)) m).

(** Modelled from the spec: [queue.dequeue] of queue.go.  Spec 4.2:
    "returns the concatenation of all leading batches whose top block
    number <= maxBlockNum, or the single oldest batch if
    maxBlockNum == 0."  The flag tells whether a batch was released. *)
Definition dequeue (maxBlockNum : Z) : St (Blocks * bool) :=
  fun m =>
    let q := publishQueue m in
    match batches q with
    | [] => Ret ([], false) m
    | b :: rest =>
        if maxBlockNum =? 0 then
          Ret (b, true) (set_publishQueue (mkQueue rest (cap q)) m)
        else
          match leading (heap m) maxBlockNum (batches q) with
          | [] => Ret ([], false) m
          | lead =>
              Ret (concat lead, true)
                (set_publishQueue
                   (mkQueue (drop (length lead) (batches q)) (cap q)) m)
          end
    end.

End queue_ops.

(** The first lines of [publish]: [maxBlockNum], which is
    [m.LatestBlock().NumberU64() - uint64(m.options.TrailNumBlocksBehindHead)]
    in trail-behind-head mode and [0] otherwise. *)
Definition publish_maxBlockNum : St Z :=
  let* m := get in
  if 0 <? TrailNumBlocksBehindHead (options m) then
    let* latest := LatestBlock in
    match latest with
    | None => throw NilDereference
    | Some p =>
        let* b := load p in
        ret (u64 (Block.NumberU64 b - u64 (TrailNumBlocksBehindHead (options m))))
    end
  else ret 0.

(** [func (m *Monitor) publish(ctx context.Context, events Blocks) error].
    The send [m.publishCh <- pubEvents] is the append of the batch to
    the batches sent: the model tells what is sent and in which order.
    It does not tell whether the send completes: in the code it waits
    for the goroutine of [Run] that receives, which returns once the
    context of [Run] is cancelled. *)
Definition publish (events : Blocks) : St (option error) :=
  let* maxBlockNum := publish_maxBlockNum in
  let* err := queue_ops.enqueue events in
  match err with
  | Some e => ret (Some e)
  | None =>
      let* (pubEvents, ok) := queue_ops.dequeue maxBlockNum in
      let* _ :=
        if ok : bool then modify (fun m => set_publishCh (publishCh m ++ [pubEvents]) m)
        else ret tt in
      ret None
  end.

(** ** Subscriptions *)

(** The position of the first entry equal to [sp], as the loop
    [for i, sub := range m.subscribers { if sub == subscriber ... }]
    finds it. *)
Fixpoint first_index (sp : nat) (l : list nat) (i : nat) : option nat :=
  match l with
  | [] => None
  | x :: l' => if (x =? sp)%nat then Some i else first_index sp l' (S i)
  end.

(** The closure [subscriber.unsubscribe] built by [Subscribe].  Closing
    [done] twice is the run-time panic of [close]; [ch.Close()] and
    [ch.Flush()] close the unbounded channel and drop what is pending. *)
Definition unsubscribe (sp : nat) : St unit :=
  let* m := get in
  match subheap m !! sp with
  | None => throw NilDereference
  | Some sub =>
      if done_closed sub then throw CloseOfClosedChannel
      else
        let* _ := modify (set_subheap (<[sp := mkSubscriber [] true true]> (subheap m))) in
        let* m := get in
        match first_index sp (subscribers m) 0 with
        | Some i =>
            modify (set_subscribers (take i (subscribers m) ++ drop (S i) (subscribers m)))
        | None => ret tt
        end
  end.

(** [func (m *Monitor) Subscribe() Subscription]; the subscription is
    the address of the new [subscriber]. *)
Definition Subscribe : St nat :=
  fun m =>
    let sp := length (subheap m) in
    Ret sp (set_subscribers (subscribers m ++ [sp])
              (set_subheap (subheap m ++ [mkSubscriber [] false false]) m)).

(** ** Fetching *)

Definition maxErrAttempts : Z := 10.
Definition maxNotFoundAttempts : Z := 4.

(** [fetchBlockByNumber]: an iteration of its loop either returns or
    counts one more failed attempt; [fuel] bounds the iterations. *)
Fixpoint fetchBlockByNumber_loop (E : Env) (fuel : nat) (num : option Z)
    (errAttempts : Z) (err : option error) : St (response types.Block) :=
  match fuel with
  | O => fun _ => OutOfFuel
  | S fuel =>
      let* done := ctx_Done E in
      if done : bool then ret (Fail ErrCanceled)
      else if maxErrAttempts <=? errAttempts then
        ret (Fail (superr_New ErrMaxAttempts err))
      else
        let* t := tick in
        match BlockByNumber E t num with
        | Ok block => ret (Ok block)
        | Fail NotFound => ret (Fail NotFound)
        | Fail e => fetchBlockByNumber_loop E fuel num (errAttempts + 1) (Some e)
        end
  end.

Definition fetchBlockByNumber (E : Env) (num : option Z) : St (response types.Block) :=
  fetchBlockByNumber_loop E 11 num 0 None.

(** [fetchBlockByHash], with its two counters. *)
Fixpoint fetchBlockByHash_loop (E : Env) (fuel : nat) (hash : common.Hash)
    (notFoundAttempts errAttempts : Z) (err : option error) : St (response types.Block) :=
  match fuel with
  | O => fun _ => OutOfFuel
  | S fuel =>
      let* done := ctx_Done E in
      if done : bool then ret (Fail ErrCanceled)
      else if maxNotFoundAttempts <=? notFoundAttempts then ret (Fail NotFound)
      else if maxErrAttempts <=? errAttempts then
        ret (Fail (superr_New ErrMaxAttempts err))
      else
        let* t := tick in
        match BlockByHash E t hash with
        | Ok block => ret (Ok block)
        | Fail NotFound =>
            fetchBlockByHash_loop E fuel hash (notFoundAttempts + 1) errAttempts (Some NotFound)
        | Fail e =>
            fetchBlockByHash_loop E fuel hash notFoundAttempts (errAttempts + 1) (Some e)
        end
  end.

Definition fetchBlockByHash (E : Env) (hash : common.Hash) : St (response types.Block) :=
  fetchBlockByHash_loop E 14 hash 0 0 None.

(** ** The reorg resolver *)

(** [&Block{Event: Added, Block: nextBlock}] *)
Definition added (nextBlock : types.Block) : Block.t :=
  Block.mk nextBlock Added [] false.

(** [poppedBlock := *m.chain.pop(); poppedBlock.Event = Removed;
    poppedBlock.OK = true]: a copy by value of the popped object. *)
Definition removed (popped : Block.t) : Block.t :=
  Block.set_OK true (Block.set_Event Removed popped).

(** [buildCanonicalChain]; every recursive call follows a pop, and
    [fuel] bounds the depth of the recursion.  The sleeps are left out. *)
Fixpoint buildCanonicalChain_rec (E : Env) (fuel : nat) (nextBlock : types.Block)
    (events : Blocks) : St (Blocks * option error) :=
  match fuel with
  | O => fun _ => OutOfFuel
  | S fuel =>
      let* done := ctx_Done E in
      if done : bool then ret ([], Some ErrCanceled)
      else
        let* headBlock := chain_ops.Head in
        let* chained :=
          match headBlock with
          | None => ret true
          | Some hp =>
              let* hb := load hp in
              ret (types.ParentHash nextBlock =? Block.Hash hb)
          end in
        if chained : bool then
          (* block-chaining it up *)
          let* block := alloc (added nextBlock) in
          let events := events ++ [block] in
          let* err := chain_ops.push block in
          ret (events, err)
        else
          let* popped := chain_ops.pop in
          match popped with
          | None => throw NilDereference
          | Some pp =>
              let* pb := load pp in
              let* poppedBlock := alloc (removed pb) in
              let events := events ++ [poppedBlock] in
              let* fetched := fetchBlockByHash E (types.ParentHash nextBlock) in
              match fetched with
              | Fail err => ret (events, Some err)
              | Ok nextParentBlock =>
                  let* (events, err) :=
                    buildCanonicalChain_rec E fuel nextParentBlock events in
                  match err with
                  | Some e => ret (events, Some e)
                  | None =>
                      let* block := alloc (added nextBlock) in
                      let* err := chain_ops.push block in
                      match err with
                      | Some e => ret (events, Some e)
                      | None => ret (events ++ [block], None)
                      end
                  end
              end
          end
  end.

(** One more level than there are retained blocks is enough (see
    [buildCanonicalChain_returns]). *)
Definition buildCanonicalChain (E : Env) (nextBlock : types.Block) (events : Blocks)
    : St (Blocks * option error) :=
  fun m => buildCanonicalChain_rec E (S (length (chain_list m))) nextBlock events m.

(** ** Logs *)

(** [func (m *Monitor) addLogs(ctx context.Context, blocks Blocks)] *)
Fixpoint addLogs (E : Env) (blocks : Blocks) : St unit :=
  match blocks with
  | [] => ret tt
  | block :: rest =>
      let* done := ctx_Done E in
      if done : bool then ret tt
      else
        let* b := load block in
        if Block.OK b then addLogs E rest
        else
          match Block.Event b with
          | Removed =>
              let* _ := update block (Block.set_OK true) in
              addLogs E rest
          | Added =>
              let* m := get in
              let topics :=
                if 0 <? len (LogTopics (options m)) then [LogTopics (options m)] else [] in
              let* t := tick in
              let mark :=
                let* _ := update block (fun b => Block.set_OK false (Block.set_Logs [] b)) in
                addLogs E rest in
              match FilterLogs E t (Block.Hash b) topics with
              | Ok logs =>
                  if (0 <? len logs) || (types.Bloom (Block.Block b) =? 0) then
                    let* _ := update block (fun b => Block.set_OK true (Block.set_Logs logs b)) in
                    addLogs E rest
                  else mark
              | Fail _ => mark
              end
          end
  end.

(** The loop of [backfillChainLogs], over the retained blocks from the
    newest to the oldest. *)
Fixpoint backfill_loop (E : Env) (blocks : Blocks) : St unit :=
  match blocks with
  | [] => ret tt
  | p :: rest =>
      let* done := ctx_Done E in
      if done : bool then ret tt
      else
        let* b := load p in
        let* _ := if negb (Block.OK b) then addLogs E [p] else ret tt in
        backfill_loop E rest
  end.

(** [func (m *Monitor) backfillChainLogs(ctx context.Context)] *)
Definition backfillChainLogs (E : Env) : St unit :=
  let* blocks := chain_ops.Blocks_ in
  backfill_loop E (rev blocks).

(** [for _, b := range events { b.Logs = nil; b.OK = true }] *)
Fixpoint clearLogs (events : Blocks) : St unit :=
  match events with
  | [] => ret tt
  | b :: rest =>
      let* _ := update b (fun b => Block.set_OK true (Block.set_Logs [] b)) in
      clearLogs rest
  end.

(** ** The monitor loop *)

(** The variables of [monitor()] that live across iterations. *)
Record locals := mkLocals {
  events : Blocks;
  pollInterval : Z
}.

(** How one iteration of [for { select { ... } }] ends: at one of the
    three [continue] statements, at the end of the body after a
    successful [publish] of a batch, or at a [return]. *)
Inductive iteration :=
| ContinueNotFound
| ContinueFetchFailed (err : error)
| ContinueBuildFailed (err : error)
| Published (batch : Blocks)
| Return (err : option error).

Definition monitor_iteration (E : Env) (l : locals) : St (iteration * locals) :=
  let* done := ctx_Done E in
  if done : bool then ret (Return None, l)
  else
    (* case <-time.After(pollInterval) *)
    let* headBlock := chain_ops.Head in
    let* _ :=
      match headBlock with
      | Some hp =>
          let* hb := load hp in
          modify (set_nextBlockNumber (Some (types.Number (Block.Block hb) + 1)))
      | None => ret tt
      end in
    let* m := get in
    let* fetched := fetchBlockByNumber E (nextBlockNumber m) in
    match fetched with
    | Fail NotFound =>
        ret (ContinueNotFound, mkLocals (events l) (PollingInterval (options m)))
    | Fail err =>
        ret (ContinueFetchFailed err, mkLocals (events l) (PollingInterval (options m)))
    | Ok nextBlock =>
        (* speed up the poll interval if we found the next block *)
        let pollInterval := pollInterval l ÷ 2 in
        let* (events, err) := buildCanonicalChain E nextBlock (events l) in
        match err with
        | Some e => ret (ContinueBuildFailed e, mkLocals events pollInterval)
        | None =>
            let* _ :=
              if WithLogs (options m) then
                let* _ := addLogs E events in
                backfillChainLogs E
              else clearLogs events in
            let* err := publish events in
            match err with
            | Some e =>
                ret (Return (Some (superr_New ErrFatal (Some e))),
                     mkLocals events pollInterval)
            | None => ret (Published events, mkLocals [] pollInterval)
            end
        end
    end.

(** [func (m *Monitor) monitor() error], for at most [n] iterations:
    the error returned, or [OutOfFuel] while the loop is still running. *)
Fixpoint monitor_loop (E : Env) (n : nat) (l : locals) : St (option error) :=
  match n with
  | O => fun _ => OutOfFuel
  | S n =>
      let* (r, l') := monitor_iteration E l in
      match r with
      | Return err => ret err
      | _ => monitor_loop E n l'
      end
  end.

Definition monitor (E : Env) (n : nat) : St (option error) :=
  let* m := get in
  monitor_loop E n (mkLocals [] (PollingInterval (options m))).

(** The state after [n] iterations, while none of them returns. *)
Fixpoint iterate (E : Env) (n : nat) (l : locals) : St locals :=
  match n with
  | O => ret l
  | S n =>
      let* (r, l') := monitor_iteration E l in
      match r with
      | Return _ => ret l'
      | _ => iterate E n l'
      end
  end.

(** ** Construction and start *)

(** Modelled from the spec: [newChain] of chain.go and [newQueue] of
    queue.go.  Spec 4.1 and 4.2: an empty chain with its retention
    limit (a nil slice in bootstrap mode, which awaits its blocks) and
    an empty queue with its capacity. *)
Definition newChain (retentionLimit : Z) (bootstrap : bool) : Chain :=
  mkChain (if bootstrap then None else Some []) retentionLimit.
Definition newQueue (cap : Z) : queue := mkQueue [] cap.

(** [func NewMonitor(provider *ethrpc.Provider, options ...Options)] *)
Definition NewMonitor (opts : Options) : Monitor :=
  let limit := int (BlockRetentionLimit opts + TrailNumBlocksBehindHead opts) in
  let opts :=
    mkOptions (PollingInterval opts) (Timeout opts) (StartBlockNumber opts)
      (Bootstrap opts) (TrailNumBlocksBehindHead opts) limit (WithLogs opts)
      (LogTopics opts) (DebugLogging opts) in
  mkMonitor opts (newChain limit (Bootstrap opts)) None [] (newQueue (int (limit * 2)))
    [] false [] [] 0.

(** The part of [Run] before the loop: the guard on [running], the
    bootstrap check and the choice of the first block number.  It
    returns an error when [Run] stops there. *)
Definition Run_start (E : Env) : St (option error) :=
  let* m := get in
  if running m then ret (Some ErrAlreadyRunning)
  else
    let* _ := modify (set_running true) in
    if Bootstrap (options m) && bool_decide (blocks (chain m) = None) then
      let* _ := modify (set_running false) in
      ret (Some ErrNotBootstrapped)
    else
      let* head := chain_ops.Head in
      let* _ :=
        match head with
        | Some hp =>
            (* starting from last block of our canonical chain *)
            let* hb := load hp in
            modify (set_nextBlockNumber (Some (types.Number (Block.Block hb) + 1)))
        | None =>
            match StartBlockNumber (options m) with
            | Some start =>
                if 0 <=? start then
                  (* starting from specific block number *)
                  modify (set_nextBlockNumber (Some start))
                else
                  (* starting some number blocks behind the latest block num *)
                  let* t := tick in
                  match BlockByNumber E t None with
                  | Ok latestBlock =>
                      let* _ :=
                        modify (set_nextBlockNumber
                                  (Some (types.Number latestBlock + start))) in
                      let* m := get in
                      match nextBlockNumber m with
                      | Some next =>
                          if next <? 0 then modify (set_nextBlockNumber None) else ret tt
                      | None => ret tt
                      end
                  | Fail _ => ret tt
                  end
            | None => ret tt   (* starting from the latest block on the network *)
            end
        end in
      ret None.

(** [func (m *Monitor) Run(ctx context.Context) error], the loop being
    followed for at most [n] iterations. *)
Definition Run (E : Env) (n : nat) : St (option error) :=
  let* err := Run_start E in
  match err with
  | Some e => ret (Some e)
  | None =>
      let* err := monitor E n in
      let* _ := modify (set_running false) in
      ret err
  end.

(** ** Further accessors *)

(** [func (m *Monitor) LatestBlockNum() *big.Int] *)
Definition LatestBlockNum : St Z :=
  let* latestBlock := LatestBlock in
  match latestBlock with
  | None => ret 0
  | Some p =>
      let* b := load p in
      ret (types.Number (Block.Block b))
  end.

(** [func (m *Monitor) IsRunning() bool] *)
Definition IsRunning : St bool :=
  fun m => Ret (running m) m.

(** ** Broadcast *)

(** [sub.ch.Send(events)] on the unbounded channel of the subscriber at
    [sp]: the batch joins the pending ones.  What the channel does with
    a batch sent after [Close] is decided outside the sources: it is the
    argument [on_closed]. *)
Definition ch_Send (on_closed : St unit) (sp : nat) (events : Blocks) : St unit :=
  let* m := get in
  match subheap m !! sp with
  | None => throw NilDereference
  | Some sub =>
      if ch_closed sub then on_closed
      else
        modify (set_subheap
                  (<[sp := mkSubscriber (ch_pending sub ++ [events]) (ch_closed sub)
                             (done_closed sub)]> (subheap m)))
  end.

(** [for _, sub := range m.subscribers { sub.ch.Send(events) }] *)
Fixpoint broadcast_loop (on_closed : St unit) (subs : list nat) (events : Blocks)
    : St unit :=
  match subs with
  | [] => ret tt
  | sub :: rest =>
      let* _ := ch_Send on_closed sub events in
      broadcast_loop on_closed rest events
  end.

(** [func (m *Monitor) broadcast(events Blocks)] *)
Definition broadcast (on_closed : St unit) (events : Blocks) : St unit :=
  let* m := get in
  broadcast_loop on_closed (subscribers m) events.

(** * Predicates *)

(** ** Computations *)

(** [total c]: [c] returns or panics; the fuel of the model never runs
    out. *)
Definition total {A} (c : St A) : Prop := forall m, c m <> OutOfFuel.

(** [keeps R c]: whenever [c] returns, the monitor it leaves is related
    by [R] to the one it started from. *)
Definition keeps {A} (R : relation Monitor) (c : St A) : Prop :=
  forall m a m', c m = Ret a m' -> R m m'.

(** Relations that the steps of the monitor loop preserve: they are
    closed under the advance of the clock, the replacement of the chain
    and of the next block number, and the allocation of a block. *)
Record frame (R : relation Monitor) : Prop := mkFrame {
  frame_refl : forall m, R m m;
  frame_trans : forall m1 m2 m3, R m1 m2 -> R m2 m3 -> R m1 m3;
  frame_clock : forall m, R m (set_clock (S (clock m)) m);
  frame_chain : forall m c, R m (set_chain c m);
  frame_next : forall m n, R m (set_nextBlockNumber n m);
  frame_alloc : forall m b, R m (set_heap (heap m ++ [b]) m)
}.

(** Relations closed, moreover, under the writes to the [Logs] and [OK]
    fields of a block. *)
Record frame_flags (R : relation Monitor) : Prop := mkFrameFlags {
  frame_flags_frame : frame R;
  frame_update : forall m p b b',
    heap m !! p = Some b ->
    Block.Block b' = Block.Block b -> Block.Event b' = Block.Event b ->
    R m (set_heap (<[p := b']> (heap m)) m)
}.

(** ** Relations between two states *)

(** The options, the publish queue and the publish channel are left
    alone. *)
Definition same_config (m m' : Monitor) : Prop :=
  options m' = options m /\ publishQueue m' = publishQueue m /\
  publishCh m' = publishCh m.

(** The clock never goes back. *)
Definition clock_le (m m' : Monitor) : Prop := (clock m <= clock m')%nat.

(** The heap only grows, and an object keeps its block and its event. *)
Definition heap_evolves (m m' : Monitor) : Prop :=
  forall p b, heap m !! p = Some b ->
    exists b', heap m' !! p = Some b' /\
               Block.Block b' = Block.Block b /\ Block.Event b' = Block.Event b.

(** The heap only grows, and no object is written. *)
Definition heap_grows (m m' : Monitor) : Prop := heap m `prefix_of` heap m'.

(** The objects whose [OK] flag is set are left as they are. *)
Definition ok_stable (m m' : Monitor) : Prop :=
  forall p b, heap m !! p = Some b -> Block.OK b = true -> heap m' !! p = Some b.

(** After [clearLogs] the blocks of the batch have no logs and are
    marked [OK]. *)
Definition cleared (b : Block.t) : Prop := Block.OK b = true /\ Block.Logs b = [].

(** ** The loop *)

(** The publish queue is at capacity. *)
Definition queue_full (m : Monitor) : Prop :=
  cap (publishQueue m) <= len (batches (publishQueue m)).


(** The iteration ended at a [continue]. *)
Definition is_continue (r : iteration) : bool :=
  match r with
  | ContinueNotFound | ContinueFetchFailed _ | ContinueBuildFailed _ => true
  | Published _ | Return _ => false
  end.

(** A run of iterations that all end at a [continue]. *)
Inductive retries (E : Env) : locals -> Monitor -> locals -> Monitor -> Prop :=
| retries_done l m : retries E l m l m
| retries_again l m r l1 m1 l2 m2 :
    monitor_iteration E l m = Ret (r, l1) m1 -> is_continue r = true ->
    retries E l1 m1 l2 m2 ->
    retries E l m l2 m2.

(** The iteration started in [m] gets the next block from
    [fetchBlockByNumber], which leaves the monitor [m2]: the context is
    live, and the number asked for is one more than that of the head
    when a block is retained, and the number kept from before
    otherwise. *)
Definition fetches_next (E : Env) (m : Monitor) (nextBlock : types.Block)
    (m2 : Monitor) : Prop :=
  ctxDone E (clock m) = false /\
  exists next,
    match list.last (chain_list m) with
    | Some hp => exists hb, heap m !! hp = Some hb /\
                            next = Some (types.Number (Block.Block hb) + 1)
    | None => next = nextBlockNumber m
    end /\
    fetchBlockByNumber E next (set_nextBlockNumber next (set_clock (S (clock m)) m))
      = Ret (Ok nextBlock) m2.

(** The iteration started in [m] with the locals [l] reaches the call
    of [publish] with the events [evs], in the monitor [m4]: the next
    block is fetched, [buildCanonicalChain] succeeds, and the logs are
    added or cleared. *)
Definition reaches_publish (E : Env) (l : locals) (m : Monitor) (evs : Blocks)
    (m4 : Monitor) : Prop :=
  exists nextBlock m2 m3,
    fetches_next E m nextBlock m2 /\
    buildCanonicalChain E nextBlock (events l) m2 = Ret (evs, None) m3 /\
    (if WithLogs (options m)
     then (let* _ := addLogs E evs in backfillChainLogs E)
     else clearLogs evs) m3 = Ret tt m4.

(** [rounds E k l m l' m']: [k] iterations of the loop, none of which
    returns, lead from [m] with the locals [l] to [m'] with [l']. *)
Inductive rounds (E : Env) : nat -> locals -> Monitor -> locals -> Monitor -> Prop :=
| rounds_O l m : rounds E 0 l m l m
| rounds_S k l m r l1 m1 l2 m2 :
    monitor_iteration E l m = Ret (r, l1) m1 ->
    (forall err, r <> Return err) ->
    rounds E k l1 m1 l2 m2 ->
    rounds E (S k) l m l2 m2.

(** ** The heap, the chain and the events *)

(** The object at an address. *)
Definition points_to (h : list Block.t) (p : ptr) (b : Block.t) : Prop :=
  h !! p = Some b.

(** Every retained block is an object of the heap. *)
Definition chain_valid (m : Monitor) : Prop :=
  Forall (fun p : ptr => (p < length (heap m))%nat) (chain_list m).

(** The Removed blocks of the sink are objects of the heap and are
    marked [OK]. *)
Definition sink_ok (m : Monitor) (events : list nat) : Prop :=
  Forall (fun p => exists b, heap m !! p = Some b /\
                             (Block.Event b = Removed -> Block.OK b = true)) events.

(** The state of the loop between two iterations: the retained blocks
    and the events of the sink are objects of the heap, and the Removed
    blocks of the sink are marked [OK]. *)
Definition loop_invariant (l : locals) (m : Monitor) : Prop :=
  chain_valid m /\ sink_ok m (events l).

(** Each block names the one before it as its parent and follows it in
    number. *)
Fixpoint linked (qs : list types.Block) : Prop :=
  match qs with
  | q1 :: (q2 :: _) as rest =>
      types.ParentHash q2 = types.Hash q1 /\
      types.Number q2 = types.Number q1 + 1 /\ linked rest
  | _ => True
  end.

(** [resolved m m' events evs ps olds rem add news]: between [m] and
    [m'] the blocks at [ps], the newest retained ones, whose contents
    were [olds], have been popped; [evs] is [events] followed by [rem],
    which point to the copies of [olds] marked Removed, newest first,
    and by [add], which point to the Added blocks of [news]; [rem] and
    [add] are objects allocated since [m]. *)
Definition resolved (m m' : Monitor) (events evs ps : Blocks) (olds : list Block.t)
    (rem add : Blocks) (news : list types.Block) : Prop :=
  (exists base, chain_list m = base ++ ps) /\
  Forall2 (points_to (heap m)) ps olds /\
  evs = events ++ rem ++ add /\
  Forall2 (points_to (heap m')) rem (map removed (rev olds)) /\
  Forall2 (points_to (heap m')) add (map added news) /\
  Forall (fun p : ptr => (length (heap m) <= p)%nat) (rem ++ add).

(** ** The fetchers *)

(** What the loop of [fetchBlockByNumber] has done when it returns [r]
    in [m'], having started in [m] with [ea] failed attempts counted and
    [err] the last error: an iteration observes the context and then,
    unless it returns, the provider, so that two instants of the clock
    pass for each call of the provider. *)
Definition fetched_by_number (E : Env) (num : option Z) (ea : Z) (err : option error)
    (m : Monitor) (r : response types.Block) (m' : Monitor) : Prop :=
  let left := Z.to_nat (maxErrAttempts - ea) in
  m' = set_clock (clock m') m /\
  (clock m < clock m' <= clock m + 2 * left + 1)%nat /\
  match r with
  | Ok b => BlockByNumber E (clock m' - 1) num = Ok b
  | Fail NotFound => BlockByNumber E (clock m' - 1) num = Fail NotFound
  | Fail ErrCanceled => ctxDone E (clock m' - 1) = true
  | Fail (superr_New ErrMaxAttempts last) =>
      (clock m' = clock m + 2 * left + 1)%nat /\
      (forall i : nat, (i < left)%nat ->
         ctxDone E (clock m + 2 * i) = false /\
         exists e, e <> NotFound /\ BlockByNumber E (clock m + 2 * i + 1) num = Fail e) /\
      ((ea = maxErrAttempts /\ last = err) \/
       exists e, last = Some e /\ e <> NotFound /\
                 BlockByNumber E (clock m' - 2) num = Fail e)
  | Fail _ => False
  end.

(** What the loop of [fetchBlockByHash] has done when it returns, with
    [nf] answers [NotFound] and [ea] other failures counted at its
    start. *)
Definition fetched_by_hash (E : Env) (hash : common.Hash) (nf ea : Z)
    (err : option error) (m : Monitor) (r : response types.Block) (m' : Monitor) : Prop :=
  let calls := Z.to_nat (maxNotFoundAttempts + maxErrAttempts - 1 - nf - ea) in
  m' = set_clock (clock m') m /\
  (clock m < clock m')%nat /\
  (nf < maxNotFoundAttempts -> ea < maxErrAttempts ->
   (clock m' <= clock m + 2 * calls + 1)%nat) /\
  match r with
  | Ok b => BlockByHash E (clock m' - 1) hash = Ok b
  | Fail ErrCanceled => ctxDone E (clock m' - 1) = true
  | Fail NotFound =>
      (clock m + 2 * Z.to_nat (maxNotFoundAttempts - nf) + 1 <= clock m')%nat
  | Fail (superr_New ErrMaxAttempts last) =>
      (clock m + 2 * Z.to_nat (maxErrAttempts - ea) + 1 <= clock m')%nat /\
      ((maxErrAttempts <= ea /\ last = err) \/
       exists e, last = Some e /\ e <> NotFound /\
                 BlockByHash E (clock m' - 2) hash = Fail e)
  | Fail _ => False
  end.

(** The first [i] calls of the provider made from the instant [t] on
    failed with an error other than [NotFound], the context being live
    before each of them: the iterations that [fetchBlockByNumber]
    repeats. *)
Definition calls_failed (E : Env) (num : option Z) (t i : nat) : Prop :=
  forall j : nat, (j < i)%nat ->
    ctxDone E (t + 2 * j) = false /\
    exists e, e <> NotFound /\ BlockByNumber E (t + 2 * j + 1) num = Fail e.

(** ** The flags of the blocks *)

(** A property of the block objects that the writes of the loop keep:
    it holds of the objects [buildCanonicalChain] allocates and is kept
    by the assignments of [addLogs] and of the loop that clears the
    logs. *)
Record flag_invariant (P : Block.t -> Prop) : Prop := mkFlagInvariant {
  flag_added : forall q, P (added q);
  flag_removed : forall b, P b -> P (removed b);
  flag_ok : forall b, P b -> Block.Event b = Removed -> P (Block.set_OK true b);
  flag_logs : forall b logs, P b -> Block.Event b = Added ->
    P (Block.set_OK true (Block.set_Logs logs b));
  flag_mark : forall b, P b -> Block.OK b = false -> Block.Event b = Added ->
    P (Block.set_OK false (Block.set_Logs [] b));
  flag_clear : forall b, P b -> P (Block.set_OK true (Block.set_Logs [] b))
}.

(** A block object with consistent flags: a Removed block is marked
    [OK], and a block that is not marked [OK] carries no logs. *)
Definition well_flagged (b : Block.t) : Prop :=
  (Block.Event b = Removed -> Block.OK b = true) /\
  (Block.OK b = false -> Block.Logs b = []).

(** The blocks [addLogs] has nothing to fetch for: those marked [OK]
    and the Removed ones. *)
Definition settled (m : Monitor) (p : nat) : Prop :=
  exists b, heap m !! p = Some b /\ (Block.OK b = true \/ Block.Event b = Removed).

(** The block at [p] is marked [OK]. *)
Definition ok_at (m : Monitor) (p : nat) : Prop :=
  exists b, heap m !! p = Some b /\ Block.OK b = true.

(** Every retained block is an Added block. *)
Definition chain_added (m : Monitor) : Prop :=
  Forall (fun p : nat => exists b, heap m !! p = Some b /\ Block.Event b = Added)
    (chain_list m).

(** ** The logs and the context *)

(** From the instant of [m] on, the provider answers every question
    for the logs of a block that [m'] retains with logs that [addLogs]
    accepts: some logs, or none for a block whose logs bloom is
    empty. *)
Definition answers_logs (E : Env) (m m' : Monitor) : Prop :=
  forall (t p : nat) (b : Block.t) (topics : list (list common.Hash)),
    (clock m <= t)%nat -> p ∈ chain_list m' -> heap m' !! p = Some b ->
    exists logs, FilterLogs E t (Block.Hash b) topics = Ok logs /\
                 (0 <? len logs) || (types.Bloom (Block.Block b) =? 0) = true.

(** The context is never cancelled. *)
Definition live (E : Env) : Prop := forall t, ctxDone E t = false.

(** ** Subscribers *)

(** A subscriber whose channel and whose [done] channel are open. *)
Definition open_at (m : Monitor) (sp : nat) : Prop :=
  exists sub, subheap m !! sp = Some sub /\ ch_closed sub = false /\
              done_closed sub = false.

(** The registry holds each subscriber once, and only subscribers that
    have not unsubscribed. *)
Definition registry_ok (m : Monitor) : Prop :=
  NoDup (subscribers m) /\ Forall (open_at m) (subscribers m).

(** The subscriber after it was sent a batch. *)
Definition received (events : Blocks) (sub : subscriber) : subscriber :=
  mkSubscriber (ch_pending sub ++ [events]) (ch_closed sub) (done_closed sub).

(** * Examples *)

(** ** Providers *)

(** A block with an empty logs bloom. *)
Definition blk (number hash parent : Z) : types.Block :=
  types.mkBlock number hash parent 0.

(** A provider whose chain is linear: block [n] has hash [100 + n], its
    latest block is block 1 and it knows no block by hash.  It has no
    logs and the context is never cancelled. *)
Definition linear : Env :=
  mkEnv
    (fun _ num => match num with
                  | Some n => Ok (blk n (100 + n) (99 + n))
                  | None => Ok (blk 1 101 100)
                  end)
    (fun _ _ => Fail NotFound)
    (fun _ _ _ => Ok [])
    (fun _ => false).


(** A provider whose chain forks after block 1: by number it serves the
    blocks 1 and 2 with the hashes 101 and 102 and then a block 3 with
    hash 203 whose parent 202 is another block 2, known by hash; the
    logs of a block are its hash. *)
Definition forked : Env :=
  mkEnv
    (fun _ num => match num with
                  | Some 3 => Ok (blk 3 203 202)
                  | Some n => Ok (blk n (100 + n) (99 + n))
                  | None => Ok (blk 1 101 100)
                  end)
    (fun _ h => if h =? 202 then Ok (blk 2 202 101) else Fail NotFound)
    (fun _ h _ => Ok [h])
    (fun _ => false).

(** ** Options *)

(** The default options, trailing two blocks behind the head. *)
Definition trail2 : Options :=
  mkOptions (PollingInterval DefaultOptions) (Timeout DefaultOptions) None false
    2 200 false [] false.

(** The default options with logs. *)
Definition with_logs : Options :=
  mkOptions (PollingInterval DefaultOptions) (Timeout DefaultOptions) None false
    0 200 true [] false.

(** A retention limit of one block behind a trail of two gives a queue
    of capacity two. *)
Definition tiny_queue : Options :=
  mkOptions (PollingInterval DefaultOptions) (Timeout DefaultOptions) None false
    2 (-1) false [] false.

(** The default options, starting ten blocks behind the provider's head. *)
Definition start_minus_10 : Options :=
  mkOptions (PollingInterval DefaultOptions) (Timeout DefaultOptions) (Some (-10)) false
    0 200 false [] false.

(** The same, starting one block behind a provider whose head is block 1. *)
Definition start_minus_1 : Options :=
  mkOptions (PollingInterval DefaultOptions) (Timeout DefaultOptions) (Some (-1)) false
    0 200 false [] false.

(** ** Monitors *)

(** A monitor that retains the blocks at the addresses 0, 1 and 2. *)
Definition three_blocks : Monitor :=
  set_chain (mkChain (Some [0; 1; 2]%nat) 200) (NewMonitor DefaultOptions).

(** A monitor with one subscription. *)
Definition subscribed : Monitor :=
  match Subscribe (NewMonitor DefaultOptions) with
  | Ret _ m => m
  | _ => NewMonitor DefaultOptions
  end.

(** The monitor after the blocks 1 and 2 of [forked]. *)
Definition two_blocks : Monitor :=
  Eval vm_compute in
    match iterate forked 2 (mkLocals [] 1000) (NewMonitor with_logs) with
    | Ret _ m => m
    | _ => NewMonitor with_logs
    end.

(** ** More providers *)

(** A provider that has no block yet: every question by number or by
    hash is answered [NotFound]. *)
Definition silent : Env :=
  mkEnv (fun _ _ => Fail NotFound) (fun _ _ => Fail NotFound) (fun _ _ _ => Ok [])
    (fun _ => false).

(** A context that is cancelled at the instant 8: two iterations of the
    loop on the provider [linear] find it live. *)
Definition halting : Env :=
  mkEnv (BlockByNumber linear) (BlockByHash linear) (FilterLogs linear)
    (fun t => (8 <=? t)%nat).

(** A provider that reorganises its chain at the instant 12: before, its
    chain is that of [linear]; from then on its blocks 2, 3 and 4 have
    the hashes 202, 203 and 204, on top of the block 1 it had.  By hash
    it knows the new block 2 only. *)
Definition reorged : Env :=
  mkEnv
    (fun t num =>
       if (t <? 12)%nat then BlockByNumber linear t num
       else match num with
            | Some 2 => Ok (blk 2 202 101)
            | Some 3 => Ok (blk 3 203 202)
            | Some 4 => Ok (blk 4 204 203)
            | _ => BlockByNumber linear t num
            end)
    (fun _ h => if h =? 202 then Ok (blk 2 202 101) else Fail NotFound)
    (fun _ _ _ => Ok [])
    (fun _ => false).

(** A provider whose chain is linear and whose logs, all empty, cannot
    be had before the instant 9. *)
Definition late_logs : Env :=
  mkEnv (BlockByNumber linear) (BlockByHash linear)
    (fun t _ _ => if (t <? 9)%nat then Fail (ErrProvider 503) else Ok [])
    (fun _ => false).

(** ** More monitors *)

(** The monitor that trails two blocks behind the head, in the fifth
    iteration on the provider [linear], as [publish] finds it: the
    blocks 1 to 5 are retained, the batches of the blocks 3 and 4 wait
    in the queue. *)
Definition trailing : Monitor :=
  Eval vm_compute in
    match (let* _ := iterate linear 4 (mkLocals [] 1000) in
           let* _ := buildCanonicalChain linear (blk 5 105 104) [] in
           clearLogs [4%nat]) (NewMonitor trail2) with
    | Ret _ m => m
    | _ => NewMonitor trail2
    end.

(** The monitor after the first block of [late_logs]: the block is
    retained and published, and its logs are yet to be had. *)
Definition awaiting_logs : Monitor :=
  Eval vm_compute in
    match iterate late_logs 1 (mkLocals [] 1000) (NewMonitor with_logs) with
    | Ret _ m => m
    | _ => NewMonitor with_logs
    end.

(** * Properties *)

(** ** Machine integers and indexing *)

Lemma int_id z : is_int z -> int z = z.
Proof.
  unfold is_int, int, min_int, max_int. intros H.
  rewrite Z.mod_small; lia.
Qed.

Lemma int_int_sub n f : int (int (n - f) - 1) = int (n - f - 1).
Proof.
  unfold int.
  replace ((n - f + 2 ^ 63) mod 2 ^ 64 - 2 ^ 63 - 1 + 2 ^ 63)
    with ((n - f + 2 ^ 63) mod 2 ^ 64 - 1) by lia.
  rewrite Zminus_mod_idemp_l. f_equal. f_equal. lia.
Qed.

(** A negative finality depth sends the index past the end of the
    slice, or below zero when the subtraction wraps. *)
Lemma int_sub_negative n f :
  0 <= n <= max_int -> is_int f -> f < 0 ->
  int (n - f - 1) < 0 \/ n <= int (n - f - 1).
Proof.
  unfold is_int, max_int, min_int, int. intros Hn Hf Hneg.
  destruct (Z_lt_le_dec (n - f - 1) (2 ^ 63)) as [Hs|Hb].
  - right. rewrite Z.mod_small; lia.
  - left. replace (n - f - 1 + 2 ^ 63) with ((n - f - 1 - 2 ^ 63) + 1 * 2 ^ 64) by lia.
    rewrite Z_mod_plus_full. rewrite Z.mod_small; lia.
Qed.

Lemma index_in_range {A} (s : list A) (i : Z) (m : Monitor) :
  0 <= i < len s -> exists a, s !! Z.to_nat i = Some a /\ index s i m = Ret a m.
Proof.
  intros Hi. unfold index, len in *.
  destruct (s !! Z.to_nat i) as [a|] eqn:Ha.
  - exists a. split; [done|].
    replace (i <? 0) with false by lia.
    replace (Z.of_nat (length s) <=? i) with false by lia. done.
  - apply lookup_ge_None in Ha. lia.
Qed.

Lemma index_out_of_range {A} (s : list A) (i : Z) (m : Monitor) :
  i < 0 \/ len s <= i -> index s i m = Panics IndexOutOfRange.
Proof.
  intros Hi. unfold index.
  destruct (i <? 0) eqn:H1; [done|].
  destruct (len s <=? i) eqn:H2; [done|]. lia.
Qed.

(** ** LatestFinalBlock *)

(** C10.  With [n] retained blocks, [LatestFinalBlock f] returns nil
    when [n < f + 1] (the sum being the one the code computes) and
    otherwise reads the slice at [n - f - 1]: for [0 <= f] and
    [f + 1 <= n] that is the block at this index; for every negative
    [f] the index is out of range and the call panics, on the empty
    chain as on a non-empty one.  So a block is returned only when
    [0 <= f]. *)
Theorem LatestFinalBlock_spec (m : Monitor) (f : Z) :
  is_int f -> len (chain_list m) <= max_int ->
  let n := len (chain_list m) in
  (n < int (f + 1) -> LatestFinalBlock f m = Ret None m) /\
  (f < max_int -> n < f + 1 -> LatestFinalBlock f m = Ret None m) /\
  (0 <= f -> f + 1 <= n ->
   exists p, chain_list m !! Z.to_nat (n - f - 1) = Some p /\
             LatestFinalBlock f m = Ret (Some p) m) /\
  (f < 0 -> LatestFinalBlock f m = Panics IndexOutOfRange) /\
  (forall p m', LatestFinalBlock f m = Ret (Some p) m' -> 0 <= f).
Proof.
  intros Hf Hlen n.
  assert (Hn : 0 <= n) by (unfold n, len; lia).
  assert (Hnil : n < int (f + 1) -> LatestFinalBlock f m = Ret None m).
  { intros H. unfold LatestFinalBlock, bind, get. fold n.
    replace (n <? int (f + 1)) with true by lia. done. }
  assert (Hneg : f < 0 -> LatestFinalBlock f m = Panics IndexOutOfRange).
  { intros H. unfold LatestFinalBlock, bind, get. fold n.
    rewrite int_id by (unfold is_int, min_int, max_int in *; lia).
    replace (n <? f + 1) with false by lia.
    rewrite int_int_sub.
    rewrite index_out_of_range; [done|].
    fold n. apply int_sub_negative; [lia|done|done]. }
  split; [done|]. split; [|split; [|split]].
  - intros Hlt H. apply Hnil. rewrite int_id; [done|].
    unfold is_int, min_int, max_int in *. lia.
  - intros H0 Hle.
    assert (Hi : 0 <= n - f - 1 < len (chain_list m)) by (fold n; lia).
    destruct (index_in_range (chain_list m) (n - f - 1) m Hi) as (p & Hp & Hidx).
    exists p. split; [done|].
    unfold LatestFinalBlock, bind, get. fold n.
    rewrite int_id by (unfold is_int, min_int, max_int in *; lia).
    replace (n <? f + 1) with false by lia.
    rewrite int_int_sub, int_id by (unfold is_int, min_int, max_int in *; lia).
    rewrite Hidx. done.
  - done.
  - intros p m' H. destruct (Z_lt_le_dec f 0) as [Hlt|]; [|done].
    rewrite Hneg in H by done. discriminate.
Qed.

Lemma LatestFinalBlock_spec_witness :
  is_int 1 /\ len (chain_list three_blocks) <= max_int /\
  LatestFinalBlock 1 three_blocks = Ret (Some 1%nat) three_blocks /\
  LatestFinalBlock (-1) three_blocks = Panics IndexOutOfRange.
Proof.
  assert (Hf : is_int 1) by (unfold is_int; vm_compute; split; discriminate).
  assert (Hl : len (chain_list three_blocks) <= max_int) by (vm_compute; discriminate).
  destruct (LatestFinalBlock_spec three_blocks 1 Hf Hl) as (_ & _ & Hblock & _).
  destruct Hblock as (p & Hp & Hret); [lia | vm_compute; discriminate |].
  split; [done|]. split; [done|]. split.
  - vm_compute in Hp. injection Hp as <-. exact Hret.
  - reflexivity.
Defined.

Example LatestFinalBlock_negative :
  LatestFinalBlock (-1) three_blocks = Panics IndexOutOfRange.
Proof. reflexivity. Qed.

(** ** PurgeHistory *)

(** C7.  On a chain of more than one block [PurgeHistory] leaves the
    slice [blocks[1:1]], which is empty: the head is dropped with the
    rest, where the comment of the function keeps it. *)
Theorem PurgeHistory_empties (m : Monitor) :
  1 < len (chain_list m) ->
  exists m', PurgeHistory m = Ret tt m' /\ chain_list m' = [] /\
             list.last (chain_list m') <> list.last (chain_list m).
Proof.
  intros Hlen. unfold PurgeHistory, bind, get, modify.
  replace (1 <? len (chain_list m)) with true by lia.
  eexists. split; [reflexivity|].
  assert (Hnil : chain_list (set_chain (mkChain (Some (slice 1 1 (chain_list m)))
                                          (retentionLimit (chain m))) m) = []).
  { reflexivity. }
  rewrite Hnil. split; [done|].
  destruct (chain_list m) as [|x l _] using rev_ind.
  - unfold len in Hlen. simpl in Hlen. lia.
  - rewrite last_snoc. discriminate.
Qed.

Lemma PurgeHistory_empties_witness :
  1 < len (chain_list three_blocks) /\
  exists m', PurgeHistory three_blocks = Ret tt m' /\ chain_list m' = [] /\
             list.last (chain_list m') <> list.last (chain_list three_blocks).
Proof.
  split; [reflexivity|].
  apply (PurgeHistory_empties three_blocks). reflexivity.
Defined.

(** ** publish *)

(** The threshold of [publish] in trail-behind-head mode is the
    difference of the head number and [k] in [uint64]: it wraps when the
    head number is smaller than [k]. *)
Lemma publish_maxBlockNum_spec (m : Monitor) (hp : ptr) (hb : Block.t) :
  let k := TrailNumBlocksBehindHead (options m) in
  let h := Block.NumberU64 hb in
  0 < k <= max_int ->
  list.last (chain_list m) = Some hp -> heap m !! hp = Some hb ->
  publish_maxBlockNum m = Ret (if h <? k then 2 ^ 64 + h - k else h - k) m.
Proof.
  intros k h Hk Hlast Hhp.
  unfold publish_maxBlockNum, bind, get, LatestBlock, chain_ops.Head, load, ret.
  fold k. replace (0 <? k) with true by lia.
  rewrite Hlast, Hhp. f_equal. fold h.
  assert (Hh : 0 <= h < 2 ^ 64) by (apply Z.mod_pos_bound; lia).
  unfold max_int in Hk. unfold u64 at 2. rewrite (Z.mod_small k) by lia.
  unfold u64. destruct (h <? k) eqn:Hlt.
  - replace (h - k) with (2 ^ 64 + h - k + (-1) * 2 ^ 64) by lia.
    rewrite Z_mod_plus_full. apply Z.mod_small. lia.
  - apply Z.mod_small. lia.
Qed.

(** C1.  With [TrailNumBlocksBehindHead = 2], after the first iteration
    on a provider whose latest block is block 1 the head of the cache
    is block 1, the threshold of [publish] is [1 - 2] wrapped to
    [2^64 - 1], and the batch with the Added block 1 has been sent to
    the broadcast stage although [1 > 1 - 2]. *)
Theorem publish_trail_wraps :
  exists l m,
    iterate linear 1 (mkLocals [] 1000) (NewMonitor trail2) = Ret l m /\
    publishCh m = [[0%nat]] /\
    heap m !! 0%nat = Some (Block.mk (blk 1 101 100) Added [] true) /\
    list.last (chain_list m) = Some 0%nat /\
    publish_maxBlockNum m = Ret 18446744073709551615 m /\
    ~ 1 <= 1 - TrailNumBlocksBehindHead (options m).
Proof.
  eexists _, _. split; [vm_compute; reflexivity|].
  repeat split; try reflexivity. simpl. lia.
Qed.

(** The next block is sent as well: the head number equals [k], the
    threshold is [0], which the queue reads as "no trailing". *)
Example publish_trail_zero :
  exists l m,
    iterate linear 2 (mkLocals [] 1000) (NewMonitor trail2) = Ret l m /\
    publishCh m = [[0%nat]; [1%nat]] /\
    heap m !! 1%nat = Some (Block.mk (blk 2 102 101) Added [] true).
Proof. eexists _, _. split; [vm_compute; reflexivity|]. split; reflexivity. Qed.

(** ** Subscriptions *)

Lemma first_index_Some (sp : nat) (l : list nat) (i j : nat) :
  first_index sp l i = Some j ->
  exists k : nat, j = (i + k)%nat /\ l !! k = Some sp /\ (sp ∉ take k l).
Proof.
  revert i. induction l as [|x l IH]; intros i H; simpl in H; [done|].
  destruct (x =? sp)%nat eqn:Hx.
  - apply Nat.eqb_eq in Hx. injection H as <-. exists 0%nat. subst x.
    split; [lia|]. split; [done|]. simpl. apply not_elem_of_nil.
  - apply Nat.eqb_neq in Hx. destruct (IH _ H) as (k & -> & Hk & Hnot).
    exists (S k). split; [lia|]. split; [done|].
    simpl. rewrite not_elem_of_cons. done.
Qed.

Lemma first_index_None (sp : nat) (l : list nat) (i : nat) :
  first_index sp l i = None -> sp ∉ l.
Proof.
  revert i. induction l as [|x l IH]; intros i H; simpl in H.
  - apply not_elem_of_nil.
  - destruct (x =? sp)%nat eqn:Hx; [done|]. apply Nat.eqb_neq in Hx.
    rewrite not_elem_of_cons. split; [done|]. by eapply IH.
Qed.




(** ** Run: the first block number *)

(** C6, as the code has it.  With an empty cache, [Bootstrap] false and
    a negative [StartBlockNumber], [Run] asks the provider for its
    head: the next block number to probe is
    [providerHead + StartBlockNumber] when this sum is not negative,
    and nil, which stands for the provider's latest block, when it
    is. *)
Theorem Run_start_negative (E : Env) (m : Monitor) (start : Z) (latest : types.Block) :
  running m = false -> Bootstrap (options m) = false -> chain_list m = [] ->
  StartBlockNumber (options m) = Some start -> start < 0 ->
  BlockByNumber E (clock m) None = Ok latest ->
  exists m',
    Run_start E m = Ret None m' /\
    nextBlockNumber m' =
      (if types.Number latest + start <? 0 then None
       else Some (types.Number latest + start)).
Proof.
  intros Hrun Hboot Hchain Hstart Hneg Hlatest.
  unfold Run_start, bind, get, modify, chain_ops.Head, tick, ret.
  rewrite Hrun, Hboot. simpl.
  unfold chain_list in *. simpl. rewrite Hchain. simpl.
  rewrite Hstart. replace (0 <=? start) with false by lia.
  simpl. rewrite Hlatest. simpl.
  destruct (types.Number latest + start <? 0); eexists; split; reflexivity.
Qed.

Lemma Run_start_negative_witness :
  exists m',
    Run_start linear (NewMonitor start_minus_1) = Ret None m' /\
    nextBlockNumber m' = Some 0.
Proof.
  destruct (Run_start_negative linear (NewMonitor start_minus_1) (-1) (blk 1 101 100))
    as (m' & Hret & Hnext); try reflexivity.
  exists m'. split; [exact Hret | exact Hnext].
Defined.

(** Against C6 as the specification has it: the provider's head is block 1 and
    [StartBlockNumber] is -10; the sum is negative and the next block
    number is nil, not 0. *)
Lemma Run_start_not_clamped :
  exists m',
    Run_start linear (NewMonitor start_minus_10) = Ret None m' /\
    nextBlockNumber m' = None /\
    nextBlockNumber m' <> Some (Z.max 0 (1 + -10)).
Proof. eexists. repeat split. discriminate. Qed.

(** ** Reasoning about computations *)

Lemma bind_Ret {A B} (c : St A) (k : A -> St B) (m m' : Monitor) (b : B) :
  bind c k m = Ret b m' -> exists a m1, c m = Ret a m1 /\ k a m1 = Ret b m'.
Proof.
  unfold bind. destruct (c m) as [a m1| |]; [|done..]. intros H. by exists a, m1.
Qed.

Lemma ctx_Done_inv (E : Env) (m m' : Monitor) (done : bool) :
  ctx_Done E m = Ret done m' ->
  done = ctxDone E (clock m) /\ m' = set_clock (S (clock m)) m.
Proof. unfold ctx_Done, tick, bind, ret. by intros [= <- <-]. Qed.

Lemma load_inv (p : ptr) (m m' : Monitor) (b : Block.t) :
  load p m = Ret b m' -> m' = m /\ heap m !! p = Some b.
Proof. unfold load. destruct (heap m !! p); [|done]. by intros [= <- <-]. Qed.

Section keeps.
Context (R : relation Monitor) (HR : frame R).

Lemma keeps_ret {A} (a : A) : keeps R (ret a).
Proof. intros m a' m' [= <- <-]. by apply (frame_refl R HR). Qed.

Lemma keeps_throw {A} (p : panic) : keeps R (@throw A p).
Proof. by intros m a m'. Qed.

Lemma keeps_out_of_fuel {A} : keeps R (fun _ => @OutOfFuel A).
Proof. by intros m a m'. Qed.

Lemma keeps_get : keeps R get.
Proof. intros m a m' [= <- <-]. by apply (frame_refl R HR). Qed.

Lemma keeps_bind {A B} (c : St A) (k : A -> St B) :
  keeps R c -> (forall a, keeps R (k a)) -> keeps R (bind c k).
Proof.
  intros Hc Hk m b m' H. apply bind_Ret in H as (a & m1 & H1 & H2).
  eapply (frame_trans R HR); [by eapply Hc | by eapply Hk].
Qed.

Lemma keeps_load (p : ptr) : keeps R (load p).
Proof.
  intros m a m'. unfold load. destruct (heap m !! p); [|done].
  intros [= <- <-]. by apply (frame_refl R HR).
Qed.

Lemma keeps_alloc (b : Block.t) : keeps R (alloc b).
Proof. intros m a m' [= <- <-]. by apply (frame_alloc R HR). Qed.

Lemma keeps_tick : keeps R tick.
Proof. intros m a m' [= <- <-]. by apply (frame_clock R HR). Qed.

Lemma keeps_set_nextBlockNumber (n : option Z) :
  keeps R (modify (set_nextBlockNumber n)).
Proof. intros m a m' [= <- <-]. by apply (frame_next R HR). Qed.

Lemma keeps_Head : keeps R chain_ops.Head.
Proof. intros m a m' [= <- <-]. by apply (frame_refl R HR). Qed.

Lemma keeps_Blocks : keeps R chain_ops.Blocks_.
Proof. intros m a m' [= <- <-]. by apply (frame_refl R HR). Qed.

Lemma keeps_pop : keeps R chain_ops.pop.
Proof.
  intros m a m'. unfold chain_ops.pop. destruct (list.last (chain_list m)).
  - intros [= <- <-]. by apply (frame_chain R HR).
  - intros [= <- <-]. by apply (frame_refl R HR).
Qed.

Lemma keeps_set_chain (c : Chain) : keeps R (modify (set_chain c)).
Proof. intros m a m' [= <- <-]. by apply (frame_chain R HR). Qed.

End keeps.

Create HintDb keeps discriminated.
#[export] Hint Resolve keeps_ret keeps_throw keeps_out_of_fuel keeps_get keeps_load
  keeps_alloc keeps_tick keeps_set_nextBlockNumber keeps_Head keeps_Blocks keeps_pop
  keeps_set_chain : keeps.

(** One step through the text of a computation. *)
Ltac keeps_step :=
  lazymatch goal with
  | |- keeps _ (bind _ _) => apply keeps_bind; [done | | intros ?]
  | |- keeps _ (match ?x with _ => _ end) => destruct x
  | |- keeps _ (let _ := _ in _) => cbv zeta
  | |- keeps _ _ => first [ eassumption | solve [eauto with keeps] ]
  end.
Ltac keeps_auto := repeat keeps_step.

Section keeps_loops.
Context (R : relation Monitor) (HR : frame R) (E : Env).

Lemma keeps_ctx_Done : keeps R (ctx_Done E).
Proof using HR. unfold ctx_Done. keeps_auto. Qed.
Hint Resolve keeps_ctx_Done : keeps.

Lemma keeps_push (p : ptr) : keeps R (chain_ops.push p).
Proof using HR. unfold chain_ops.push. keeps_auto. Qed.
Hint Resolve keeps_push : keeps.

Lemma keeps_fetchBlockByNumber_loop fuel num errAttempts err :
  keeps R (fetchBlockByNumber_loop E fuel num errAttempts err).
Proof using HR.
  revert errAttempts err. induction fuel as [|fuel IH]; intros; simpl; keeps_auto.
Qed.

Lemma keeps_fetchBlockByNumber num : keeps R (fetchBlockByNumber E num).
Proof using HR. apply keeps_fetchBlockByNumber_loop. Qed.

Lemma keeps_fetchBlockByHash_loop fuel hash notFoundAttempts errAttempts err :
  keeps R (fetchBlockByHash_loop E fuel hash notFoundAttempts errAttempts err).
Proof using HR.
  revert notFoundAttempts errAttempts err.
  induction fuel as [|fuel IH]; intros; simpl; keeps_auto.
Qed.

Lemma keeps_fetchBlockByHash hash : keeps R (fetchBlockByHash E hash).
Proof using HR. apply keeps_fetchBlockByHash_loop. Qed.
Hint Resolve keeps_fetchBlockByHash keeps_fetchBlockByNumber : keeps.

Lemma keeps_buildCanonicalChain_rec fuel nextBlock events :
  keeps R (buildCanonicalChain_rec E fuel nextBlock events).
Proof using HR.
  revert nextBlock events. induction fuel as [|fuel IH]; intros; simpl; keeps_auto.
Qed.

Lemma keeps_buildCanonicalChain nextBlock events :
  keeps R (buildCanonicalChain E nextBlock events).
Proof using HR. intros m a m' H. by eapply keeps_buildCanonicalChain_rec. Qed.

Context (HF : frame_flags R).

Lemma keeps_update (p : ptr) (f : Block.t -> Block.t) :
  (forall b, Block.Block (f b) = Block.Block b /\ Block.Event (f b) = Block.Event b) ->
  keeps R (update p f).
Proof using HF.
  intros Hf m a m'. unfold update. destruct (heap m !! p) as [b|] eqn:Hb; [|done].
  intros [= <- <-]. eapply (frame_update R HF); [exact Hb | apply Hf..].
Qed.

Lemma keeps_addLogs blocks : keeps R (addLogs E blocks).
Proof using HR HF.
  induction blocks as [|block rest IH]; simpl; keeps_auto;
    by apply keeps_update.
Qed.

Lemma keeps_backfill_loop blocks : keeps R (backfill_loop E blocks).
Proof using HR HF.
  induction blocks as [|block rest IH]; cbn [backfill_loop]; keeps_auto.
  apply keeps_addLogs.
Qed.

Lemma keeps_backfillChainLogs : keeps R (backfillChainLogs E).
Proof using HR HF.
  unfold backfillChainLogs. keeps_auto. apply keeps_backfill_loop.
Qed.

Lemma keeps_clearLogs events : keeps R (clearLogs events).
Proof using HR HF.
  induction events as [|b rest IH]; simpl; keeps_auto. by apply keeps_update.
Qed.

End keeps_loops.

(** ** The relations kept by the loop *)

Lemma same_config_frame : frame_flags same_config.
Proof. by repeat split; unfold same_config in *; simpl; intuition congruence. Qed.

Lemma clock_le_frame : frame_flags clock_le.
Proof.
  repeat split; unfold clock_le in *; simpl; lia.
Qed.

Lemma heap_evolves_frame : frame_flags heap_evolves.
Proof.
  split; [split|]; unfold heap_evolves; simpl; eauto.
  - intros m1 m2 m3 H12 H23 p b Hb.
    destruct (H12 _ _ Hb) as (b2 & Hb2 & ? & ?).
    destruct (H23 _ _ Hb2) as (b3 & Hb3 & ? & ?).
    exists b3. repeat split; congruence.
  - intros m b0 p b Hb. exists b. split; [by apply lookup_app_l_Some | done].
  - intros m p b b' Hb HB HE q bq Hq. destruct (decide (q = p)) as [->|Hne].
    + exists b'. rewrite list_lookup_insert_eq by (by eapply lookup_lt_Some).
      split; [done|]. split; congruence.
    + exists bq. by rewrite list_lookup_insert_ne.
Qed.

Lemma heap_grows_frame : frame heap_grows.
Proof.
  split; unfold heap_grows; simpl; try done.
  - intros m1 m2 m3 ??. by etrans.
  - intros m b. by apply prefix_app_r.
Qed.

(** ** One iteration, step by step *)

Lemma monitor_iteration_inv (E : Env) (l l' : locals) (m m' : Monitor) (r : iteration) :
  monitor_iteration E l m = Ret (r, l') m' ->
  (ctxDone E (clock m) = true /\ r = Return None /\ l' = l) \/
  (ctxDone E (clock m) = false /\
   exists m1 fetched m2,
     options m1 = options m /\ heap m1 = heap m /\ chain m1 = chain m /\
     publishQueue m1 = publishQueue m /\ publishCh m1 = publishCh m /\
     clock m1 = S (clock m) /\
     fetchBlockByNumber E (nextBlockNumber m1) m1 = Ret fetched m2 /\
     match fetched with
     | Fail err =>
         r = match err with
             | NotFound => ContinueNotFound
             | _ => ContinueFetchFailed err
             end /\
         l' = mkLocals (events l) (PollingInterval (options m)) /\ m' = m2
     | Ok nextBlock =>
         exists evs err m3,
           buildCanonicalChain E nextBlock (events l) m2 = Ret (evs, err) m3 /\
           match err with
           | Some e =>
               r = ContinueBuildFailed e /\
               l' = mkLocals evs (pollInterval l ÷ 2) /\ m' = m3
           | None =>
               exists m4 perr,
                 (if WithLogs (options m)
                  then (let* _ := addLogs E evs in backfillChainLogs E)
                  else clearLogs evs) m3 = Ret tt m4 /\
                 publish evs m4 = Ret perr m' /\
                 match perr with
                 | Some e =>
                     r = Return (Some (superr_New ErrFatal (Some e))) /\
                     l' = mkLocals evs (pollInterval l ÷ 2)
                 | None =>
                     r = Published evs /\ l' = mkLocals [] (pollInterval l ÷ 2)
                 end
           end
     end).
Proof.
  intros H. unfold monitor_iteration in H.
  apply bind_Ret in H as (done & m0 & Hdone & H).
  unfold ctx_Done, tick, bind, ret in Hdone. injection Hdone as <- <-.
  destruct (ctxDone E (clock m)) eqn:Hctx.
  { left. injection H as <- <- <-. done. }
  right. split; [done|].
  apply bind_Ret in H as (headBlock & m0' & Hhead & H).
  injection Hhead as <- <-.
  apply bind_Ret in H as ([] & m1 & Hnext & H).
  assert (Hm1 : options m1 = options m /\ heap m1 = heap m /\ chain m1 = chain m /\
                publishQueue m1 = publishQueue m /\ publishCh m1 = publishCh m /\
                clock m1 = S (clock m)).
  { destruct (list.last _) as [hp|] in Hnext.
    - apply bind_Ret in Hnext as (hb & m0' & Hload & Hnext).
      unfold load in Hload. simpl in Hload.
      destruct (heap m !! hp); [|done]. injection Hload as <- <-.
      by injection Hnext as <-.
    - by injection Hnext as <-. }
  destruct Hm1 as (Hopt & Hheap & Hchain & Hq & Hch & Hclock).
  apply bind_Ret in H as (m1' & m1'' & Hget & H). injection Hget as <- <-.
  apply bind_Ret in H as (fetched & m2 & Hfetch & H).
  exists m1, fetched, m2. do 6 (split; [done|]). split; [done|].
  rewrite Hopt in H.
  destruct fetched as [nextBlock|err].
  - apply bind_Ret in H as ([evs err] & m3 & Hbuild & H).
    exists evs, err, m3. split; [done|].
    destruct err as [e|].
    + by injection H as <- <- <-.
    + apply bind_Ret in H as ([] & m4 & Hlogs & H).
      apply bind_Ret in H as (perr & m5 & Hpub & H).
      exists m4, perr. split; [done|].
      destruct perr; injection H as <- <- <-; done.
  - destruct err; injection H as <- <- <-; done.
Qed.

(** At a cancelled context the iteration returns nil at once. *)
Lemma monitor_iteration_cancelled (E : Env) (l : locals) (m : Monitor) :
  ctxDone E (clock m) = true ->
  monitor_iteration E l m = Ret (Return None, l) (set_clock (S (clock m)) m).
Proof.
  intros Hctx. unfold monitor_iteration, bind at 1, ctx_Done, bind, tick, ret.
  by rewrite Hctx.
Qed.

(** The state in which an iteration asks for the next block: one more
    than the number of the head when a block is retained, and the
    number kept from before otherwise. *)
Lemma monitor_iteration_probe (E : Env) (l l' : locals) (m m' : Monitor) (r : iteration) :
  ctxDone E (clock m) = false ->
  monitor_iteration E l m = Ret (r, l') m' ->
  exists next fetched m2,
    match list.last (chain_list m) with
    | Some hp => exists hb, heap m !! hp = Some hb /\
                            next = Some (types.Number (Block.Block hb) + 1)
    | None => next = nextBlockNumber m
    end /\
    fetchBlockByNumber E next (set_nextBlockNumber next (set_clock (S (clock m)) m))
      = Ret fetched m2 /\
    match fetched with
    | Fail err =>
        r = match err with
            | NotFound => ContinueNotFound
            | _ => ContinueFetchFailed err
            end /\
        l' = mkLocals (events l) (PollingInterval (options m)) /\ m' = m2
    | Ok _ => is_continue r = true -> exists e, r = ContinueBuildFailed e
    end.
Proof.
  intros Hctx H. unfold monitor_iteration in H.
  apply bind_Ret in H as (done & m0 & Hdone & H).
  apply ctx_Done_inv in Hdone as (-> & ->). rewrite Hctx in H.
  apply bind_Ret in H as (headBlock & m0 & Hhead & H). injection Hhead as <- <-.
  apply bind_Ret in H as ([] & m1 & Hnext & H).
  change (chain_list (set_clock (S (clock m)) m)) with (chain_list m) in *.
  assert (Hm1 : exists next,
    match list.last (chain_list m) with
    | Some hp => exists hb, heap m !! hp = Some hb /\
                            next = Some (types.Number (Block.Block hb) + 1)
    | None => next = nextBlockNumber m
    end /\ m1 = set_nextBlockNumber next (set_clock (S (clock m)) m)).
  { destruct (list.last _) as [hp|].
    - apply bind_Ret in Hnext as (hb & m0 & Hload & Hnext).
      apply load_inv in Hload as (-> & Hhb). injection Hnext as <-.
      eexists. split; [by exists hb|]. done.
    - injection Hnext as <-. exists (nextBlockNumber m). split; [done|]. by destruct m. }
  destruct Hm1 as (next & Hnext' & ->). clear Hnext.
  apply bind_Ret in H as (m1' & m1'' & Hget & H). injection Hget as <- <-.
  apply bind_Ret in H as (fetched & m2 & Hfetch & H). simpl in Hfetch.
  exists next, fetched, m2. split; [exact Hnext'|]. split; [exact Hfetch|].
  destruct fetched as [nextBlock|err].
  - apply bind_Ret in H as ([evs err] & m3 & Hbuild & H).
    destruct err as [e|]; [injection H as <- <- <-; by exists e|].
    apply bind_Ret in H as ([] & m4 & Hlogs & H).
    apply bind_Ret in H as (perr & m5 & Hpub & H).
    destruct perr; injection H as <- <- <-; done.
  - destruct err; injection H as <- <- <-; done.
Qed.

(** The body of an iteration once the next block is fetched. *)
Lemma monitor_iteration_fetched (E : Env) (l : locals) (m m2 : Monitor)
    (nextBlock : types.Block) :
  fetches_next E m nextBlock m2 ->
  monitor_iteration E l m
  = (let* (events, err) := buildCanonicalChain E nextBlock (events l) in
     match err with
     | Some e => ret (ContinueBuildFailed e, mkLocals events (pollInterval l ÷ 2))
     | None =>
         let* _ :=
           if WithLogs (options m) then
             let* _ := addLogs E events in
             backfillChainLogs E
           else clearLogs events in
         let* err := publish events in
         match err with
         | Some e =>
             ret (Return (Some (superr_New ErrFatal (Some e))),
                  mkLocals events (pollInterval l ÷ 2))
         | None => ret (Published events, mkLocals [] (pollInterval l ÷ 2))
         end
     end) m2.
Proof.
  intros (Hctx & next & Hnext & Hfetch).
  unfold monitor_iteration, bind at 1, ctx_Done, bind at 1, tick, ret at 1.
  rewrite Hctx. unfold bind at 1, chain_ops.Head.
  change (chain_list (set_clock (S (clock m)) m)) with (chain_list m).
  unfold bind at 1.
  assert (Hrest : forall k : Monitor -> types.Block -> St (iteration * locals),
    (let* m0 := get in
     let* fetched := fetchBlockByNumber E (nextBlockNumber m0) in
     match fetched with
     | Ok nextBlock => k m0 nextBlock
     | Fail NotFound =>
         ret (ContinueNotFound, mkLocals (events l) (PollingInterval (options m0)))
     | Fail err =>
         ret (ContinueFetchFailed err, mkLocals (events l) (PollingInterval (options m0)))
     end) (set_nextBlockNumber next (set_clock (S (clock m)) m))
    = k (set_nextBlockNumber next (set_clock (S (clock m)) m)) nextBlock m2).
  { intros k. unfold bind at 1, get. unfold bind at 1.
    change (nextBlockNumber (set_nextBlockNumber next (set_clock (S (clock m)) m)))
      with next.
    by rewrite Hfetch. }
  destruct (list.last (chain_list m)) as [hp|].
  - destruct Hnext as (hb & Hhb & ->).
    unfold bind at 1, load. cbn [heap set_clock]. rewrite Hhb.
    unfold modify.
    exact (Hrest _).
  - subst next. unfold ret at 1.
    replace (set_clock (S (clock m)) m)
      with (set_nextBlockNumber (nextBlockNumber m) (set_clock (S (clock m)) m))
      by (by destruct m).
    exact (Hrest _).
Qed.

(** An iteration that reaches [publish] ends as [publish] does. *)
Lemma monitor_iteration_reaches (E : Env) (l : locals) (m m4 m5 : Monitor)
    (evs : Blocks) (perr : option error) :
  reaches_publish E l m evs m4 -> publish evs m4 = Ret perr m5 ->
  monitor_iteration E l m
  = Ret match perr with
        | Some e => (Return (Some (superr_New ErrFatal (Some e))),
                     mkLocals evs (pollInterval l ÷ 2))
        | None => (Published evs, mkLocals [] (pollInterval l ÷ 2))
        end m5.
Proof.
  intros (nextBlock & m2 & m3 & Hnext & Hbuild & Hlogs) Hpub.
  rewrite (monitor_iteration_fetched E l m m2 nextBlock Hnext).
  unfold bind at 1. rewrite Hbuild. unfold bind at 1. rewrite Hlogs.
  unfold bind at 1. rewrite Hpub. by destruct perr.
Qed.


(** ** The poll interval *)

(** C3, as the code has it.  An iteration that ends at [NotFound] or at
    a failed fetch leaves the poll interval at the configured
    [PollingInterval]; an iteration whose fetch succeeds, whatever
    follows, leaves half the interval it started with, the integer
    division rounding toward zero; there is no lower bound. *)
Theorem monitor_iteration_pollInterval (E : Env) (l l' : locals) (m m' : Monitor)
    (r : iteration) :
  monitor_iteration E l m = Ret (r, l') m' ->
  match r with
  | ContinueNotFound | ContinueFetchFailed _ =>
      pollInterval l' = PollingInterval (options m)
  | ContinueBuildFailed _ | Published _ | Return (Some _) =>
      pollInterval l' = pollInterval l ÷ 2
  | Return None => pollInterval l' = pollInterval l
  end.
Proof.
  intros H. apply monitor_iteration_inv in H as [(_ & -> & ->) | (_ & H)]; [done|].
  destruct H as (m1 & fetched & m2 & _ & _ & _ & _ & _ & _ & _ & H).
  destruct fetched as [nextBlock|err].
  - destruct H as (evs & [e|] & m3 & _ & H).
    + by destruct H as (-> & -> & _).
    + destruct H as (m4 & [e|] & _ & _ & -> & ->); done.
  - destruct H as (-> & -> & _). by destruct err.
Qed.

Lemma monitor_iteration_pollInterval_witness :
  exists l' m',
    monitor_iteration linear (mkLocals [] 1000) (NewMonitor DefaultOptions)
      = Ret (Published [0%nat], l') m' /\
    pollInterval l' = 1000 ÷ 2.
Proof.
  assert (H : exists l' m',
             monitor_iteration linear (mkLocals [] 1000) (NewMonitor DefaultOptions)
             = Ret (Published [0%nat], l') m') by (vm_compute; eauto).
  destruct H as (l' & m' & H). exists l', m'. split; [exact H|].
  exact (monitor_iteration_pollInterval linear _ _ _ _ _ H).
Defined.

(** Against C3 as the specification has it: an interval of one nanosecond is
    halved to zero by a successful fetch, and the default interval of
    one second is zero after thirty successful fetches in a row. *)
Lemma pollInterval_drops_to_zero :
  (exists l' m',
     monitor_iteration linear (mkLocals [] 1) (NewMonitor DefaultOptions)
       = Ret (Published [0%nat], l') m' /\
     pollInterval l' = 0 /\ ~ 1 <= pollInterval l') /\
  (exists l m,
     iterate linear 30 (mkLocals [] (PollingInterval DefaultOptions))
       (NewMonitor DefaultOptions) = Ret l m /\
     length (publishCh m) = 30%nat /\
     pollInterval l = 0 /\ ~ 1 <= pollInterval l).
Proof.
  split.
  - eexists _, _. split; [vm_compute; reflexivity|]. split; [reflexivity|]. simpl. lia.
  - eexists _, _. split; [vm_compute; reflexivity|].
    split; [reflexivity|]. split; [reflexivity|]. simpl. lia.
Qed.

(** ** Errors that end the loop *)

Lemma keeps_publish_maxBlockNum (R : relation Monitor) :
  frame R -> keeps R publish_maxBlockNum.
Proof. intros HR. unfold publish_maxBlockNum, LatestBlock. keeps_auto. Qed.

Lemma publish_maxBlockNum_state (m m' : Monitor) (x : Z) :
  publish_maxBlockNum m = Ret x m' -> m' = m.
Proof.
  unfold publish_maxBlockNum, bind, get, LatestBlock, chain_ops.Head, load, throw, ret.
  repeat case_match; congruence.
Qed.

(** [publish] fails exactly when [enqueue] does, with [ErrQueueFull]. *)
Lemma publish_error (events : Blocks) (m m' : Monitor) (err : option error) :
  publish events m = Ret err m' ->
  match err with
  | Some e => e = ErrQueueFull /\ queue_full m /\ m' = m
  | None => ~ queue_full m
  end.
Proof.
  intros H. unfold publish in H.
  apply bind_Ret in H as (x & m0 & Hmax & H).
  apply publish_maxBlockNum_state in Hmax as ->.
  apply bind_Ret in H as (e & m1 & Henq & H).
  unfold queue_ops.enqueue, queue_full in *.
  destruct (cap (publishQueue m) <=? len (batches (publishQueue m))) eqn:Hfull.
  - injection Henq as <- <-. injection H as <- <-. repeat split. lia.
  - injection Henq as <- <-.
    apply bind_Ret in H as ([pubEvents ok] & m2 & _ & H).
    apply bind_Ret in H as ([] & m3 & _ & H). injection H as <- <-. lia.
Qed.

Lemma publish_queue_full (events : Blocks) (m : Monitor) (x : Z) :
  queue_full m -> publish_maxBlockNum m = Ret x m ->
  publish events m = Ret (Some ErrQueueFull) m.
Proof.
  intros Hfull Hmax. unfold publish, bind. rewrite Hmax.
  unfold queue_ops.enqueue, queue_full in *.
  replace (cap (publishQueue m) <=? len (batches (publishQueue m))) with true by lia.
  done.
Qed.

(** Up to [publish], an iteration leaves the queue alone. *)
Lemma monitor_iteration_exit (E : Env) (l l' : locals) (m m' : Monitor) (r : iteration) :
  monitor_iteration E l m = Ret (r, l') m' ->
  match r with
  | Return (Some e) => e = superr_New ErrFatal (Some ErrQueueFull) /\ queue_full m
  | Published _ => ~ queue_full m
  | _ => True
  end.
Proof.
  intros H. apply monitor_iteration_inv in H as [(_ & -> & ->) | (_ & H)]; [done|].
  destruct H as (m1 & fetched & m2 & _ & _ & _ & Hq1 & _ & _ & Hfetch & H).
  destruct fetched as [nextBlock|err].
  - destruct H as (evs & [e|] & m3 & Hbuild & H).
    + by destruct H as (-> & _).
    + destruct H as (m4 & perr & Hlogs & Hpub & H).
      pose proof same_config_frame as HF. pose proof (frame_flags_frame _ HF) as HR.
      apply (keeps_fetchBlockByNumber _ HR) in Hfetch as (_ & Hq2 & _).
      apply (keeps_buildCanonicalChain _ HR) in Hbuild as (_ & Hq3 & _).
      assert (Hq4 : publishQueue m4 = publishQueue m3).
      { destruct (WithLogs (options m)).
        - apply bind_Ret in Hlogs as ([] & m3' & Hadd & Hback).
          apply (keeps_addLogs _ HR _ HF) in Hadd as (_ & Ha & _).
          apply (keeps_backfillChainLogs _ HR _ HF) in Hback as (_ & Hb & _).
          congruence.
        - by apply (keeps_clearLogs _ HR HF) in Hlogs as (_ & ? & _). }
      assert (Hfull : queue_full m4 <-> queue_full m).
      { unfold queue_full. by rewrite Hq4, Hq3, Hq2, Hq1. }
      apply publish_error in Hpub.
      destruct perr as [e|]; destruct H as (-> & _).
      * destruct Hpub as (-> & Hf & _). split; [done|]. by apply Hfull.
      * by rewrite <- Hfull.
  - destruct H as (-> & _). by destruct err.
Qed.

Lemma monitor_loop_error (E : Env) (n : nat) (l : locals) (m m' : Monitor) (e : error) :
  monitor_loop E n l m = Ret (Some e) m' -> e = superr_New ErrFatal (Some ErrQueueFull).
Proof.
  revert l m. induction n as [|n IH]; intros l m H; simpl in H; [done|].
  apply bind_Ret in H as ([r l1] & m1 & Hiter & H).
  apply monitor_iteration_exit in Hiter.
  destruct r as [| | | |[e'|]]; try (eapply IH; exact H).
  - injection H as <- <-. by destruct Hiter.
  - discriminate H.
Qed.

Lemma monitor_loop_rounds (E : Env) (k : nat) (l l1 : locals) (m m1 : Monitor) :
  rounds E k l m l1 m1 ->
  forall n, monitor_loop E (k + n) l m = monitor_loop E n l1 m1.
Proof.
  induction 1 as [l m | k l m r l1 m1 l2 m2 Hiter Hr _ IH]; intros n; [done|].
  cbn [Nat.add monitor_loop]. unfold bind at 1. rewrite Hiter.
  destruct r; try apply IH. by destruct (Hr err).
Qed.

Lemma Run_monitor (E : Env) (n : nat) (m0 m m' : Monitor) (err : option error) :
  Run_start E m0 = Ret None m -> monitor E n m = Ret err m' ->
  Run E n m0 = Ret err (set_running false m').
Proof.
  intros Hstart Hmon. unfold Run, bind at 1. rewrite Hstart.
  unfold bind at 1. by rewrite Hmon.
Qed.

(** C5.  When [enqueue] fails, the queue being full where an iteration
    reaches [publish], the iteration returns [ErrFatal] wrapping
    [ErrQueueFull], and so do the loop and [Run], whose [running] flag
    is reset, however many iterations came before.  Conversely an
    iteration of the loop returns an error only when the publish queue
    is full, and the error then wraps [ErrFatal] around [ErrQueueFull];
    with a full queue an iteration never ends the normal way, and
    [publish] fails as soon as it is reached; the loop returns the
    error of the iteration.  So the loop, and [Run] once past its
    start, return no other error: a fetch failure or a chain-build
    failure ends at a [continue]. *)
Theorem queue_full_is_the_only_exit (E : Env) :
  (forall l m r l' m',
     monitor_iteration E l m = Ret (r, l') m' ->
     match r with
     | Return (Some e) => e = superr_New ErrFatal (Some ErrQueueFull) /\ queue_full m
     | Published _ => ~ queue_full m
     | _ => True
     end) /\
  (forall events m x,
     queue_full m -> publish_maxBlockNum m = Ret x m ->
     publish events m = Ret (Some ErrQueueFull) m) /\
  (forall n l m e l' m',
     monitor_iteration E l m = Ret (Return (Some e), l') m' ->
     monitor_loop E (S n) l m = Ret (Some e) m') /\
  (forall n l m e m',
     monitor_loop E n l m = Ret (Some e) m' ->
     e = superr_New ErrFatal (Some ErrQueueFull)) /\
  (forall n m e m',
     Run E n m = Ret (Some e) m' ->
     e = ErrAlreadyRunning \/ e = ErrNotBootstrapped \/
     e = superr_New ErrFatal (Some ErrQueueFull)) /\
  (forall l m evs m4 x,
     reaches_publish E l m evs m4 ->
     queue_full m4 -> publish_maxBlockNum m4 = Ret x m4 ->
     monitor_iteration E l m
     = Ret (Return (Some (superr_New ErrFatal (Some ErrQueueFull))),
            mkLocals evs (pollInterval l ÷ 2)) m4) /\
  (forall k n m0 m l1 m1 evs m4 x,
     Run_start E m0 = Ret None m ->
     rounds E k (mkLocals [] (PollingInterval (options m))) m l1 m1 ->
     reaches_publish E l1 m1 evs m4 ->
     queue_full m4 -> publish_maxBlockNum m4 = Ret x m4 ->
     Run E (k + S n) m0
     = Ret (Some (superr_New ErrFatal (Some ErrQueueFull))) (set_running false m4)).
Proof.
  assert (Hfatal : forall l m evs m4 x,
     reaches_publish E l m evs m4 ->
     queue_full m4 -> publish_maxBlockNum m4 = Ret x m4 ->
     monitor_iteration E l m
     = Ret (Return (Some (superr_New ErrFatal (Some ErrQueueFull))),
            mkLocals evs (pollInterval l ÷ 2)) m4).
  { intros l m evs m4 x Hreach Hfull Hmax.
    by rewrite (monitor_iteration_reaches E l m m4 m4 evs (Some ErrQueueFull) Hreach
                  (publish_queue_full evs m4 x Hfull Hmax)). }
  split; [|split; [|split; [|split; [|split; [|split]]]]].
  - intros. by eapply monitor_iteration_exit.
  - intros. by eapply publish_queue_full.
  - intros n l m e l' m' H. simpl. unfold bind. by rewrite H.
  - intros. by eapply monitor_loop_error.
  - intros n m e m' H. unfold Run in H.
    apply bind_Ret in H as (err & m1 & Hstart & H).
    destruct err as [e0|].
    + assert (e0 = e) as -> by (unfold ret in H; congruence). clear H.
      unfold Run_start in Hstart.
      apply bind_Ret in Hstart as (m0 & m0' & Hget & Hstart). injection Hget as <- <-.
      destruct (running m); [left; unfold ret in Hstart; congruence|].
      apply bind_Ret in Hstart as ([] & m2 & _ & Hstart).
      destruct (_ && _).
      * apply bind_Ret in Hstart as ([] & m3 & _ & Hstart).
        right. left. unfold ret in Hstart. congruence.
      * apply bind_Ret in Hstart as (head & m3 & _ & Hstart).
        apply bind_Ret in Hstart as ([] & m4 & _ & Hstart). done.
    + apply bind_Ret in H as (err & m2 & Hmon & H).
      apply bind_Ret in H as ([] & m3 & _ & H).
      assert (err = Some e) as -> by (unfold ret in H; congruence). clear H.
      unfold monitor in Hmon.
      apply bind_Ret in Hmon as (m0 & m0' & _ & Hmon).
      right. right. by eapply monitor_loop_error.
  - exact Hfatal.
  - intros k n m0 m l1 m1 evs m4 x Hstart Hrounds Hreach Hfull Hmax.
    apply (Run_monitor E _ m0 m); [exact Hstart|].
    unfold monitor, bind at 1, get.
    rewrite (monitor_loop_rounds _ _ _ _ _ _ Hrounds).
    cbn [monitor_loop]. unfold bind at 1.
    by rewrite (Hfatal _ _ _ _ _ Hreach Hfull Hmax).
Qed.

(** The fifth block finds the queue full, and [Run] returns the fatal
    error. *)
Example Run_queue_full :
  exists m',
    Run linear 5 (NewMonitor tiny_queue)
      = Ret (Some (superr_New ErrFatal (Some ErrQueueFull))) m' /\
    batches (publishQueue m') = [[2%nat]; [3%nat]].
Proof. eexists. split; [vm_compute; reflexivity|]. reflexivity. Qed.

(** The run of [Run_queue_full], through the theorem: four iterations
    publish, and the fifth finds the queue full. *)
Lemma queue_full_is_the_only_exit_witness :
  exists m4,
    queue_full m4 /\
    Run linear 5 (NewMonitor tiny_queue)
    = Ret (Some (superr_New ErrFatal (Some ErrQueueFull))) (set_running false m4).
Proof.
  assert (Hstart : exists m, Run_start linear (NewMonitor tiny_queue) = Ret None m)
    by (eexists; vm_compute; reflexivity).
  destruct Hstart as (m & Hstart).
  assert (H : exists l1 m1 evs m4 x,
    rounds linear 4 (mkLocals [] (PollingInterval (options m))) m l1 m1 /\
    reaches_publish linear l1 m1 evs m4 /\
    queue_full m4 /\ publish_maxBlockNum m4 = Ret x m4).
  { vm_compute in Hstart. injection Hstart as <-.
    eexists _, _, _, _, _. split.
    - do 4 (eapply rounds_S; [vm_compute; reflexivity | discriminate |]).
      apply rounds_O.
    - split; [|split].
      + eexists _, _, _. split.
        * split; [reflexivity|]. eexists. split.
          -- eexists. split; [vm_compute; reflexivity | reflexivity].
          -- vm_compute. reflexivity.
        * split; vm_compute; reflexivity.
      + vm_compute. discriminate.
      + vm_compute. reflexivity. }
  destruct H as (l1 & m1 & evs & m4 & x & Hrounds & Hreach & Hfull & Hmax).
  exists m4. split; [exact Hfull|].
  exact (proj2 (proj2 (proj2 (proj2 (proj2 (proj2 (queue_full_is_the_only_exit linear))))))
           4%nat 0%nat _ _ _ _ _ _ _ Hstart Hrounds Hreach Hfull Hmax).
Defined.

(** ** The events sink *)





Lemma publish_heap (events : Blocks) (m m' : Monitor) (err : option error) :
  publish events m = Ret err m' -> heap m' = heap m.
Proof.
  intros H. unfold publish in H.
  apply bind_Ret in H as (maxBlockNum_ & m0 & Hmax & H).
  apply publish_maxBlockNum_state in Hmax as ->.
  apply bind_Ret in H as (e & m1 & Henq & H).
  assert (Hh1 : heap m1 = heap m).
  { unfold queue_ops.enqueue in Henq. cbv zeta in Henq.
    destruct (cap _ <=? _) in Henq; by injection Henq as <- <-. }
  destruct e as [e|]; [injection H as <- <-; done|].
  apply bind_Ret in H as ([pubEvents ok] & m2 & Hdeq & H).
  assert (Hh2 : heap m2 = heap m1).
  { unfold queue_ops.dequeue in Hdeq. cbv zeta in Hdeq.
    destruct (batches _) in Hdeq; [by injection Hdeq as <- <- <-|].
    destruct (maxBlockNum_ =? 0) in Hdeq; [by injection Hdeq as <- <- <-|].
    destruct (queue_ops.leading _ _ _) in Hdeq; by injection Hdeq as <- <- <-. }
  apply bind_Ret in H as ([] & m3 & Hsend & H). injection H as <- <-.
  destruct ok; injection Hsend as <-; simpl; congruence.
Qed.








(** ** The shape of a resolution *)

Lemma linked_snoc (qs : list types.Block) (q q' : types.Block) :
  linked qs -> list.last qs = Some q ->
  types.ParentHash q' = types.Hash q -> types.Number q' = types.Number q + 1 ->
  linked (qs ++ [q']).
Proof.
  induction qs as [|q1 [|q2 qs] IH]; intros Hl Hlast Hp Hn; [done| |].
  - injection Hlast as ->. simpl. done.
  - destruct Hl as (? & ? & ?). rewrite last_cons_cons in Hlast.
    change (linked (q1 :: q2 :: (qs ++ [q']))).
    split; [done|]. split; [done|]. by apply IH.
Qed.

Lemma points_to_prefix (h h' : list Block.t) (ps : Blocks) (bs : list Block.t) :
  h `prefix_of` h' -> Forall2 (points_to h) ps bs -> Forall2 (points_to h') ps bs.
Proof.
  intros Hpre. apply Forall2_impl. intros p b Hp. by eapply prefix_lookup_Some.
Qed.

Lemma alloc_inv (b : Block.t) (m m' : Monitor) (p : ptr) :
  alloc b m = Ret p m' ->
  p = length (heap m) /\ heap m' = heap m ++ [b] /\ chain m' = chain m.
Proof. by intros [= <- <-]. Qed.

Lemma pop_inv (m m' : Monitor) (r : option ptr) :
  chain_ops.pop m = Ret r m' ->
  r = list.last (chain_list m) /\ heap m' = heap m /\
  retentionLimit (chain m') = retentionLimit (chain m) /\
  (forall pp, r = Some pp -> chain_list m = chain_list m' ++ [pp]).
Proof.
  unfold chain_ops.pop. destruct (list.last (chain_list m)) as [pp|] eqn:Hlast.
  - intros [= <- <-]. repeat split. intros ? [= <-].
    apply last_Some in Hlast as (l' & Hl). unfold chain_list at 2. simpl.
    rewrite Hl. by rewrite removelast_last.
  - intros [= <- <-]. by repeat split.
Qed.

(** A successful [push] checked the link to the head it found, and the
    pushed block is the new head when at least one block is retained. *)
Lemma push_inv (p : ptr) (m m' : Monitor) (err : option error) :
  chain_ops.push p m = Ret err m' ->
  heap m' = heap m /\ retentionLimit (chain m') = retentionLimit (chain m) /\
  (err = None ->
   (1 <= retentionLimit (chain m) -> list.last (chain_list m') = Some p) /\
   forall hp, list.last (chain_list m) = Some hp ->
     exists b h, heap m !! p = Some b /\ heap m !! hp = Some h /\
       types.Number (Block.Block b) = types.Number (Block.Block h) + 1 /\
       Block.ParentHash b = Block.Hash h).
Proof.
  unfold chain_ops.push. intros H.
  apply bind_Ret in H as (b & m0 & Hload & H). apply load_inv in Hload as (-> & Hb).
  apply bind_Ret in H as (m0 & m1 & Hget & H). injection Hget as <- <-.
  set (l := chain_list m ++ [p]) in H.
  assert (Happend : forall err : option error,
    (let* _ := modify (set_chain (mkChain
         (Some (if retentionLimit (chain m) <? len l then drop 1 l else l))
         (retentionLimit (chain m)))) in ret None) m = Ret err m' ->
    heap m' = heap m /\ retentionLimit (chain m') = retentionLimit (chain m) /\
    err = None /\ (1 <= retentionLimit (chain m) -> list.last (chain_list m') = Some p)).
  { intros err' [= <- <-]. repeat split. intros Hlim. unfold chain_list at 1. simpl.
    destruct (retentionLimit (chain m) <? len l) eqn:Hlt.
    - unfold l, len in *. destruct (chain_list m) as [|x l0] eqn:Hcl.
      + apply Z.ltb_lt in Hlt. simpl in Hlt. lia.
      + simpl. rewrite drop_0. apply last_snoc.
    - apply last_snoc. }
  destruct (list.last (chain_list m)) as [hp|] eqn:Hlast.
  - apply bind_Ret in H as (h & m0 & Hload & H). apply load_inv in Hload as (-> & Hh).
    destruct (types.Number (Block.Block b) =? types.Number (Block.Block h) + 1) eqn:Hnum;
      simpl in H; [|by injection H as <- <-].
    destruct (Block.ParentHash b =? Block.Hash h) eqn:Hpar;
      simpl in H; [|by injection H as <- <-].
    apply Happend in H as (? & ? & -> & ?). repeat split; try done.
    intros hp' [= <-]. exists b, h. repeat split; try done; lia.
  - apply Happend in H as (? & ? & -> & ?). repeat split; done.
Qed.

(** The fetchers only advance the clock. *)
Lemma fetchBlockByHash_loop_state (E : Env) (fuel : nat) (hash : common.Hash)
    (nf ea : Z) (err : option error) (m m' : Monitor) (r : response types.Block) :
  fetchBlockByHash_loop E fuel hash nf ea err m = Ret r m' ->
  heap m' = heap m /\ chain m' = chain m.
Proof.
  revert nf ea err m. induction fuel as [|fuel IH]; intros nf ea err m H; [done|].
  simpl in H. apply bind_Ret in H as (done & m0 & Hdone & H).
  apply ctx_Done_inv in Hdone as (-> & ->).
  destruct (ctxDone E (clock m)); [by injection H as <- <-|].
  destruct (maxNotFoundAttempts <=? nf); [by injection H as <- <-|].
  destruct (maxErrAttempts <=? ea); [by injection H as <- <-|].
  apply bind_Ret in H as (t & m0 & Htick & H). injection Htick as <- <-.
  destruct (BlockByHash E _ hash) as [block|e]; [by injection H as <- <-|].
  destruct e; apply IH in H as (-> & ->); done.
Qed.

Lemma fetchBlockByHash_state (E : Env) (hash : common.Hash) (m m' : Monitor)
    (r : response types.Block) :
  fetchBlockByHash E hash m = Ret r m' -> heap m' = heap m /\ chain m' = chain m.
Proof. apply fetchBlockByHash_loop_state. Qed.

Lemma lookup_snoc_length {A} (l : list A) (x : A) : (l ++ [x]) !! length l = Some x.
Proof. by rewrite list_lookup_middle. Qed.

Lemma resolved_pop (m m6 m7 m' : Monitor) (events evs ps : Blocks) (olds : list Block.t)
    (rem add : Blocks) (news : list types.Block) (pp : ptr) (pb : Block.t) :
  chain_valid m ->
  chain_list m = chain_list m6 ++ [pp] -> heap m !! pp = Some pb ->
  heap m6 = heap m ++ [removed pb] ->
  heap m6 `prefix_of` heap m7 -> heap m7 `prefix_of` heap m' ->
  resolved m6 m7 (events ++ [length (heap m)]) evs ps olds rem add news ->
  resolved m m' events evs (ps ++ [pp]) (olds ++ [pb]) (length (heap m) :: rem) add news.
Proof.
  intros Hvalid Hchain Hpp Hheap6 Hpre67 Hpre7 ((base & Hbase) & Hps & Hevs & Hrem & Hadd & Hfresh).
  assert (Hpre6 : heap m6 `prefix_of` heap m') by (by etrans).
  unfold resolved. split; [|split; [|split; [|split; [|split]]]].
  - exists base. by rewrite Hchain, Hbase, app_assoc.
  - apply Forall2_app; [|by repeat constructor].
    unfold chain_valid in Hvalid. rewrite Hchain, Hbase in Hvalid.
    apply Forall_app in Hvalid as (Hvalid & _). apply Forall_app in Hvalid as (_ & Hvalid).
    clear -Hps Hvalid Hheap6. induction Hps as [|p o ps olds Hp Hps IH]; [constructor|].
    apply list.Forall_cons in Hvalid as (Hlt & Hvalid). constructor; [|by apply IH].
    unfold points_to in *. by rewrite Hheap6, lookup_app_l in Hp.
  - rewrite Hevs. by rewrite <- app_assoc.
  - rewrite rev_app_distr. simpl. constructor.
    + unfold points_to. eapply prefix_lookup_Some; [|exact Hpre6].
      rewrite Hheap6. apply lookup_snoc_length.
    + eapply points_to_prefix; [exact Hpre7 | exact Hrem].
  - eapply points_to_prefix; [exact Hpre7 | exact Hadd].
  - simpl. constructor; [done|]. eapply list.Forall_impl; [exact Hfresh|].
    intros p Hp. simpl in Hp. rewrite Hheap6, length_app in Hp. lia.
Qed.

Lemma resolved_added (m m7 m' : Monitor) (events evs ps : Blocks) (olds : list Block.t)
    (rem add : Blocks) (news : list types.Block) (nextBlock : types.Block) :
  heap m `prefix_of` heap m7 -> heap m' = heap m7 ++ [added nextBlock] ->
  resolved m m7 events evs ps olds rem add news ->
  resolved m m' events (evs ++ [length (heap m7)]) ps olds rem
    (add ++ [length (heap m7)]) (news ++ [nextBlock]).
Proof.
  intros Hpre Hheap (Hbase & Hps & Hevs & Hrem & Hadd & Hfresh).
  assert (Hpre' : heap m7 `prefix_of` heap m') by (rewrite Hheap; by apply prefix_app_r).
  unfold resolved. split; [done|]. split; [done|]. split; [|split; [|split]].
  - rewrite Hevs. by rewrite <- !app_assoc.
  - eapply points_to_prefix; [exact Hpre' | exact Hrem].
  - rewrite map_app. apply Forall2_app; [eapply points_to_prefix; [exact Hpre' | exact Hadd]|].
    repeat constructor. unfold points_to. rewrite Hheap. apply lookup_snoc_length.
  - rewrite app_assoc. apply Forall_app. split; [done|]. repeat constructor.
    by apply prefix_length.
Qed.

(** A failed [push] of the last Added block leaves the events as they
    are; the heap has one more object. *)
Lemma resolved_heap (m m7 m' : Monitor) (events evs ps : Blocks) (olds : list Block.t)
    (rem add : Blocks) (news : list types.Block) :
  heap m7 `prefix_of` heap m' ->
  resolved m m7 events evs ps olds rem add news ->
  resolved m m' events evs ps olds rem add news.
Proof.
  intros Hpre (Hbase & Hps & Hevs & Hrem & Hadd & Hfresh).
  repeat split; try done; eapply points_to_prefix; first [exact Hpre | eassumption].
Qed.

(** What [buildCanonicalChain] returns: nil at a cancelled context, and
    otherwise the events it was given, then the Removed copies of the
    blocks it popped, newest first, then the Added blocks it made, the
    ancestor first.  On success there is one more Added block than
    there are Removed ones, the last one is [nextBlock], and, when the
    chain retains at least one block, each Added block passed the link
    check of [push] against the one before. *)
Lemma buildCanonicalChain_rec_shape (E : Env) (fuel : nat) (nextBlock : types.Block)
    (events evs : Blocks) (err : option error) (m m' : Monitor) :
  chain_valid m ->
  buildCanonicalChain_rec E fuel nextBlock events m = Ret (evs, err) m' ->
  heap m `prefix_of` heap m' /\
  retentionLimit (chain m') = retentionLimit (chain m) /\
  ((evs = [] /\ err = Some ErrCanceled) \/
   exists ps olds rem add news,
     resolved m m' events evs ps olds rem add news /\
     (err = None ->
      length news = S (length ps) /\ list.last news = Some nextBlock /\
      (1 <= retentionLimit (chain m) ->
       linked news /\ list.last (chain_list m') = list.last add))).
Proof.
  revert nextBlock events evs err m m'.
  induction fuel as [|fuel IH]; intros nextBlock events evs err m m' Hvalid H; [done|].
  simpl in H.
  apply bind_Ret in H as (done & m0 & Hdone & H).
  apply ctx_Done_inv in Hdone as (-> & ->).
  destruct (ctxDone E (clock m)) eqn:Hctx.
  { injection H as <- <- <-. split; [done|]. split; [done|]. by left. }
  apply bind_Ret in H as (headBlock & m1 & Hhead & H). injection Hhead as <- <-.
  apply bind_Ret in H as (chained & m2 & Hchained & H).
  assert (m2 = set_clock (S (clock m)) m) as ->.
  { destruct (list.last _) in Hchained.
    - apply bind_Ret in Hchained as (hb & m1 & Hload & Hc).
      apply load_inv in Hload as (-> & _). by injection Hc as <- <-.
    - by injection Hchained as <- <-. }
  clear Hchained. destruct chained.
  - (* block-chaining it up *)
    apply bind_Ret in H as (block & m3 & Halloc & H).
    apply alloc_inv in Halloc as (-> & Hheap3 & Hchain3). simpl in Hheap3, Hchain3.
    apply bind_Ret in H as (e & m4 & Hpush & H). injection H as <- <- <-.
    apply push_inv in Hpush as (Hheap4 & Hlim4 & Hok).
    rewrite Hheap3 in Hheap4. rewrite Hchain3 in Hlim4.
    split; [rewrite Hheap4; by apply prefix_app_r|]. split; [done|]. right.
    exists [], [], [], [length (heap m)], [nextBlock]. split.
    + split; [exists (chain_list m); by rewrite app_nil_r|].
      split; [constructor|]. split; [done|]. split; [constructor|].
      split; [|by repeat constructor].
      repeat constructor. unfold points_to. rewrite Hheap4. apply lookup_snoc_length.
    + intros ->. split; [done|]. split; [done|]. intros Hlim. split; [done|].
      destruct (Hok eq_refl) as (Hlast & _). apply Hlast. by rewrite Hchain3.
  - (* the previous block is popped *)
    apply bind_Ret in H as (popped & m3 & Hpop & H).
    apply pop_inv in Hpop as (-> & Hheap3 & Hlim3 & Hchain3). simpl in Hheap3, Hlim3.
    change (chain_list (set_clock (S (clock m)) m)) with (chain_list m) in *.
    destruct (list.last (chain_list m)) as [pp|] eqn:Hlast; [|done].
    specialize (Hchain3 pp eq_refl).
    apply bind_Ret in H as (pb & m4 & Hload & H).
    apply load_inv in Hload as (-> & Hpp). rewrite Hheap3 in Hpp.
    apply bind_Ret in H as (poppedBlock & m5 & Halloc & H).
    apply alloc_inv in Halloc as (-> & Hheap5 & Hchain5). rewrite Hheap3 in *.
    apply bind_Ret in H as (fetched & m6 & Hfetch & H).
    apply fetchBlockByHash_state in Hfetch as (Hheap6 & Hchain6).
    rewrite Hheap5 in Hheap6. rewrite Hchain5 in Hchain6.
    assert (Hcl6 : chain_list m6 = chain_list m3) by (unfold chain_list; by rewrite Hchain6).
    assert (Hlim6 : retentionLimit (chain m6) = retentionLimit (chain m)) by congruence.
    rewrite <- Hcl6 in Hchain3.
    assert (Hpop1 : resolved m m6 events (events ++ [length (heap m)])
                      [pp] [pb] [length (heap m)] [] []).
    { split; [exists (chain_list m6); done|]. split; [by repeat constructor|].
      split; [done|]. split; [|split; [constructor | by repeat constructor]].
      repeat constructor. unfold points_to. rewrite Hheap6. apply lookup_snoc_length. }
    assert (Hpre6 : heap m `prefix_of` heap m6) by (rewrite Hheap6; by apply prefix_app_r).
    destruct fetched as [nextParentBlock|e].
    + apply bind_Ret in H as ([evs' err'] & m7 & Hrec & H).
      assert (Hvalid6 : chain_valid m6).
      { unfold chain_valid in *. rewrite Hchain3 in Hvalid.
        apply Forall_app in Hvalid as (Hvalid & _).
        eapply list.Forall_impl; [exact Hvalid|]. intros p Hp. simpl in Hp.
        rewrite Hheap6, length_app. lia. }
      apply IH in Hrec as (Hpre67 & Hlim7 & Hshape); [|done].
      rewrite Hlim6 in Hlim7.
      assert (Hpre7 : heap m `prefix_of` heap m7) by (by etrans).
      destruct Hshape as [(-> & ->) | (ps & olds & rem & add & news & Hres & Hsucc)].
      { injection H as <- <- <-. split; [done|]. split; [done|]. by left. }
      pose proof (resolved_pop m m6 m7 m7 events evs' ps olds rem add news pp pb
                    Hvalid Hchain3 Hpp Hheap6 Hpre67 (reflexivity _) Hres) as Hres7.
      destruct err' as [e|].
      { injection H as <- <- <-. split; [done|]. split; [done|]. right.
        exists (ps ++ [pp]), (olds ++ [pb]), (length (heap m) :: rem), add, news.
        split; [done|]. done. }
      destruct (Hsucc eq_refl) as (Hlen & Hlastn & Hlink).
      apply bind_Ret in H as (block & m8 & Halloc & H).
      apply alloc_inv in Halloc as (-> & Hheap8 & Hchain8).
      apply bind_Ret in H as (e & m9 & Hpush & H).
      apply push_inv in Hpush as (Hheap9 & Hlim9 & Hok).
      rewrite Hheap8 in Hheap9. rewrite Hchain8, Hlim7 in Hlim9.
      assert (Hpre9 : heap m7 `prefix_of` heap m9) by (rewrite Hheap9; by apply prefix_app_r).
      destruct e as [e|]; injection H as <- <- <-;
        (split; [by etrans|]); (split; [done|]); right.
      { exists (ps ++ [pp]), (olds ++ [pb]), (length (heap m) :: rem), add, news.
        split; [by eapply resolved_heap|]. done. }
      exists (ps ++ [pp]), (olds ++ [pb]), (length (heap m) :: rem),
        (add ++ [length (heap m7)]), (news ++ [nextBlock]).
      split; [by apply resolved_added|]. intros _.
      split; [rewrite !length_app; simpl; lia|]. split; [by rewrite last_snoc|].
      intros Hlim. destruct (Hlink ltac:(lia)) as (Hlinked & Hhead7).
      destruct (Hok eq_refl) as (Hnew & Hcheck).
      split; [|rewrite last_snoc; apply Hnew; rewrite Hchain8; lia].
      (* the head [push] checked against is the Added parent *)
      destruct Hres as (_ & _ & _ & _ & Hadd & _).
      assert (Hadd_last : exists ap, list.last add = Some ap /\
                                     heap m7 !! ap = Some (added nextParentBlock)).
      { apply last_Some in Hlastn as (news' & ->). rewrite map_app in Hadd.
        apply Forall2_app_inv_r in Hadd as (add1 & add2 & Hadd1 & Hadd2 & ->).
        inversion Hadd2 as [|ap ? ? ? Hap Hnil]; subst. inversion Hnil; subst.
        exists ap. split; [by rewrite last_snoc | exact Hap]. }
      destruct Hadd_last as (ap & Hap_last & Hap).
      assert (Hhead8 : list.last (chain_list m8) = Some ap).
      { unfold chain_list. rewrite Hchain8. fold (chain_list m7). congruence. }
      destruct (Hcheck _ Hhead8) as (b & h & Hb & Hh & Hnum & Hpar).
      rewrite Hheap8, lookup_snoc_length in Hb. injection Hb as <-.
      rewrite Hheap8 in Hh. erewrite lookup_app_l_Some in Hh by exact Hap.
      injection Hh as <-.
      by eapply linked_snoc.
    + injection H as <- <- <-. split; [done|]. split; [done|]. right.
      exists [pp], [pb], [length (heap m)], [], []. split; [done|]. done.
Qed.

(** ** The batch of a reorg *)

(** C2, as the code has it.  When [buildCanonicalChain] succeeds after
    popping the [k] newest retained blocks [ps], it returns the events
    it was given followed by exactly [k] Removed blocks, the copies of
    the popped blocks from the newest to the oldest, and then by
    [k + 1] Added blocks, which end with [nextBlock] and each of which
    names the one before as its parent: from an empty sink the batch is
    these [2k + 1] events, and after a failed attempt the events that
    the attempt left in the sink come first. *)
Theorem buildCanonicalChain_reorg_batch (E : Env) (nextBlock : types.Block)
    (events evs : Blocks) (m m' : Monitor) :
  chain_valid m -> 1 <= retentionLimit (chain m) ->
  buildCanonicalChain E nextBlock events m = Ret (evs, None) m' ->
  exists (ps : Blocks) (olds : list Block.t) (rem add : Blocks) (news : list types.Block),
    (exists base, chain_list m = base ++ ps) /\
    Forall2 (points_to (heap m)) ps olds /\
    evs = events ++ rem ++ add /\
    (events = [] -> evs = rem ++ add) /\
    length rem = length ps /\ length add = S (length ps) /\
    Forall2 (points_to (heap m')) rem (map removed (rev olds)) /\
    Forall2 (points_to (heap m')) add (map added news) /\
    list.last news = Some nextBlock /\ linked news.
Proof.
  intros Hvalid Hlim H.
  apply buildCanonicalChain_rec_shape in H as (_ & _ & [(_ & ?) | H]); [done | | done].
  destruct H as (ps & olds & rem & add & news & Hres & Hsucc).
  destruct (Hsucc eq_refl) as (Hlen & Hlast & Hlink).
  destruct (Hlink Hlim) as (Hlinked & _).
  destruct Hres as (Hbase & Hps & Hevs & Hrem & Hadd & _).
  exists ps, olds, rem, add, news.
  split; [done|]. split; [done|]. split; [done|].
  split; [by intros ->|].
  pose proof (list.Forall2_length _ _ _ Hps) as Hl1.
  pose proof (list.Forall2_length _ _ _ Hrem) as Hl2.
  pose proof (list.Forall2_length _ _ _ Hadd) as Hl3.
  rewrite length_map, length_rev in Hl2. rewrite length_map in Hl3.
  split; [lia|]. split; [lia|]. done.
Qed.

Lemma two_blocks_reached :
  iterate forked 2 (mkLocals [] 1000) (NewMonitor with_logs)
  = Ret (mkLocals [] 250) two_blocks.
Proof. vm_compute. reflexivity. Qed.

Lemma two_blocks_valid : chain_valid two_blocks.
Proof. vm_compute. repeat constructor. Defined.

(** The reorg of depth 1: Removed 2, Added 2', Added 3. *)
Lemma buildCanonicalChain_reorg_batch_witness :
  exists evs m',
    buildCanonicalChain forked (blk 3 203 202) [] two_blocks = Ret (evs, None) m' /\
    evs = [2; 3; 4]%nat /\
    heap m' !! 2%nat = Some (Block.mk (blk 2 102 101) Removed [102] true) /\
    heap m' !! 3%nat = Some (added (blk 2 202 101)) /\
    heap m' !! 4%nat = Some (added (blk 3 203 202)) /\
    exists ps rem add : Blocks, evs = rem ++ add /\ length rem = length ps /\
                       length add = S (length ps).
Proof.
  assert (H : exists evs m',
             buildCanonicalChain forked (blk 3 203 202) [] two_blocks = Ret (evs, None) m' /\
             evs = [2; 3; 4]%nat /\
             heap m' !! 2%nat = Some (Block.mk (blk 2 102 101) Removed [102] true) /\
             heap m' !! 3%nat = Some (added (blk 2 202 101)) /\
             heap m' !! 4%nat = Some (added (blk 3 203 202))).
  { eexists _, _. split; [vm_compute; reflexivity|]. repeat split. }
  destruct H as (evs & m' & Hbuild & Hevs & H2 & H3 & H4).
  exists evs, m'. do 5 (split; [assumption|]).
  assert (Hlim : 1 <= retentionLimit (chain two_blocks)) by (vm_compute; discriminate).
  destruct (buildCanonicalChain_reorg_batch forked _ _ _ _ _ two_blocks_valid Hlim Hbuild)
    as (ps & olds & rem & add & news & _ & _ & _ & Hbatch & Hrem & Hadd & _).
  exists ps, rem, add. split; [by apply Hbatch|]. split; assumption.
Defined.

(** Against C2 as the specification has it: the monitor retains the
    blocks 1, 2 and 3 when the provider [reorged] replaces its blocks 2
    and 3.  The attempt on the new block 4 pops block 3 and fails, the
    parent not being found by hash; the Removed event stays in the
    sink.  The attempt that follows, on the new block 3, pops block 2
    and succeeds.  The batch published for this reorg of depth 2 is
    Removed 3, Removed 2, Added 2', Added 3': two Removed blocks
    followed by two Added blocks, not three. *)
Lemma reorg_batch_after_failed_attempt :
  exists l0 m0 l1 m1 l2 m2 B,
    iterate reorged 3 (mkLocals [] 1000) (NewMonitor DefaultOptions) = Ret l0 m0 /\
    events l0 = [] /\
    map (fun p => Block.Hash <$> heap m0 !! p) (chain_list m0)
    = [Some 101; Some 102; Some 103] /\
    monitor_iteration reorged l0 m0 = Ret (ContinueBuildFailed NotFound, l1) m1 /\
    monitor_iteration reorged l1 m1 = Ret (Published B, l2) m2 /\
    map (fun p => heap m2 !! p) B
    = [Some (Block.mk (blk 3 103 102) Removed [] true);
       Some (Block.mk (blk 2 102 101) Removed [] true);
       Some (Block.mk (blk 2 202 101) Added [] true);
       Some (Block.mk (blk 3 203 202) Added [] true)] /\
    map (fun p => Block.Hash <$> heap m2 !! p) (chain_list m2)
    = [Some 101; Some 202; Some 203] /\
    list.last (publishCh m2) = Some B.
Proof.
  eexists _, _, _, _, _, _, _. split; [vm_compute; reflexivity|].
  split; [reflexivity|]. split; [reflexivity|].
  split; [vm_compute; reflexivity|]. split; [vm_compute; reflexivity|].
  repeat split.
Qed.

(** ** Removed blocks *)

Lemma fetchBlockByNumber_loop_state (E : Env) (fuel : nat) (num : option Z)
    (ea : Z) (err : option error) (m m' : Monitor) (r : response types.Block) :
  fetchBlockByNumber_loop E fuel num ea err m = Ret r m' ->
  heap m' = heap m /\ chain m' = chain m.
Proof.
  revert ea err m. induction fuel as [|fuel IH]; intros ea err m H; [done|].
  simpl in H. apply bind_Ret in H as (done & m0 & Hdone & H).
  apply ctx_Done_inv in Hdone as (-> & ->).
  destruct (ctxDone E (clock m)); [by injection H as <- <-|].
  destruct (maxErrAttempts <=? ea); [by injection H as <- <-|].
  apply bind_Ret in H as (t & m0 & Htick & H). injection Htick as <- <-.
  destruct (BlockByNumber E _ num) as [block|e]; [by injection H as <- <-|].
  destruct e; try (apply IH in H as (-> & ->); done). by injection H as <- <-.
Qed.

Lemma ok_stable_refl (m m' : Monitor) : heap m' = heap m -> ok_stable m m'.
Proof. intros Hh p b Hb _. by rewrite Hh. Qed.

Lemma ok_stable_trans (m1 m2 m3 : Monitor) :
  ok_stable m1 m2 -> ok_stable m2 m3 -> ok_stable m1 m3.
Proof. intros H12 H23 p b Hb Hok. apply H23; [|done]. by apply H12. Qed.

Lemma update_ok_stable (p0 : ptr) (b0 : Block.t) (f : Block.t -> Block.t)
    (m m' : Monitor) :
  heap m !! p0 = Some b0 -> Block.OK b0 = false ->
  update p0 f m = Ret tt m' -> ok_stable m m'.
Proof.
  intros Hb0 Hok0 H. unfold update in H. rewrite Hb0 in H. injection H as <-.
  intros p b Hb Hok. simpl. destruct (decide (p = p0)) as [->|Hne].
  - rewrite Hb0 in Hb. injection Hb as ->. congruence.
  - by rewrite list_lookup_insert_ne.
Qed.

(** [addLogs] skips the blocks whose [OK] flag is set. *)
Lemma addLogs_ok_stable (E : Env) (blocks : Blocks) (m m' : Monitor) :
  addLogs E blocks m = Ret tt m' -> ok_stable m m'.
Proof.
  revert m. induction blocks as [|block rest IH]; intros m H; simpl in H.
  { injection H as <-. by apply ok_stable_refl. }
  apply bind_Ret in H as (done & m0 & Hdone & H).
  apply ctx_Done_inv in Hdone as (-> & ->).
  destruct (ctxDone E (clock m)); [injection H as <-; by apply ok_stable_refl|].
  apply bind_Ret in H as (b & m0 & Hload & H).
  apply load_inv in Hload as (-> & Hb). simpl in Hb.
  destruct (Block.OK b) eqn:Hok.
  { apply IH in H. eapply ok_stable_trans; [|exact H]. by apply ok_stable_refl. }
  assert (Hupd : forall (f : Block.t -> Block.t) (m1 : Monitor),
             heap m1 = heap m ->
             (let* _ := update block f in addLogs E rest) m1 = Ret tt m' ->
             ok_stable m m').
  { intros f m1 Hh1 Hrun.
    apply bind_Ret in Hrun as ([] & m3 & Hu & Hrun).
    eapply ok_stable_trans; [by apply (ok_stable_refl m m1)|].
    eapply ok_stable_trans; [|by apply IH].
    eapply update_ok_stable; [|exact Hok|exact Hu]. by rewrite Hh1. }
  destruct (Block.Event b).
  - apply bind_Ret in H as (m1 & m1' & Hget & H). injection Hget as <- <-.
    apply bind_Ret in H as (t & m2 & Htick & H). injection Htick as <- <-.
    destruct (FilterLogs E _ _ _) as [logs|e].
    + destruct (_ || _); (eapply Hupd; [|exact H]; reflexivity).
    + eapply Hupd; [|exact H]; reflexivity.
  - eapply Hupd; [|exact H]; reflexivity.
Qed.

Lemma backfill_loop_ok_stable (E : Env) (blocks : Blocks) (m m' : Monitor) :
  backfill_loop E blocks m = Ret tt m' -> ok_stable m m'.
Proof.
  revert m. induction blocks as [|p rest IH]; intros m H; cbn [backfill_loop] in H.
  { injection H as <-. by apply ok_stable_refl. }
  apply bind_Ret in H as (done & m0 & Hdone & H).
  apply ctx_Done_inv in Hdone as (-> & ->).
  destruct (ctxDone E (clock m)); [injection H as <-; by apply ok_stable_refl|].
  apply bind_Ret in H as (b & m0 & Hload & H).
  apply load_inv in Hload as (-> & Hb).
  apply bind_Ret in H as ([] & m1 & Hadd & H).
  eapply ok_stable_trans; [by apply (ok_stable_refl m (set_clock (S (clock m)) m))|].
  eapply ok_stable_trans; [|by apply IH].
  destruct (negb (Block.OK b)).
  - by eapply addLogs_ok_stable.
  - injection Hadd as <-. by apply ok_stable_refl.
Qed.


Lemma clearLogs_keeps_cleared (events : Blocks) (m m' : Monitor) :
  clearLogs events m = Ret tt m' ->
  forall p b, heap m !! p = Some b -> cleared b ->
    exists b', heap m' !! p = Some b' /\ cleared b'.
Proof.
  revert m. induction events as [|p0 rest IH]; intros m H p b Hb Hc; simpl in H.
  { injection H as <-. by exists b. }
  apply bind_Ret in H as ([] & m1 & Hu & H).
  unfold update in Hu. destruct (heap m !! p0) as [b0|] eqn:Hb0; [|done].
  injection Hu as <-. destruct (decide (p = p0)) as [->|Hne].
  - eapply (IH _ H p0 (Block.set_OK true (Block.set_Logs [] b0))); [|done].
    simpl. by rewrite list_lookup_insert_eq by (by eapply lookup_lt_Some).
  - eapply (IH _ H p b); [|done].
    simpl. by rewrite list_lookup_insert_ne.
Qed.

Lemma clearLogs_cleared (events : Blocks) (m m' : Monitor) :
  clearLogs events m = Ret tt m' ->
  forall p b, p ∈ events -> heap m' !! p = Some b -> cleared b.
Proof.
  revert m. induction events as [|p0 rest IH]; intros m H p b Hin Hb; simpl in H.
  { by apply elem_of_nil in Hin. }
  apply bind_Ret in H as ([] & m1 & Hu & H).
  apply elem_of_cons in Hin as [->|Hin]; [|by eapply IH].
  unfold update in Hu. destruct (heap m !! p0) as [b0|] eqn:Hb0; [|done].
  injection Hu as <-.
  destruct (clearLogs_keeps_cleared _ _ _ H p0
              (Block.set_OK true (Block.set_Logs [] b0))) as (b' & Hb' & Hc).
  - simpl. by rewrite list_lookup_insert_eq by (by eapply lookup_lt_Some).
  - done.
  - congruence.
Qed.

Lemma points_to_map_elem {A} (h : list Block.t) (f : A -> Block.t) (ps : list nat)
    (xs : list A) (p : nat) :
  Forall2 (points_to h) ps (map f xs) -> p ∈ ps ->
  exists x, x ∈ xs /\ h !! p = Some (f x).
Proof.
  revert ps. induction xs as [|x xs IH]; intros ps H Hin; simpl in H;
    inversion H as [|p0 ? ps0 ? Hp0 Hrest]; subst.
  - by apply elem_of_nil in Hin.
  - apply elem_of_cons in Hin as [->|Hin].
    + exists x. split; [apply list_elem_of_here | exact Hp0].
    + destruct (IH _ Hrest Hin) as (y & Hy & Hpy). exists y.
      split; [by apply list_elem_of_further | exact Hpy].
Qed.


Lemma fetchBlockByNumber_state (E : Env) (num : option Z) (m m' : Monitor)
    (r : response types.Block) :
  fetchBlockByNumber E num m = Ret r m' -> heap m' = heap m /\ chain m' = chain m.
Proof. unfold fetchBlockByNumber. apply fetchBlockByNumber_loop_state. Qed.

Lemma buildCanonicalChain_shape (E : Env) (nextBlock : types.Block)
    (events evs : list nat) (err : option error) (m m' : Monitor) :
  chain_valid m ->
  buildCanonicalChain E nextBlock events m = Ret (evs, err) m' ->
  heap m `prefix_of` heap m' /\
  retentionLimit (chain m') = retentionLimit (chain m) /\
  ((evs = [] /\ err = Some ErrCanceled) \/
   exists ps olds rem add news,
     resolved m m' events evs ps olds rem add news /\
     (err = None ->
      length news = S (length ps) /\ list.last news = Some nextBlock /\
      (1 <= retentionLimit (chain m) ->
       linked news /\ list.last (chain_list m') = list.last add))).
Proof. unfold buildCanonicalChain. apply buildCanonicalChain_rec_shape. Qed.




(** ** The fuel is enough *)

Lemma bind_returns {A B} (c : St A) (k : A -> St B) (m : Monitor) :
  c m <> OutOfFuel -> (forall a m', c m = Ret a m' -> k a m' <> OutOfFuel) ->
  bind c k m <> OutOfFuel.
Proof.
  intros Hc Hk. unfold bind. destruct (c m) as [a m'| |] eqn:Hcm; [|done..].
  by apply Hk.
Qed.

Lemma total_bind {A B} (c : St A) (k : A -> St B) :
  total c -> (forall a, total (k a)) -> total (bind c k).
Proof. intros Hc Hk m. apply bind_returns; [apply Hc|]. intros a m' _. apply Hk. Qed.

Lemma total_ret {A} (a : A) : total (ret a).
Proof. by intros m. Qed.

Lemma total_throw {A} (p : panic) : total (@throw A p).
Proof. by intros m. Qed.

Lemma total_get : total get.
Proof. by intros m. Qed.

Lemma total_modify (f : Monitor -> Monitor) : total (modify f).
Proof. by intros m. Qed.

Lemma total_load (p : nat) : total (load p).
Proof. intros m. unfold load. by destruct (heap m !! p). Qed.

Lemma total_update (p : nat) (f : Block.t -> Block.t) : total (update p f).
Proof. intros m. unfold update. by destruct (heap m !! p). Qed.

Lemma total_alloc (b : Block.t) : total (alloc b).
Proof. by intros m. Qed.

Lemma total_tick : total tick.
Proof. by intros m. Qed.

Lemma total_Head : total chain_ops.Head.
Proof. by intros m. Qed.

Lemma total_Blocks : total chain_ops.Blocks_.
Proof. by intros m. Qed.

Lemma total_pop : total chain_ops.pop.
Proof. intros m. unfold chain_ops.pop. by destruct (list.last _). Qed.

Lemma total_enqueue (events : list nat) : total (queue_ops.enqueue events).
Proof. intros m. unfold queue_ops.enqueue. cbv zeta. by destruct (_ <=? _). Qed.

Lemma total_dequeue (maxBlockNum : Z) : total (queue_ops.dequeue maxBlockNum).
Proof.
  intros m. unfold queue_ops.dequeue. cbv zeta.
  destruct (batches _); [done|]. destruct (_ =? _); [done|].
  by destruct (queue_ops.leading _ _ _).
Qed.

Create HintDb total discriminated.
#[export] Hint Resolve total_ret total_throw total_get total_modify total_load
  total_update total_alloc total_tick total_Head total_Blocks total_pop
  total_enqueue total_dequeue : total.

Ltac total_step :=
  lazymatch goal with
  | |- total (bind _ _) => apply total_bind; [|intros ?]
  | |- total (match ?x with _ => _ end) => destruct x
  | |- total (let _ := _ in _) => cbv zeta
  | |- total _ => first [ eassumption | solve [eauto with total] ]
  end.
Ltac total_auto := repeat total_step.

Lemma total_ctx_Done (E : Env) : total (ctx_Done E).
Proof. unfold ctx_Done. total_auto. Qed.

Lemma total_push (p : nat) : total (chain_ops.push p).
Proof. unfold chain_ops.push. total_auto. Qed.

Lemma total_publish (events : list nat) : total (publish events).
Proof. unfold publish, publish_maxBlockNum, LatestBlock. total_auto. Qed.

#[export] Hint Resolve total_ctx_Done total_push total_publish : total.

Lemma total_addLogs (E : Env) (blocks : list nat) : total (addLogs E blocks).
Proof. induction blocks as [|block rest IH]; simpl; total_auto. Qed.

Lemma total_backfillChainLogs (E : Env) : total (backfillChainLogs E).
Proof.
  unfold backfillChainLogs. apply total_bind; [apply total_Blocks|]. intros blocks.
  induction (rev blocks) as [|p rest IH]; cbn [backfill_loop]; total_auto.
  apply total_addLogs.
Qed.

Lemma total_clearLogs (events : list nat) : total (clearLogs events).
Proof. induction events as [|b rest IH]; simpl; total_auto. Qed.

(** Ten failed attempts at most: eleven iterations are enough. *)
Lemma total_fetchBlockByNumber_loop (E : Env) (fuel : nat) (num : option Z)
    (errAttempts : Z) (err : option error) :
  (Z.to_nat (maxErrAttempts - errAttempts) < fuel)%nat ->
  total (fetchBlockByNumber_loop E fuel num errAttempts err).
Proof.
  revert errAttempts err. induction fuel as [|fuel IH]; intros ea err Hfuel; [lia|].
  simpl. apply total_bind; [apply total_ctx_Done|]. intros [|]; [apply total_ret|].
  destruct (maxErrAttempts <=? ea) eqn:Hmax; [apply total_ret|].
  apply total_bind; [apply total_tick|]. intros t.
  assert (Hnext : forall e, total (fetchBlockByNumber_loop E fuel num (ea + 1) e)).
  { intros e. apply IH. unfold maxErrAttempts in *. lia. }
  destruct (BlockByNumber E t num) as [block|e]; [apply total_ret|].
  destruct e; first [apply total_ret | apply Hnext].
Qed.

Lemma total_fetchBlockByNumber (E : Env) (num : option Z) :
  total (fetchBlockByNumber E num).
Proof. apply total_fetchBlockByNumber_loop. vm_compute. lia. Qed.

(** Three answers [NotFound] and nine other failures at most before a
    counter reaches its bound: fourteen iterations are enough. *)
Lemma total_fetchBlockByHash_loop (E : Env) (fuel : nat) (hash : common.Hash)
    (notFoundAttempts errAttempts : Z) (err : option error) :
  (1 <= fuel)%nat ->
  (Z.to_nat (maxNotFoundAttempts - notFoundAttempts)
   + Z.to_nat (maxErrAttempts - errAttempts) <= fuel)%nat ->
  total (fetchBlockByHash_loop E fuel hash notFoundAttempts errAttempts err).
Proof.
  revert notFoundAttempts errAttempts err.
  induction fuel as [|fuel IH]; intros nf ea err Hone Hfuel; [lia|].
  simpl. apply total_bind; [apply total_ctx_Done|]. intros [|]; [apply total_ret|].
  destruct (maxNotFoundAttempts <=? nf) eqn:Hnf; [apply total_ret|].
  destruct (maxErrAttempts <=? ea) eqn:Hea; [apply total_ret|].
  apply total_bind; [apply total_tick|]. intros t.
  assert (Hnf' : forall e, total (fetchBlockByHash_loop E fuel hash (nf + 1) ea e)).
  { intros e. unfold maxNotFoundAttempts, maxErrAttempts in *. apply IH; lia. }
  assert (Hea' : forall e, total (fetchBlockByHash_loop E fuel hash nf (ea + 1) e)).
  { intros e. unfold maxNotFoundAttempts, maxErrAttempts in *. apply IH; lia. }
  destruct (BlockByHash E t hash) as [block|e]; [apply total_ret|].
  destruct e; first [apply Hnf' | apply Hea'].
Qed.

Lemma total_fetchBlockByHash (E : Env) (hash : common.Hash) :
  total (fetchBlockByHash E hash).
Proof. apply total_fetchBlockByHash_loop; vm_compute; lia. Qed.

(** Every recursive call of [buildCanonicalChain] follows a pop: one
    level more than there are retained blocks is enough. *)
Lemma buildCanonicalChain_rec_returns (E : Env) (fuel : nat) (nextBlock : types.Block)
    (events : list nat) (m : Monitor) :
  (length (chain_list m) < fuel)%nat ->
  buildCanonicalChain_rec E fuel nextBlock events m <> OutOfFuel.
Proof.
  revert nextBlock events m.
  induction fuel as [|fuel IH]; intros nextBlock events m Hfuel; [lia|].
  simpl. apply bind_returns; [apply total_ctx_Done|]. intros done m0 Hdone.
  apply ctx_Done_inv in Hdone as (-> & ->).
  destruct (ctxDone E (clock m)); [done|].
  apply bind_returns; [apply total_Head|]. intros headBlock m1 Hhead.
  injection Hhead as <- <-.
  apply bind_returns.
  { destruct (list.last _); [|done]. apply total_bind; [apply total_load|]. by intros. }
  intros chained m2 Hchained.
  assert (m2 = set_clock (S (clock m)) m) as ->.
  { destruct (list.last _) in Hchained.
    - apply bind_Ret in Hchained as (hb & m1 & Hload & Hc).
      apply load_inv in Hload as (-> & _). by injection Hc as <- <-.
    - by injection Hchained as <- <-. }
  destruct chained.
  - apply total_bind; [apply total_alloc|]. intros block.
    apply total_bind; [apply total_push|]. intros e. apply total_ret.
  - apply bind_returns; [apply total_pop|]. intros popped m3 Hpop.
    apply pop_inv in Hpop as (-> & _ & _ & Hchain3).
    change (chain_list (set_clock (S (clock m)) m)) with (chain_list m) in *.
    destruct (list.last (chain_list m)) as [pp|]; [|done].
    specialize (Hchain3 pp eq_refl).
    apply bind_returns; [apply total_load|]. intros pb m4 Hload.
    apply load_inv in Hload as (-> & _).
    apply bind_returns; [apply total_alloc|]. intros poppedBlock m5 Halloc.
    apply alloc_inv in Halloc as (_ & _ & Hchain5).
    apply bind_returns; [apply total_fetchBlockByHash|]. intros fetched m6 Hfetch.
    apply fetchBlockByHash_state in Hfetch as (_ & Hchain6).
    destruct fetched as [nextParentBlock|e]; [|done].
    apply bind_returns.
    + apply IH. unfold chain_list at 1. rewrite Hchain6, Hchain5. fold (chain_list m3).
      rewrite Hchain3, length_app in Hfuel. simpl in Hfuel. lia.
    + intros [evs err] m7 _. destruct err; [done|].
      apply total_bind; [apply total_alloc|]. intros block.
      apply total_bind; [apply total_push|]. intros e. by destruct e.
Qed.

Lemma total_buildCanonicalChain (E : Env) (nextBlock : types.Block) (events : list nat) :
  total (buildCanonicalChain E nextBlock events).
Proof. intros m. apply buildCanonicalChain_rec_returns. lia. Qed.

(** An iteration of the monitor loop returns or panics. *)
Lemma total_monitor_iteration (E : Env) (l : locals) : total (monitor_iteration E l).
Proof.
  unfold monitor_iteration.
  apply total_bind; [apply total_ctx_Done|]. intros [|]; [apply total_ret|].
  apply total_bind; [apply total_Head|]. intros headBlock.
  apply total_bind; [destruct headBlock; total_auto|]. intros _.
  apply total_bind; [apply total_get|]. intros m.
  apply total_bind; [apply total_fetchBlockByNumber|]. intros [nextBlock|err].
  - apply total_bind; [apply total_buildCanonicalChain|]. intros [evs [e|]];
      [apply total_ret|].
    apply total_bind.
    { destruct (WithLogs (options m)); [|apply total_clearLogs].
      apply total_bind; [apply total_addLogs|]. intros _. apply total_backfillChainLogs. }
    intros _. apply total_bind; [apply total_publish|]. intros [e|]; apply total_ret.
  - destruct err; apply total_ret.
Qed.

(** ** The invariant of the loop *)

Lemma push_chain (p : nat) (m m' : Monitor) (err : option error) :
  chain_ops.push p m = Ret err m' ->
  forall q, q ∈ chain_list m' -> q ∈ chain_list m \/ q = p.
Proof.
  unfold chain_ops.push. intros H.
  apply bind_Ret in H as (b & m0 & Hload & H). apply load_inv in Hload as (-> & Hb).
  apply bind_Ret in H as (m0 & m1 & Hget & H). injection Hget as <- <-.
  set (l := chain_list m ++ [p]) in H.
  assert (Hl : forall q, q ∈ (if retentionLimit (chain m) <? len l then drop 1 l else l) ->
                         q ∈ chain_list m \/ q = p).
  { intros q Hq. assert (Hql : q ∈ l).
    { destruct (_ <? _); [|done]. by eapply subseteq_drop. }
    apply elem_of_app in Hql as [?|Hqp]; [by left|]. right.
    by apply list_elem_of_singleton in Hqp. }
  assert (Happend : forall err : option error,
    (let* _ := modify (set_chain (mkChain
         (Some (if retentionLimit (chain m) <? len l then drop 1 l else l))
         (retentionLimit (chain m)))) in ret None) m = Ret err m' ->
    forall q, q ∈ chain_list m' -> q ∈ chain_list m \/ q = p).
  { intros err' [= <- <-] q Hq. by apply Hl. }
  destruct (list.last (chain_list m)) as [hp|] eqn:Hlast; [|by eapply Happend].
  apply bind_Ret in H as (h & m0 & Hload & H). apply load_inv in Hload as (-> & Hh).
  destruct (negb _); [injection H as <- <-; by left|].
  destruct (negb _); [injection H as <- <-; by left|].
  by eapply Happend.
Qed.

Lemma chain_valid_push (b : Block.t) (m m1 m2 : Monitor) (p : nat) (err : option error) :
  chain_valid m -> alloc b m = Ret p m1 -> chain_ops.push p m1 = Ret err m2 ->
  chain_valid m2.
Proof.
  intros Hvalid Halloc Hpush.
  apply alloc_inv in Halloc as (-> & Hheap1 & Hchain1).
  pose proof (push_chain _ _ _ _ Hpush) as Hsub.
  apply push_inv in Hpush as (Hheap2 & _).
  unfold chain_valid in *. rewrite list.Forall_forall in Hvalid.
  apply list.Forall_forall. intros q Hq.
  rewrite Hheap2, Hheap1, length_app. simpl.
  destruct (Hsub q Hq) as [Hin| ->]; [|lia].
  unfold chain_list in Hin. rewrite Hchain1 in Hin. apply Hvalid in Hin. lia.
Qed.

Lemma buildCanonicalChain_rec_valid (E : Env) (fuel : nat) (nextBlock : types.Block)
    (events evs : list nat) (err : option error) (m m' : Monitor) :
  chain_valid m ->
  buildCanonicalChain_rec E fuel nextBlock events m = Ret (evs, err) m' ->
  chain_valid m'.
Proof.
  revert nextBlock events evs err m m'.
  induction fuel as [|fuel IH]; intros nextBlock events evs err m m' Hvalid H; [done|].
  simpl in H.
  apply bind_Ret in H as (done & m0 & Hdone & H).
  apply ctx_Done_inv in Hdone as (-> & ->).
  destruct (ctxDone E (clock m)) eqn:Hctx; [injection H as <- <- <-; exact Hvalid|].
  apply bind_Ret in H as (headBlock & m1 & Hhead & H). injection Hhead as <- <-.
  apply bind_Ret in H as (chained & m2 & Hchained & H).
  assert (m2 = set_clock (S (clock m)) m) as ->.
  { destruct (list.last _) in Hchained.
    - apply bind_Ret in Hchained as (hb & m1 & Hload & Hc).
      apply load_inv in Hload as (-> & _). by injection Hc as <- <-.
    - by injection Hchained as <- <-. }
  clear Hchained.
  assert (Hvalid0 : chain_valid (set_clock (S (clock m)) m)) by done.
  destruct chained.
  - apply bind_Ret in H as (block & m3 & Halloc & H).
    apply bind_Ret in H as (e & m4 & Hpush & H). injection H as <- <- <-.
    eapply chain_valid_push; [exact Hvalid0 | exact Halloc | exact Hpush].
  - apply bind_Ret in H as (popped & m3 & Hpop & H).
    apply pop_inv in Hpop as (-> & Hheap3 & _ & Hchain3). simpl in Hheap3.
    change (chain_list (set_clock (S (clock m)) m)) with (chain_list m) in *.
    destruct (list.last (chain_list m)) as [pp|] eqn:Hlast; [|done].
    specialize (Hchain3 pp eq_refl).
    apply bind_Ret in H as (pb & m4 & Hload & H). apply load_inv in Hload as (-> & _).
    apply bind_Ret in H as (poppedBlock & m5 & Halloc & H).
    apply alloc_inv in Halloc as (-> & Hheap5 & Hchain5).
    apply bind_Ret in H as (fetched & m6 & Hfetch & H).
    apply fetchBlockByHash_state in Hfetch as (Hheap6 & Hchain6).
    assert (Hvalid6 : chain_valid m6).
    { unfold chain_valid in *. rewrite Hchain3 in Hvalid.
      apply Forall_app in Hvalid as (Hvalid & _).
      unfold chain_list at 1. rewrite Hchain6, Hchain5. fold (chain_list m3).
      eapply list.Forall_impl; [exact Hvalid|]. intros p Hp. simpl in Hp.
      rewrite Hheap6, Hheap5, Hheap3, length_app. lia. }
    destruct fetched as [nextParentBlock|e]; [|injection H as <- <- <-; assumption].
    apply bind_Ret in H as ([evs' err'] & m7 & Hrec & H).
    apply IH in Hrec; [|done].
    destruct err' as [e|]; [injection H as <- <- <-; assumption|].
    apply bind_Ret in H as (block & m8 & Halloc & H).
    apply bind_Ret in H as (e & m9 & Hpush & H).
    assert (chain_valid m9) by (eapply chain_valid_push; [exact Hrec | exact Halloc | exact Hpush]).
    destruct e; injection H as <- <- <-; assumption.
Qed.

(** The log phase writes flags only. *)
Lemma update_chain (p : nat) (f : Block.t -> Block.t) (m m' : Monitor) :
  update p f m = Ret tt m' ->
  chain m' = chain m /\ length (heap m') = length (heap m).
Proof.
  unfold update. destruct (heap m !! p); [|done]. intros [= <-]. simpl.
  by rewrite length_insert.
Qed.

Lemma addLogs_chain (E : Env) (blocks : list nat) (m m' : Monitor) :
  addLogs E blocks m = Ret tt m' ->
  chain m' = chain m /\ length (heap m') = length (heap m).
Proof.
  revert m. induction blocks as [|block rest IH]; intros m H; simpl in H.
  { by injection H as <-. }
  apply bind_Ret in H as (done & m0 & Hdone & H).
  apply ctx_Done_inv in Hdone as (-> & ->).
  destruct (ctxDone E (clock m)); [by injection H as <-|].
  apply bind_Ret in H as (b & m0 & Hload & H). apply load_inv in Hload as (-> & _).
  destruct (Block.OK b); [by apply IH in H|].
  assert (Hupd : forall (f : Block.t -> Block.t) (m1 : Monitor),
             chain m1 = chain m -> length (heap m1) = length (heap m) ->
             (let* _ := update block f in addLogs E rest) m1 = Ret tt m' ->
             chain m' = chain m /\ length (heap m') = length (heap m)).
  { intros f m1 Hc1 Hl1 Hrun.
    apply bind_Ret in Hrun as ([] & m3 & Hu & Hrun).
    apply update_chain in Hu as (Hc3 & Hl3). apply IH in Hrun as (Hc & Hl).
    split; congruence. }
  destruct (Block.Event b).
  - apply bind_Ret in H as (m1 & m1' & Hget & H). injection Hget as <- <-.
    apply bind_Ret in H as (t & m2 & Htick & H). injection Htick as <- <-.
    destruct (FilterLogs E _ _ _) as [logs|e].
    + destruct (_ || _); (eapply Hupd; [| |exact H]; reflexivity).
    + eapply Hupd; [| |exact H]; reflexivity.
  - eapply Hupd; [| |exact H]; reflexivity.
Qed.

Lemma backfill_loop_chain (E : Env) (blocks : list nat) (m m' : Monitor) :
  backfill_loop E blocks m = Ret tt m' ->
  chain m' = chain m /\ length (heap m') = length (heap m).
Proof.
  revert m. induction blocks as [|p rest IH]; intros m H; cbn [backfill_loop] in H.
  { by injection H as <-. }
  apply bind_Ret in H as (done & m0 & Hdone & H).
  apply ctx_Done_inv in Hdone as (-> & ->).
  destruct (ctxDone E (clock m)); [by injection H as <-|].
  apply bind_Ret in H as (b & m0 & Hload & H). apply load_inv in Hload as (-> & _).
  apply bind_Ret in H as ([] & m1 & Hadd & H).
  apply IH in H as (Hc & Hl).
  destruct (negb (Block.OK b)).
  - apply addLogs_chain in Hadd as (Hc1 & Hl1). simpl in Hc1, Hl1. split; congruence.
  - injection Hadd as <-. done.
Qed.

Lemma backfillChainLogs_chain (E : Env) (m m' : Monitor) :
  backfillChainLogs E m = Ret tt m' ->
  chain m' = chain m /\ length (heap m') = length (heap m).
Proof.
  intros H. apply bind_Ret in H as (blocks & m0 & Hb & H). injection Hb as <- <-.
  by eapply backfill_loop_chain.
Qed.

Lemma clearLogs_chain (events : list nat) (m m' : Monitor) :
  clearLogs events m = Ret tt m' ->
  chain m' = chain m /\ length (heap m') = length (heap m).
Proof.
  revert m. induction events as [|p rest IH]; intros m H; simpl in H.
  { by injection H as <-. }
  apply bind_Ret in H as ([] & m1 & Hu & H).
  apply update_chain in Hu as (Hc1 & Hl1). apply IH in H as (Hc & Hl).
  split; congruence.
Qed.

Lemma publish_chain (events : list nat) (m m' : Monitor) (err : option error) :
  publish events m = Ret err m' -> chain m' = chain m.
Proof.
  intros H. unfold publish in H.
  apply bind_Ret in H as (maxBlockNum_ & m0 & Hmax & H).
  apply publish_maxBlockNum_state in Hmax as ->.
  apply bind_Ret in H as (e & m1 & Henq & H).
  assert (Hh1 : chain m1 = chain m).
  { unfold queue_ops.enqueue in Henq. cbv zeta in Henq.
    destruct (cap _ <=? _) in Henq; by injection Henq as <- <-. }
  destruct e as [e|]; [injection H as <- <-; done|].
  apply bind_Ret in H as ([pubEvents ok] & m2 & Hdeq & H).
  assert (Hh2 : chain m2 = chain m1).
  { unfold queue_ops.dequeue in Hdeq. cbv zeta in Hdeq.
    destruct (batches _) in Hdeq; [by injection Hdeq as <- <- <-|].
    destruct (maxBlockNum_ =? 0) in Hdeq; [by injection Hdeq as <- <- <-|].
    destruct (queue_ops.leading _ _ _) in Hdeq; by injection Hdeq as <- <- <-. }
  apply bind_Ret in H as ([] & m3 & Hsend & H). injection H as <- <-.
  destruct ok; injection Hsend as <-; simpl; congruence.
Qed.

Lemma buildCanonicalChain_valid (E : Env) (nextBlock : types.Block)
    (events evs : list nat) (err : option error) (m m' : Monitor) :
  chain_valid m ->
  buildCanonicalChain E nextBlock events m = Ret (evs, err) m' ->
  chain_valid m'.
Proof. unfold buildCanonicalChain. apply buildCanonicalChain_rec_valid. Qed.

Lemma NewMonitor_invariant (opts : Options) (interval : Z) :
  loop_invariant (mkLocals [] interval) (NewMonitor opts).
Proof.
  split; [|constructor]. unfold chain_valid, chain_list, NewMonitor, newChain. simpl.
  destruct (Bootstrap opts); constructor.
Qed.

Lemma sink_ok_resolved (m m' : Monitor) (events evs ps : list nat) (olds : list Block.t)
    (rem add : list nat) (news : list types.Block) :
  heap m `prefix_of` heap m' -> sink_ok m events ->
  resolved m m' events evs ps olds rem add news -> sink_ok m' evs.
Proof.
  intros Hpre Hsink (_ & _ & -> & Hrem & Hadd & _).
  unfold sink_ok in *. rewrite !Forall_app. split; [|split].
  - eapply list.Forall_impl; [exact Hsink|]. intros p (b & Hb & Hok).
    exists b. split; [by eapply prefix_lookup_Some | exact Hok].
  - apply list.Forall_forall. intros p Hin.
    destruct (points_to_map_elem _ _ _ _ _ Hrem Hin) as (o & _ & Hp).
    exists (removed o). split; [exact Hp | done].
  - apply list.Forall_forall. intros p Hin.
    destruct (points_to_map_elem _ _ _ _ _ Hadd Hin) as (q & _ & Hp).
    exists (added q). split; [exact Hp | done].
Qed.

(** An iteration after which the loop goes on keeps the invariant. *)
Lemma monitor_iteration_invariant (E : Env) (l l' : locals) (m m' : Monitor)
    (r : iteration) :
  loop_invariant l m ->
  monitor_iteration E l m = Ret (r, l') m' ->
  match r with
  | Return _ => True
  | _ => loop_invariant l' m'
  end.
Proof.
  intros (Hvalid & Hsink) H.
  apply monitor_iteration_inv in H as [(_ & -> & _) | (_ & H)]; [done|].
  destruct H as (m1 & fetched & m2 & _ & Hheap1 & Hchain1 & _ & _ & _ & Hfetch & H).
  apply fetchBlockByNumber_state in Hfetch as (Hheap2 & Hchain2).
  rewrite Hheap1 in Hheap2. rewrite Hchain1 in Hchain2.
  assert (Hcl2 : chain_list m2 = chain_list m) by (unfold chain_list; by rewrite Hchain2).
  assert (Hvalid2 : chain_valid m2) by (unfold chain_valid; by rewrite Hcl2, Hheap2).
  assert (Hsink2 : sink_ok m2 (events l)) by (unfold sink_ok; by rewrite Hheap2).
  destruct fetched as [nextBlock|err].
  - destruct H as (evs & err & m3 & Hbuild & H).
    pose proof (buildCanonicalChain_valid _ _ _ _ _ _ _ Hvalid2 Hbuild) as Hvalid3.
    destruct err as [e|].
    + destruct H as (-> & -> & ->). split; [done|]. simpl.
      apply buildCanonicalChain_shape in Hbuild as (Hpre & _ & Hshape); [|done].
      destruct Hshape as [(-> & _) | (ps & olds & rem & add & news & Hres & _)];
        [constructor|].
      by eapply sink_ok_resolved.
    + destruct H as (m4 & perr & Hlogs & Hpub & H).
      destruct perr as [e|]; destruct H as (-> & ->); [done|].
      split; [|constructor].
      assert (Hlogs' : chain m4 = chain m3 /\ length (heap m4) = length (heap m3)).
      { destruct (WithLogs (options m)).
        - apply bind_Ret in Hlogs as ([] & m3' & Hadd & Hback).
          apply addLogs_chain in Hadd as (? & ?).
          apply backfillChainLogs_chain in Hback as (? & ?). split; congruence.
        - by eapply clearLogs_chain. }
      destruct Hlogs' as (Hchain4 & Hlen4).
      pose proof (publish_chain _ _ _ _ Hpub) as Hchain5.
      pose proof (publish_heap _ _ _ _ Hpub) as Hheap5.
      unfold chain_valid, chain_list in *.
      by rewrite Hchain5, Hheap5, Hchain4, Hlen4.
  - destruct H as (-> & -> & ->). by destruct err.
Qed.

Lemma retries_invariant (E : Env) (l1 l2 : locals) (m1 m2 : Monitor) :
  retries E l1 m1 l2 m2 -> loop_invariant l1 m1 -> loop_invariant l2 m2.
Proof.
  induction 1 as [l m | l m r l1 m1 l2 m2 Hiter Hr Hrest IH]; intros Hinv; [done|].
  apply IH. eapply monitor_iteration_invariant in Hiter; [|exact Hinv].
  by destruct r.
Qed.

(** ** The trail behind the head, where the subtraction does not wrap *)

Lemma top_bound (h : list Block.t) (batch : list nat) (p : nat) (b : Block.t) :
  p ∈ batch -> h !! p = Some b -> Block.NumberU64 b <= queue_ops.top h batch.
Proof.
  intros Hin Hb. unfold queue_ops.top.
  induction batch as [|q batch IH]; [by apply elem_of_nil in Hin|].
  simpl. apply elem_of_cons in Hin as [<-|Hin].
  - rewrite Hb. lia.
  - specialize (IH Hin). lia.
Qed.

Lemma leading_bound (h : list Block.t) (maxBlockNum : Z) (q : list (list nat))
    (batch : list nat) :
  batch ∈ queue_ops.leading h maxBlockNum q -> queue_ops.top h batch <= maxBlockNum.
Proof.
  induction q as [|b0 q IH]; simpl; intros Hin; [by apply elem_of_nil in Hin|].
  destruct (queue_ops.top h b0 <=? maxBlockNum) eqn:Hle; [|by apply elem_of_nil in Hin].
  apply elem_of_cons in Hin as [->|Hin]; [lia | by apply IH].
Qed.

(** X22.  In trail-behind-head mode, when the head number exceeds [k],
    so that the threshold is the positive difference [head - k],
    [publish] hands over nothing or one batch, and that batch holds no
    block above [head - k]. *)
Lemma publish_respects_trail (events : list nat) (m m' : Monitor) (hp : nat)
    (hb : Block.t) :
  let k := TrailNumBlocksBehindHead (options m) in
  0 < k <= max_int ->
  list.last (chain_list m) = Some hp -> heap m !! hp = Some hb ->
  k < Block.NumberU64 hb ->
  publish events m = Ret None m' ->
  publishCh m' = publishCh m \/
  exists batch,
    publishCh m' = publishCh m ++ [batch] /\
    forall p b, p ∈ batch -> heap m' !! p = Some b ->
                Block.NumberU64 b <= Block.NumberU64 hb - k.
Proof.
  intros k Hk Hlast Hhp Hhead H.
  pose proof (publish_heap _ _ _ _ H) as Hheap.
  unfold publish in H. apply bind_Ret in H as (x & m0 & Hmax & H).
  pose proof (publish_maxBlockNum_state _ _ _ Hmax) as ->.
  rewrite (publish_maxBlockNum_spec m hp hb Hk Hlast Hhp) in Hmax.
  fold k in Hmax. replace (Block.NumberU64 hb <? k) with false in Hmax by lia.
  injection Hmax as <-.
  apply bind_Ret in H as (e & m1 & Henq & H).
  unfold queue_ops.enqueue in Henq. cbv zeta in Henq.
  destruct (cap _ <=? _) in Henq; injection Henq as <- <-; [done|].
  apply bind_Ret in H as ([pubEvents ok] & m2 & Hdeq & H).
  apply bind_Ret in H as ([] & m3 & Hsend & H). injection H as <-.
  unfold queue_ops.dequeue in Hdeq. cbv zeta in Hdeq. simpl in Hdeq.
  destruct (batches (publishQueue m) ++ [events]) as [|b0 rest] eqn:Hq;
    [injection Hdeq as <- <- <-; injection Hsend as <-; by left|].
  replace (Block.NumberU64 hb - k =? 0) with false in Hdeq by lia.
  destruct (queue_ops.leading _ _ _) as [|l0 lead] eqn:Hlead in Hdeq;
    injection Hdeq as <- <- <-; injection Hsend as <-; [by left|].
  right. eexists. split; [reflexivity|]. intros p b Hin Hb. simpl in Hb.
  apply list_elem_of_In in Hin. change (In p (concat (l0 :: lead))) in Hin.
  apply in_concat in Hin as (batch & Hbatch & Hp).
  apply list_elem_of_In in Hbatch, Hp.
  rewrite <- Hlead in Hbatch. apply leading_bound in Hbatch.
  pose proof (top_bound _ _ _ _ Hp Hb). lia.
Qed.

(** ** The fetchers *)

Lemma fetchBlockByNumber_loop_returns (E : Env) (num : option Z) (fuel : nat) (ea : Z)
    (err : option error) (m : Monitor) :
  0 <= ea <= maxErrAttempts -> (Z.to_nat (maxErrAttempts - ea) < fuel)%nat ->
  exists r m',
    fetchBlockByNumber_loop E fuel num ea err m = Ret r m' /\
    fetched_by_number E num ea err m r m'.
Proof.
  revert ea err m. induction fuel as [|fuel IH]; intros ea err m Hea Hfuel; [lia|].
  cbn [fetchBlockByNumber_loop]. unfold bind at 1, ctx_Done, tick, bind, ret.
  unfold fetched_by_number, maxErrAttempts in *.
  destruct (ctxDone E (clock m)) eqn:Hctx.
  { eexists _, _. split; [reflexivity|]. destruct m; simpl in *.
    split; [reflexivity|]. split; [lia|]. by rewrite ?Nat.sub_0_r. }
  destruct (10 <=? ea) eqn:Hmax.
  { eexists _, _. split; [reflexivity|]. destruct m; simpl in *.
    replace (Z.to_nat (10 - ea)) with 0%nat by lia.
    split; [reflexivity|]. split; [lia|]. split; [lia|].
    split; [intros; lia|]. left. split; [lia|done]. }
  simpl.
  destruct (BlockByNumber E (S (clock m)) num) as [block|e] eqn:Hcall.
  { eexists _, _. split; [reflexivity|]. destruct m; simpl in *.
    split; [reflexivity|]. split; [lia|]. by rewrite ?Nat.sub_0_r. }
  destruct (IH (ea + 1) (Some e)
              (set_clock (S (S (clock m))) (set_clock (S (clock m)) m)))
    as (r & m' & Hrun & Hm' & Hclock & Hr); [lia | lia |].
  simpl in Hm', Hclock, Hr.
  assert (Hnext : e <> NotFound ->
    exists r m',
      fetchBlockByNumber_loop E fuel num (ea + 1) (Some e)
        (set_clock (S (S (clock m))) (set_clock (S (clock m)) m)) = Ret r m' /\
      fetched_by_number E num ea err m r m').
  { intros Hne. exists r, m'. split; [exact Hrun|].
    unfold fetched_by_number, maxErrAttempts.
    split; [rewrite Hm'; by destruct m|]. split; [lia|].
    destruct r as [b|e0]; [exact Hr|].
    destruct e0; try exact Hr. destruct e0; try exact Hr.
    destruct Hr as (Hc & Hall & Hlast). split; [lia|]. split.
    - intros i Hi. destruct i as [|i].
      + rewrite Nat.mul_0_r, Nat.add_0_r. split; [exact Hctx|].
        exists e. split; [done|]. by rewrite Nat.add_1_r.
      + destruct (Hall i) as (Hd & e1 & Hne1 & Hcall1); [lia|].
        replace (clock m + 2 * S i)%nat with (S (S (clock m)) + 2 * i)%nat by lia.
        split; [exact Hd|]. by exists e1.
    - right. destruct Hlast as [(Hten & ->)|Hlast]; [|exact Hlast].
      exists e. split; [done|]. split; [done|].
      replace (clock m' - 2)%nat with (S (clock m)) by lia. exact Hcall. }
  unfold fetched_by_number, maxErrAttempts in Hnext.
  destruct e; try (apply Hnext; discriminate).
  eexists _, _. split; [reflexivity|]. destruct m; simpl in *.
  split; [reflexivity|]. split; [lia|]. by rewrite ?Nat.sub_0_r.
Qed.

Lemma fetchBlockByNumber_returns (E : Env) (num : option Z) (m : Monitor) :
  exists r m',
    fetchBlockByNumber E num m = Ret r m' /\ fetched_by_number E num 0 None m r m'.
Proof.
  unfold fetchBlockByNumber.
  apply fetchBlockByNumber_loop_returns; [by vm_compute | vm_compute; lia].
Qed.

Lemma fetchBlockByNumber_loop_calls (E : Env) (num : option Z) (fuel : nat) (ea : Z)
    (err : option error) (m : Monitor) :
  0 <= ea <= maxErrAttempts -> (Z.to_nat (maxErrAttempts - ea) < fuel)%nat ->
  exists r m' (i : nat),
    fetchBlockByNumber_loop E fuel num ea err m = Ret r m' /\
    (i <= Z.to_nat (maxErrAttempts - ea))%nat /\
    calls_failed E num (clock m) i /\
    match r with
    | Ok _ | Fail NotFound =>
        (i < Z.to_nat (maxErrAttempts - ea))%nat /\
        ctxDone E (clock m + 2 * i) = false /\
        BlockByNumber E (clock m + 2 * i + 1) num = r /\
        clock m' = (clock m + 2 * i + 2)%nat
    | Fail ErrCanceled =>
        ctxDone E (clock m + 2 * i) = true /\ clock m' = (clock m + 2 * i + 1)%nat
    | Fail (superr_New ErrMaxAttempts _) =>
        i = Z.to_nat (maxErrAttempts - ea) /\
        ctxDone E (clock m + 2 * i) = false /\ clock m' = (clock m + 2 * i + 1)%nat
    | Fail _ => False
    end.
Proof.
  revert ea err m. induction fuel as [|fuel IH]; intros ea err m Hea Hfuel; [lia|].
  cbn [fetchBlockByNumber_loop]. unfold bind at 1, ctx_Done, tick, bind, ret.
  unfold maxErrAttempts in *.
  destruct (ctxDone E (clock m)) eqn:Hctx.
  { exists (Fail ErrCanceled), (set_clock (S (clock m)) m), 0%nat.
    split; [reflexivity|]. split; [lia|]. split; [intros j Hj; lia|].
    rewrite Nat.mul_0_r, Nat.add_0_r. split; [exact Hctx | simpl; lia]. }
  destruct (10 <=? ea) eqn:Hmax.
  { exists (Fail (superr_New ErrMaxAttempts err)), (set_clock (S (clock m)) m), 0%nat.
    split; [reflexivity|]. split; [lia|]. split; [intros j Hj; lia|].
    rewrite Nat.mul_0_r, Nat.add_0_r. split; [lia|]. split; [exact Hctx | simpl; lia]. }
  simpl.
  assert (Hanswer : forall r,
    BlockByNumber E (S (clock m)) num = r ->
    exists (i : nat),
      (i <= Z.to_nat (10 - ea))%nat /\ calls_failed E num (clock m) i /\
      (i < Z.to_nat (10 - ea))%nat /\
      ctxDone E (clock m + 2 * i) = false /\
      BlockByNumber E (clock m + 2 * i + 1) num = r /\
      clock (set_clock (S (S (clock m))) (set_clock (S (clock m)) m))
      = (clock m + 2 * i + 2)%nat).
  { intros r Hr. exists 0%nat. split; [lia|]. split; [intros j Hj; lia|].
    rewrite Nat.mul_0_r, Nat.add_0_r, Nat.add_1_r.
    split; [lia|]. split; [exact Hctx|]. split; [exact Hr | simpl; lia]. }
  destruct (BlockByNumber E (S (clock m)) num) as [block|e] eqn:Hcall.
  { destruct (Hanswer _ eq_refl) as (i & H). eexists _, _, i. split; [reflexivity|].
    destruct H as (? & ? & ?). done. }
  destruct (IH (ea + 1) (Some e)
              (set_clock (S (S (clock m))) (set_clock (S (clock m)) m)))
    as (r & m' & i & Hrun & Hi & Hfailed & Hr); [lia | lia |].
  simpl in Hfailed, Hr.
  assert (Hnext : e <> NotFound ->
    exists r m' (i : nat),
      fetchBlockByNumber_loop E fuel num (ea + 1) (Some e)
        (set_clock (S (S (clock m))) (set_clock (S (clock m)) m)) = Ret r m' /\
      (i <= Z.to_nat (10 - ea))%nat /\
      calls_failed E num (clock m) i /\
      match r with
      | Ok _ | Fail NotFound =>
          (i < Z.to_nat (10 - ea))%nat /\
          ctxDone E (clock m + 2 * i) = false /\
          BlockByNumber E (clock m + 2 * i + 1) num = r /\
          clock m' = (clock m + 2 * i + 2)%nat
      | Fail ErrCanceled =>
          ctxDone E (clock m + 2 * i) = true /\ clock m' = (clock m + 2 * i + 1)%nat
      | Fail (superr_New ErrMaxAttempts _) =>
          i = Z.to_nat (10 - ea) /\
          ctxDone E (clock m + 2 * i) = false /\ clock m' = (clock m + 2 * i + 1)%nat
      | Fail _ => False
      end).
  { intros Hne. exists r, m', (S i). split; [exact Hrun|]. split; [lia|].
    replace (clock m + 2 * S i)%nat with (S (S (clock m)) + 2 * i)%nat by lia.
    split.
    - intros j Hj. destruct j as [|j].
      + rewrite Nat.mul_0_r, Nat.add_0_r, Nat.add_1_r. split; [exact Hctx|]. by exists e.
      + replace (clock m + 2 * S j)%nat with (S (S (clock m)) + 2 * j)%nat by lia.
        apply Hfailed. lia.
    - destruct r as [b|e0].
      + destruct Hr as (? & ? & ? & ?). repeat split; [lia|done..].
      + destruct e0; try exact Hr.
        * destruct Hr as (? & ? & ? & ?). repeat split; [lia|done..].
        * destruct e0; try exact Hr.
          destruct Hr as (? & ? & ?). repeat split; [lia|done..]. }
  destruct e; try (apply Hnext; discriminate).
  destruct (Hanswer _ eq_refl) as (i0 & H). eexists _, _, i0. split; [reflexivity|].
  destruct H as (? & ? & ?). done.
Qed.

Lemma fetchBlockByNumber_calls (E : Env) (num : option Z) (m : Monitor) :
  exists r m' (i : nat),
    fetchBlockByNumber E num m = Ret r m' /\
    (i <= 10)%nat /\
    calls_failed E num (clock m) i /\
    match r with
    | Ok _ | Fail NotFound =>
        (i < 10)%nat /\
        ctxDone E (clock m + 2 * i) = false /\
        BlockByNumber E (clock m + 2 * i + 1) num = r /\
        clock m' = (clock m + 2 * i + 2)%nat
    | Fail ErrCanceled =>
        ctxDone E (clock m + 2 * i) = true /\ clock m' = (clock m + 2 * i + 1)%nat
    | Fail (superr_New ErrMaxAttempts _) =>
        i = 10%nat /\
        ctxDone E (clock m + 2 * i) = false /\ clock m' = (clock m + 2 * i + 1)%nat
    | Fail _ => False
    end.
Proof.
  unfold fetchBlockByNumber.
  apply fetchBlockByNumber_loop_calls; [by vm_compute | vm_compute; lia].
Qed.

(** X1.  [fetchBlockByNumber] always returns, and leaves the monitor as
    it is (only the instants it observed have passed).  It repeats the
    call of the provider only after an error other than [NotFound], and
    the first answer that is a block or [NotFound] is what it returns,
    at once: [NotFound] is never tried again.  Otherwise it returns the
    error of the context, which it found cancelled before a call, or,
    after ten calls that failed, [ErrMaxAttempts] wrapping the error of
    the tenth.  It returns no other error, and never an error of the
    provider as it is. *)
Theorem fetchBlockByNumber_result (E : Env) (num : option Z) (m : Monitor) :
  exists r m' (i : nat),
    fetchBlockByNumber E num m = Ret r m' /\
    m' = set_clock (clock m') m /\
    calls_failed E num (clock m) i /\
    match r with
    | Ok _ | Fail NotFound =>
        (i < 10)%nat /\
        ctxDone E (clock m + 2 * i) = false /\
        BlockByNumber E (clock m + 2 * i + 1) num = r /\
        clock m' = (clock m + 2 * i + 2)%nat
    | Fail ErrCanceled =>
        (i <= 10)%nat /\
        ctxDone E (clock m + 2 * i) = true /\ clock m' = (clock m + 2 * i + 1)%nat
    | Fail (superr_New ErrMaxAttempts last) =>
        i = 10%nat /\ ctxDone E (clock m + 20) = false /\
        clock m' = (clock m + 21)%nat /\
        exists e, last = Some e /\ e <> NotFound /\
                  BlockByNumber E (clock m + 19) num = Fail e
    | Fail _ => False
    end.
Proof.
  destruct (fetchBlockByNumber_returns E num m) as (r & m' & Hrun & Hm' & _ & Hlast).
  destruct (fetchBlockByNumber_calls E num m)
    as (r0 & m0 & i & Hrun0 & Hi & Hfailed & Hr).
  rewrite Hrun in Hrun0. injection Hrun0 as <- <-.
  exists r, m', i. split; [exact Hrun|]. split; [exact Hm'|].
  split; [exact Hfailed|].
  destruct r as [b|e]; [exact Hr|].
  destruct e; try exact Hr.
  - destruct Hr as (? & ?). split; [lia|]. split; assumption.
  - destruct e; try exact Hr.
    destruct Hr as (-> & Hctx & Hclock). split; [done|]. split; [exact Hctx|].
    split; [lia|].
    destruct Hlast as (_ & _ & [(Hten & _)|(e & -> & Hne & Hcall)]); [discriminate Hten|].
    exists e. split; [done|]. split; [done|].
    replace (clock m + 19)%nat with (clock m' - 2)%nat by lia. exact Hcall.
Qed.

(** X2.  [fetchBlockByNumber] asks the provider at most ten times: at
    most twenty-one instants pass, two for each call and one for the
    observation of the context at which it returns.  It gives up with
    [ErrMaxAttempts] only after ten calls that all failed with an error
    other than [NotFound], the context being live at each of them. *)
Theorem fetchBlockByNumber_attempts (E : Env) (num : option Z) (m : Monitor) :
  exists r m',
    fetchBlockByNumber E num m = Ret r m' /\
    (clock m < clock m' <= clock m + 21)%nat /\
    forall last, r = Fail (superr_New ErrMaxAttempts last) ->
      clock m' = (clock m + 21)%nat /\
      forall i : nat, (i < 10)%nat ->
        ctxDone E (clock m + 2 * i) = false /\
        exists e, e <> NotFound /\ BlockByNumber E (clock m + 2 * i + 1) num = Fail e.
Proof.
  destruct (fetchBlockByNumber_returns E num m) as (r & m' & Hrun & Hm' & Hclock & Hr).
  exists r, m'. split; [exact Hrun|].
  change (Z.to_nat (maxErrAttempts - 0)) with 10%nat in *.
  split; [lia|]. intros last ->. destruct Hr as (Hc & Hall & _).
  split; [lia | exact Hall].
Qed.

Lemma fetchBlockByHash_loop_returns (E : Env) (hash : common.Hash) (fuel : nat)
    (nf ea : Z) (err : option error) (m : Monitor) :
  0 <= nf -> 0 <= ea ->
  (1 <= fuel)%nat ->
  (Z.to_nat (maxNotFoundAttempts - nf) + Z.to_nat (maxErrAttempts - ea) <= fuel)%nat ->
  exists r m',
    fetchBlockByHash_loop E fuel hash nf ea err m = Ret r m' /\
    fetched_by_hash E hash nf ea err m r m'.
Proof.
  revert nf ea err m.
  induction fuel as [|fuel IH]; intros nf ea err m Hnf Hea Hone Hfuel; [lia|].
  cbn [fetchBlockByHash_loop]. unfold bind at 1, ctx_Done, tick, bind, ret.
  unfold fetched_by_hash, maxErrAttempts, maxNotFoundAttempts in *.
  destruct (ctxDone E (clock m)) eqn:Hctx.
  { eexists _, _. split; [reflexivity|]. destruct m; simpl in *.
    split; [reflexivity|]. split; [lia|]. split; [lia|]. by rewrite ?Nat.sub_0_r. }
  destruct (4 <=? nf) eqn:Hmaxnf.
  { eexists _, _. split; [reflexivity|]. destruct m; simpl in *.
    split; [reflexivity|]. split; [lia|]. split; [lia|]. lia. }
  destruct (10 <=? ea) eqn:Hmaxea.
  { eexists _, _. split; [reflexivity|]. destruct m; simpl in *.
    split; [reflexivity|]. split; [lia|]. split; [lia|].
    split; [lia|]. left. split; [lia|done]. }
  simpl.
  destruct (BlockByHash E (S (clock m)) hash) as [block|e] eqn:Hcall.
  { eexists _, _. split; [reflexivity|]. destruct m; simpl in *.
    split; [reflexivity|]. split; [lia|]. split; [lia|]. by rewrite ?Nat.sub_0_r. }
  set (m2 := set_clock (S (S (clock m))) (set_clock (S (clock m)) m)).
  assert (Hnfnext :
    exists r m',
      fetchBlockByHash_loop E fuel hash (nf + 1) ea (Some NotFound) m2 = Ret r m' /\
      fetched_by_hash E hash nf ea err m r m').
  { destruct (IH (nf + 1) ea (Some NotFound) m2)
      as (r & m' & Hrun & Hm' & Hclock & Hbound & Hr); [lia | lia | lia | lia |].
    simpl in Hm', Hclock, Hbound, Hr.
    exists r, m'. split; [exact Hrun|].
    unfold fetched_by_hash, maxErrAttempts, maxNotFoundAttempts.
    split; [rewrite Hm'; by destruct m|]. split; [lia|]. split.
    - intros _ _. destruct (Z.eq_dec nf 3) as [->|Hne].
      + (* the fourth answer [NotFound]: the next iteration returns *)
        destruct fuel as [|fuel']; [lia|].
        cbn [fetchBlockByHash_loop] in Hrun.
        unfold bind at 1, ctx_Done, tick, bind, ret in Hrun.
        unfold maxNotFoundAttempts, maxErrAttempts in Hrun. simpl in Hrun.
        destruct (ctxDone E (S (S (clock m)))); injection Hrun as <- <-; simpl; lia.
      + lia.
    - destruct r as [b|e0]; [exact Hr|].
      destruct e0; try exact Hr; [lia|].
      destruct e0; try exact Hr.
      destruct Hr as (Hc & Hlast). split; [lia|]. right.
      destruct Hlast as [(Hten & _)|Hlast]; [lia | exact Hlast]. }
  assert (Heanext : e <> NotFound ->
    exists r m',
      fetchBlockByHash_loop E fuel hash nf (ea + 1) (Some e) m2 = Ret r m' /\
      fetched_by_hash E hash nf ea err m r m').
  { intros Hne.
    destruct (IH nf (ea + 1) (Some e) m2)
      as (r & m' & Hrun & Hm' & Hclock & Hbound & Hr); [lia | lia | lia | lia |].
    simpl in Hm', Hclock, Hbound, Hr.
    exists r, m'. split; [exact Hrun|].
    unfold fetched_by_hash, maxErrAttempts, maxNotFoundAttempts.
    split; [rewrite Hm'; by destruct m|]. split; [lia|]. split.
    - intros _ _. destruct (Z.eq_dec ea 9) as [->|Hne9].
      + destruct fuel as [|fuel']; [lia|].
        cbn [fetchBlockByHash_loop] in Hrun.
        unfold bind at 1, ctx_Done, tick, bind, ret in Hrun.
        unfold maxNotFoundAttempts, maxErrAttempts in Hrun. simpl in Hrun.
        replace (4 <=? nf) with false in Hrun by lia.
        destruct (ctxDone E (S (S (clock m)))); injection Hrun as <- <-; simpl; lia.
      + lia.
    - destruct r as [b|e0]; [exact Hr|].
      destruct e0; try exact Hr; [lia|].
      destruct e0; try exact Hr.
      destruct Hr as (Hc & Hlast). split; [lia|]. right.
      destruct Hlast as [(Hten & ->)|Hlast]; [|exact Hlast].
      exists e. split; [done|]. split; [done|].
      assert (Hm'c : clock m' = S (S (S (clock m)))).
      { destruct fuel as [|fuel']; [lia|].
        cbn [fetchBlockByHash_loop] in Hrun.
        unfold bind at 1, ctx_Done, tick, bind, ret in Hrun.
        unfold maxNotFoundAttempts, maxErrAttempts in Hrun. simpl in Hrun.
        replace (4 <=? nf) with false in Hrun by lia.
        replace (10 <=? ea + 1) with true in Hrun by lia.
        destruct (ctxDone E (S (S (clock m)))); [discriminate Hrun|].
        by injection Hrun as <-. }
      rewrite Hm'c. simpl. exact Hcall. }
  unfold fetched_by_hash, maxErrAttempts, maxNotFoundAttempts in Hnfnext, Heanext.
  destruct e; try (apply Heanext; discriminate). exact Hnfnext.
Qed.

Lemma fetchBlockByHash_returns (E : Env) (hash : common.Hash) (m : Monitor) :
  exists r m',
    fetchBlockByHash E hash m = Ret r m' /\ fetched_by_hash E hash 0 0 None m r m'.
Proof.
  unfold fetchBlockByHash.
  apply fetchBlockByHash_loop_returns; [lia | lia | lia | vm_compute; lia].
Qed.

(** X3.  With a provider that answers a block or an error, as [Env]
    has it, [fetchBlockByHash] always returns, and leaves the monitor as
    it is.  It returns a block that the provider answered; the error of
    the context, which it found cancelled; [NotFound], after four calls
    at least; or [ErrMaxAttempts] wrapping the last error of the
    provider, which is not [NotFound], after ten calls at least.  It
    asks the provider at most thirteen times. *)
Theorem fetchBlockByHash_result (E : Env) (hash : common.Hash) (m : Monitor) :
  exists r m',
    fetchBlockByHash E hash m = Ret r m' /\
    m' = set_clock (clock m') m /\
    (clock m < clock m' <= clock m + 27)%nat /\
    match r with
    | Ok b =>
        exists t : nat, (clock m <= t < clock m')%nat /\ BlockByHash E t hash = Ok b
    | Fail ErrCanceled =>
        exists t : nat, (clock m <= t < clock m')%nat /\ ctxDone E t = true
    | Fail NotFound => (clock m + 9 <= clock m')%nat
    | Fail (superr_New ErrMaxAttempts last) =>
        (clock m + 21 <= clock m')%nat /\
        exists (t : nat) e, (clock m <= t < clock m')%nat /\
          last = Some e /\ e <> NotFound /\ BlockByHash E t hash = Fail e
    | Fail _ => False
    end.
Proof.
  destruct (fetchBlockByHash_returns E hash m)
    as (r & m' & Hrun & Hm' & Hclock & Hbound & Hr).
  exists r, m'. split; [exact Hrun|]. split; [exact Hm'|].
  unfold maxErrAttempts, maxNotFoundAttempts in *.
  change (Z.to_nat (4 + 10 - 1 - 0 - 0)) with 13%nat in *.
  change (Z.to_nat (4 - 0)) with 4%nat in *.
  change (Z.to_nat (10 - 0)) with 10%nat in *.
  split; [lia|].
  destruct r as [b|e].
  - exists (clock m' - 1)%nat. split; [lia | exact Hr].
  - destruct e; try exact Hr.
    + lia.
    + exists (clock m' - 1)%nat. split; [lia | exact Hr].
    + destruct e; try exact Hr.
      destruct Hr as (Hc & [(Hten & _)|(e & -> & Hne & Hcall)]); [lia|].
      split; [lia|]. exists (clock m' - 2)%nat, e. split; [lia|]. done.
Qed.

(** ** The flags of the blocks *)

Lemma update_inv (p : nat) (f : Block.t -> Block.t) (m m' : Monitor) :
  update p f m = Ret tt m' ->
  exists b, heap m !! p = Some b /\ m' = set_heap (<[p := f b]> (heap m)) m.
Proof.
  unfold update. destruct (heap m !! p) as [b|]; [|done].
  intros [= <-]. by exists b.
Qed.

Section flag_invariant.
Context (P : Block.t -> Prop) (HP : flag_invariant P) (E : Env).

Lemma flags_update (p : nat) (f : Block.t -> Block.t) (m m' : Monitor) :
  Forall P (heap m) -> (forall b, heap m !! p = Some b -> P (f b)) ->
  update p f m = Ret tt m' -> Forall P (heap m').
Proof using Type.
  intros Hall Hf H. apply update_inv in H as (b & Hb & ->). simpl.
  apply Forall_insert; [exact Hall | by apply Hf].
Qed.

Lemma flags_addLogs (blocks : list nat) (m m' : Monitor) :
  Forall P (heap m) -> addLogs E blocks m = Ret tt m' -> Forall P (heap m').
Proof using HP.
  revert m. induction blocks as [|block rest IH]; intros m Hall H; simpl in H.
  { by injection H as <-. }
  apply bind_Ret in H as (done & m0 & Hdone & H).
  apply ctx_Done_inv in Hdone as (-> & ->).
  destruct (ctxDone E (clock m)); [by injection H as <-|].
  apply bind_Ret in H as (b & m0 & Hload & H).
  apply load_inv in Hload as (-> & Hb). simpl in Hb.
  assert (HPb : P b).
  { rewrite list.Forall_forall in Hall. apply Hall. by eapply list_elem_of_lookup_2. }
  destruct (Block.OK b) eqn:Hok; [by eapply IH; [|exact H]|].
  assert (Hupd : forall (f : Block.t -> Block.t) (m1 : Monitor),
             heap m1 = heap m -> P (f b) ->
             (let* _ := update block f in addLogs E rest) m1 = Ret tt m' ->
             Forall P (heap m')).
  { intros f m1 Hh1 Hfb Hrun.
    apply bind_Ret in Hrun as ([] & m3 & Hu & Hrun).
    eapply IH; [|exact Hrun].
    eapply flags_update; [|  |exact Hu]; rewrite Hh1; [exact Hall|].
    intros b' Hb'. by replace b' with b by congruence. }
  destruct (Block.Event b) eqn:Hev.
  - apply bind_Ret in H as (m1 & m1' & Hget & H). injection Hget as <- <-.
    apply bind_Ret in H as (t & m2 & Htick & H). injection Htick as <- <-.
    destruct (FilterLogs E _ _ _) as [logs|e].
    + destruct (_ || _); (eapply Hupd; [| |exact H]; [reflexivity|]).
      * by apply (flag_logs P HP).
      * by apply (flag_mark P HP).
    + eapply Hupd; [| |exact H]; [reflexivity|]. by apply (flag_mark P HP).
  - eapply Hupd; [| |exact H]; [reflexivity|]. by apply (flag_ok P HP).
Qed.

Lemma flags_backfill_loop (blocks : list nat) (m m' : Monitor) :
  Forall P (heap m) -> backfill_loop E blocks m = Ret tt m' -> Forall P (heap m').
Proof using HP.
  revert m. induction blocks as [|p rest IH]; intros m Hall H; cbn [backfill_loop] in H.
  { by injection H as <-. }
  apply bind_Ret in H as (done & m0 & Hdone & H).
  apply ctx_Done_inv in Hdone as (-> & ->).
  destruct (ctxDone E (clock m)); [by injection H as <-|].
  apply bind_Ret in H as (b & m0 & Hload & H). apply load_inv in Hload as (-> & _).
  apply bind_Ret in H as ([] & m1 & Hadd & H).
  eapply IH; [|exact H].
  destruct (negb (Block.OK b)).
  - eapply flags_addLogs; [|exact Hadd]. exact Hall.
  - by injection Hadd as <-.
Qed.

Lemma flags_backfillChainLogs (m m' : Monitor) :
  Forall P (heap m) -> backfillChainLogs E m = Ret tt m' -> Forall P (heap m').
Proof using HP.
  intros Hall H. apply bind_Ret in H as (blocks & m0 & Hb & H). injection Hb as <- <-.
  by eapply flags_backfill_loop.
Qed.

Lemma flags_clearLogs (events : list nat) (m m' : Monitor) :
  Forall P (heap m) -> clearLogs events m = Ret tt m' -> Forall P (heap m').
Proof using HP.
  revert m. induction events as [|p rest IH]; intros m Hall H; simpl in H.
  { by injection H as <-. }
  apply bind_Ret in H as ([] & m1 & Hu & H).
  eapply IH; [|exact H]. eapply flags_update; [exact Hall| |exact Hu].
  intros b Hb. apply (flag_clear P HP).
  rewrite list.Forall_forall in Hall. apply Hall. by eapply list_elem_of_lookup_2.
Qed.

Lemma flags_alloc (b : Block.t) (m m' : Monitor) (p : nat) :
  Forall P (heap m) -> P b -> alloc b m = Ret p m' -> Forall P (heap m').
Proof using Type.
  intros Hall Hb H. apply alloc_inv in H as (_ & -> & _).
  apply Forall_app. split; [exact Hall | by constructor].
Qed.

Lemma flags_buildCanonicalChain_rec (fuel : nat) (nextBlock : types.Block)
    (events evs : list nat) (err : option error) (m m' : Monitor) :
  Forall P (heap m) ->
  buildCanonicalChain_rec E fuel nextBlock events m = Ret (evs, err) m' ->
  Forall P (heap m').
Proof using HP.
  revert nextBlock events evs err m m'.
  induction fuel as [|fuel IH]; intros nextBlock events evs err m m' Hall H; [done|].
  simpl in H.
  apply bind_Ret in H as (done & m0 & Hdone & H).
  apply ctx_Done_inv in Hdone as (-> & ->).
  destruct (ctxDone E (clock m)) eqn:Hctx; [injection H as <- <- <-; exact Hall|].
  apply bind_Ret in H as (headBlock & m1 & Hhead & H). injection Hhead as <- <-.
  apply bind_Ret in H as (chained & m2 & Hchained & H).
  assert (m2 = set_clock (S (clock m)) m) as ->.
  { destruct (list.last _) in Hchained.
    - apply bind_Ret in Hchained as (hb & m1 & Hload & Hc).
      apply load_inv in Hload as (-> & _). by injection Hc as <- <-.
    - by injection Hchained as <- <-. }
  clear Hchained. destruct chained.
  - apply bind_Ret in H as (block & m3 & Halloc & H).
    apply bind_Ret in H as (e & m4 & Hpush & H). injection H as <- <- <-.
    apply push_inv in Hpush as (-> & _).
    eapply flags_alloc; [|apply (flag_added P HP)|exact Halloc]. exact Hall.
  - apply bind_Ret in H as (popped & m3 & Hpop & H).
    apply pop_inv in Hpop as (-> & Hheap3 & _). simpl in Hheap3.
    destruct (list.last _) as [pp|]; [|done].
    apply bind_Ret in H as (pb & m4 & Hload & H). apply load_inv in Hload as (-> & Hpb).
    apply bind_Ret in H as (poppedBlock & m5 & Halloc & H).
    assert (Hall5 : Forall P (heap m5)).
    { eapply flags_alloc; [| |exact Halloc]; rewrite ?Hheap3; [exact Hall|].
      apply (flag_removed P HP). rewrite Hheap3 in Hpb.
      rewrite list.Forall_forall in Hall. apply Hall. by eapply list_elem_of_lookup_2. }
    apply bind_Ret in H as (fetched & m6 & Hfetch & H).
    apply fetchBlockByHash_state in Hfetch as (Hheap6 & _).
    rewrite <- Hheap6 in Hall5.
    destruct fetched as [nextParentBlock|e]; [|injection H as <- <- <-; assumption].
    apply bind_Ret in H as ([evs' err'] & m7 & Hrec & H).
    apply IH in Hrec; [|done].
    destruct err' as [e|]; [injection H as <- <- <-; assumption|].
    apply bind_Ret in H as (block & m8 & Halloc8 & H).
    apply bind_Ret in H as (e & m9 & Hpush & H).
    apply push_inv in Hpush as (Hheap9 & _).
    assert (Forall P (heap m9)).
    { rewrite Hheap9. eapply flags_alloc; [|apply (flag_added P HP)|exact Halloc8]. done. }
    destruct e; injection H as <- <- <-; assumption.
Qed.

Lemma flags_monitor_iteration (l l' : locals) (m m' : Monitor) (r : iteration) :
  Forall P (heap m) -> monitor_iteration E l m = Ret (r, l') m' -> Forall P (heap m').
Proof using HP.
  intros Hall H.
  assert (Hclock : forall m0, m' = set_clock (S (clock m)) m0 -> heap m0 = heap m ->
                              Forall P (heap m')).
  { intros m0 -> Hh. simpl. by rewrite Hh. }
  unfold monitor_iteration in H.
  apply bind_Ret in H as (done & m0 & Hdone & H).
  apply ctx_Done_inv in Hdone as (-> & ->).
  destruct (ctxDone E (clock m)); [injection H as <- <- <-; exact Hall|].
  apply bind_Ret in H as (headBlock & m0 & Hhead & H). injection Hhead as <- <-.
  apply bind_Ret in H as ([] & m1 & Hnext & H).
  assert (Hheap1 : heap m1 = heap m).
  { destruct (list.last _) as [hp|] in Hnext.
    - apply bind_Ret in Hnext as (hb & m0 & Hload & Hnext).
      apply load_inv in Hload as (-> & _). by injection Hnext as <-.
    - by injection Hnext as <-. }
  apply bind_Ret in H as (m1' & m1'' & Hget & H). injection Hget as <- <-.
  apply bind_Ret in H as (fetched & m2 & Hfetch & H).
  apply fetchBlockByNumber_state in Hfetch as (Hheap2 & _).
  assert (Hall2 : Forall P (heap m2)) by (by rewrite Hheap2, Hheap1).
  destruct fetched as [nextBlock|err];
    [|destruct err; injection H as <- <- <-; exact Hall2].
  apply bind_Ret in H as ([evs err] & m3 & Hbuild & H).
  unfold buildCanonicalChain in Hbuild.
  apply flags_buildCanonicalChain_rec in Hbuild; [|exact Hall2].
  destruct err as [e|]; [injection H as <- <- <-; exact Hbuild|].
  apply bind_Ret in H as ([] & m4 & Hlogs & H).
  assert (Hall4 : Forall P (heap m4)).
  { destruct (WithLogs (options m1)).
    - apply bind_Ret in Hlogs as ([] & m3' & Hadd & Hback).
      eapply flags_backfillChainLogs; [|exact Hback].
      eapply flags_addLogs; [|exact Hadd]. exact Hbuild.
    - eapply flags_clearLogs; [|exact Hlogs]. exact Hbuild. }
  apply bind_Ret in H as (perr & m5 & Hpub & H).
  apply publish_heap in Hpub. rewrite <- Hpub in Hall4.
  destruct perr; injection H as <- <- <-; exact Hall4.
Qed.

Lemma flags_iterate (n : nat) (l l' : locals) (m m' : Monitor) :
  Forall P (heap m) -> iterate E n l m = Ret l' m' -> Forall P (heap m').
Proof using HP.
  revert l m. induction n as [|n IH]; intros l m Hall H; simpl in H.
  { by injection H as <- <-. }
  apply bind_Ret in H as ([r l1] & m1 & Hiter & H).
  apply flags_monitor_iteration in Hiter; [|exact Hall].
  destruct r; try (eapply IH; [exact Hiter | exact H]).
  by injection H as <- <-.
Qed.

End flag_invariant.

Lemma well_flagged_invariant : flag_invariant well_flagged.
Proof.
  split; unfold well_flagged; simpl; intros; split; intros; congruence.
Qed.

(** X4.  Whatever the provider answers, after any number of iterations
    of the loop of a new monitor every block object has consistent
    flags: a Removed block is marked [OK], and a block that is not
    marked [OK] (its logs are still to be fetched) carries no logs. *)
Theorem blocks_are_well_flagged (E : Env) (opts : Options) (n : nat) (l l' : locals)
    (m : Monitor) :
  iterate E n l (NewMonitor opts) = Ret l' m -> Forall well_flagged (heap m).
Proof.
  intros H. eapply flags_iterate; [apply well_flagged_invariant| |exact H].
  constructor.
Qed.

Lemma blocks_are_well_flagged_witness :
  exists l', iterate forked 2 (mkLocals [] 1000) (NewMonitor with_logs) = Ret l' two_blocks
             /\ Forall well_flagged (heap two_blocks).
Proof.
  assert (H : exists l', iterate forked 2 (mkLocals [] 1000) (NewMonitor with_logs)
                         = Ret l' two_blocks) by (vm_compute; eauto).
  destruct H as (l' & H). exists l'. split; [exact H|].
  exact (blocks_are_well_flagged _ _ _ _ _ _ H).
Defined.

(** On a block marked [OK] or Removed, [addLogs] observes the context
    and, at most, sets the [OK] flag. *)
Lemma addLogs_settled (E : Env) (block : nat) (rest : list nat) (m : Monitor)
    (b : Block.t) :
  heap m !! block = Some b -> Block.OK b = true \/ Block.Event b = Removed ->
  addLogs E (block :: rest) m =
    if ctxDone E (clock m) then Ret tt (set_clock (S (clock m)) m)
    else addLogs E rest
           (if Block.OK b then set_clock (S (clock m)) m
            else set_heap (<[block := Block.set_OK true b]> (heap m))
                   (set_clock (S (clock m)) m)).
Proof.
  intros Hb Hsettled. cbn [addLogs].
  unfold bind, ctx_Done, tick, ret, load, update. simpl.
  destruct (ctxDone E (clock m)); [done|]. cbn [heap]. rewrite Hb.
  destruct (Block.OK b) eqn:Hok; [done|].
  destruct Hsettled as [?|Hev]; [done|]. rewrite Hev. cbn [heap]. by rewrite Hb.
Qed.

(** X5.  [addLogs] asks the provider for the logs of neither a block
    marked [OK] nor a Removed block: on a batch of such blocks it
    returns the same, whatever the provider would answer, and no block
    object has its logs changed. *)
Theorem addLogs_asks_nothing (E E' : Env) (blocks : list nat) (m : Monitor) :
  Forall (settled m) blocks -> (forall t, ctxDone E' t = ctxDone E t) ->
  exists m',
    addLogs E blocks m = Ret tt m' /\ addLogs E' blocks m = Ret tt m' /\
    forall p b, heap m !! p = Some b ->
      exists b', heap m' !! p = Some b' /\ Block.Logs b' = Block.Logs b.
Proof.
  intros Hall Hctx. revert m Hall.
  induction blocks as [|block rest IH]; intros m Hall.
  { exists m. repeat split. intros p b Hb. by exists b. }
  apply list.Forall_cons in Hall as ((b & Hb & Hsettled) & Hall).
  rewrite !(addLogs_settled _ block rest m b Hb Hsettled), Hctx.
  destruct (ctxDone E (clock m)).
  { eexists. repeat split. intros p b0 Hb0. by exists b0. }
  destruct (Block.OK b) eqn:Hok.
  { destruct (IH (set_clock (S (clock m)) m)) as (m' & H1 & H2 & Hlogs); [exact Hall|].
    exists m'. by repeat split. }
  set (m1 := set_heap _ _).
  destruct (IH m1) as (m' & H1 & H2 & Hlogs).
  { eapply list.Forall_impl; [exact Hall|]. intros p (bp & Hbp & Hp).
    unfold settled, m1. simpl. destruct (decide (p = block)) as [->|Hne].
    - rewrite list_lookup_insert_eq by (by eapply lookup_lt_Some).
      eexists. split; [reflexivity|]. by left.
    - rewrite list_lookup_insert_ne by done. by exists bp. }
  exists m'. split; [exact H1|]. split; [exact H2|].
  intros p bp Hbp. destruct (decide (p = block)) as [->|Hne].
  - destruct (Hlogs block (Block.set_OK true b)) as (b' & Hb' & Hl).
    { unfold m1. simpl. by rewrite list_lookup_insert_eq by (by eapply lookup_lt_Some). }
    exists b'. split; [exact Hb'|]. rewrite Hl. simpl. congruence.
  - apply Hlogs. unfold m1. simpl. by rewrite list_lookup_insert_ne.
Qed.

Lemma addLogs_asks_nothing_witness :
  exists m',
    addLogs forked [0%nat; 1%nat] two_blocks = Ret tt m' /\
    addLogs linear [0%nat; 1%nat] two_blocks = Ret tt m'.
Proof.
  destruct (addLogs_asks_nothing forked linear [0%nat; 1%nat] two_blocks)
    as (m' & H1 & H2 & _).
  - repeat constructor; eexists; (split; [reflexivity|]); by left.
  - reflexivity.
  - exists m'. by split.
Defined.

(** X6.  Without [WithLogs], every block of a batch that an iteration
    publishes, Added or Removed, is marked [OK] and carries no logs. *)
Theorem published_without_logs (E : Env) (l l' : locals) (m m' : Monitor)
    (batch : list nat) :
  WithLogs (options m) = false ->
  monitor_iteration E l m = Ret (Published batch, l') m' ->
  Forall (fun p => exists b, heap m' !! p = Some b /\ cleared b) batch.
Proof.
  intros Hopt H.
  apply monitor_iteration_inv in H as [(_ & ? & _) | (_ & H)]; [done|].
  destruct H as (m1 & fetched & m2 & _ & _ & _ & _ & _ & _ & _ & H).
  destruct fetched as [nextBlock|err]; [|by destruct H as (? & _); destruct err].
  destruct H as (evs & [e|] & m3 & _ & H); [by destruct H|].
  destruct H as (m4 & [e|] & Hlogs & Hpub & H); [by destruct H|].
  destruct H as ([= <-] & _). rewrite Hopt in Hlogs.
  apply publish_heap in Hpub. rewrite Hpub.
  apply list.Forall_forall. intros p Hin.
  pose proof (clearLogs_chain _ _ _ Hlogs) as (_ & Hlen).
  destruct (heap m4 !! p) as [b|] eqn:Hb.
  - exists b. split; [done|]. by eapply clearLogs_cleared.
  - exfalso. clear -Hlogs Hin Hb.
    revert m3 Hlogs. induction batch as [|q rest IH]; intros m3 Hlogs;
      [by apply elem_of_nil in Hin|].
    simpl in Hlogs. apply bind_Ret in Hlogs as ([] & m5 & Hu & Hlogs).
    apply elem_of_cons in Hin as [->|Hin]; [|by eapply IH].
    apply update_chain in Hu as Hlen5. destruct Hlen5 as (_ & Hlen5).
    apply update_inv in Hu as (b & Hq & _).
    apply clearLogs_chain in Hlogs as (_ & Hlen4).
    apply lookup_lt_Some in Hq. apply lookup_ge_None in Hb. lia.
Qed.

Lemma published_without_logs_witness :
  exists l' m',
    monitor_iteration linear (mkLocals [] 1000) (NewMonitor DefaultOptions)
      = Ret (Published [0%nat], l') m' /\
    Forall (fun p => exists b, heap m' !! p = Some b /\ cleared b) [0%nat].
Proof.
  assert (H : exists l' m',
    monitor_iteration linear (mkLocals [] 1000) (NewMonitor DefaultOptions)
      = Ret (Published [0%nat], l') m') by (vm_compute; eauto).
  destruct H as (l' & m' & H). exists l', m'. split; [exact H|].
  exact (published_without_logs linear _ _ (NewMonitor DefaultOptions) _ _ eq_refl H).
Defined.

(** ** The retained chain *)

(** A successful [push] appends the block and, past the retention
    limit, drops the oldest one. *)
Lemma push_appends (p : nat) (m m' : Monitor) :
  chain_ops.push p m = Ret None m' ->
  chain_list m' =
    if retentionLimit (chain m) <? len (chain_list m ++ [p])
    then drop 1 (chain_list m ++ [p]) else chain_list m ++ [p].
Proof.
  unfold chain_ops.push. intros H.
  apply bind_Ret in H as (b & m0 & Hload & H). apply load_inv in Hload as (-> & Hb).
  apply bind_Ret in H as (m0 & m1 & Hget & H). injection Hget as <- <-.
  cbv zeta in H.
  assert (Happend : forall l : list nat,
    (let* _ := modify (set_chain (mkChain (Some l) (retentionLimit (chain m)))) in
     ret (@None error)) m = Ret None m' -> chain_list m' = l).
  { intros l [= <-]. by unfold chain_list. }
  destruct (list.last (chain_list m)) as [hp|]; [|by apply Happend].
  apply bind_Ret in H as (h & m0 & Hload & H). apply load_inv in Hload as (-> & Hh).
  destruct (negb _); [done|]. destruct (negb _); [done|]. by apply Happend.
Qed.

Lemma chain_added_heap (m m' : Monitor) :
  chain_added m -> chain m' = chain m -> heap_evolves m m' -> chain_added m'.
Proof.
  unfold chain_added, chain_list. intros Hadded -> Hev.
  eapply list.Forall_impl; [exact Hadded|]. intros p (b & Hb & Hevent).
  destruct (Hev _ _ Hb) as (b' & Hb' & _ & Hevent'). exists b'. split; congruence.
Qed.

Lemma chain_added_push (q : types.Block) (m m1 m2 : Monitor) (p : nat)
    (err : option error) :
  chain_added m -> alloc (added q) m = Ret p m1 -> chain_ops.push p m1 = Ret err m2 ->
  chain_added m2.
Proof.
  intros Hadded Halloc Hpush.
  apply alloc_inv in Halloc as (-> & Hheap1 & Hchain1).
  pose proof (push_chain _ _ _ _ Hpush) as Hsub.
  apply push_inv in Hpush as (Hheap2 & _).
  unfold chain_added in *. rewrite list.Forall_forall in Hadded.
  apply list.Forall_forall. intros p Hp. rewrite Hheap2, Hheap1.
  destruct (Hsub p Hp) as [Hin| ->].
  - unfold chain_list in Hin. rewrite Hchain1 in Hin.
    destruct (Hadded _ Hin) as (b & Hb & Hevent). exists b.
    split; [by apply lookup_app_l_Some | done].
  - exists (added q). split; [apply lookup_snoc_length | done].
Qed.

Lemma chain_added_buildCanonicalChain_rec (E : Env) (fuel : nat)
    (nextBlock : types.Block) (events evs : list nat) (err : option error)
    (m m' : Monitor) :
  chain_added m ->
  buildCanonicalChain_rec E fuel nextBlock events m = Ret (evs, err) m' ->
  chain_added m'.
Proof.
  revert nextBlock events evs err m m'.
  induction fuel as [|fuel IH]; intros nextBlock events evs err m m' Hadded H; [done|].
  simpl in H.
  apply bind_Ret in H as (done & m0 & Hdone & H).
  apply ctx_Done_inv in Hdone as (-> & ->).
  destruct (ctxDone E (clock m)) eqn:Hctx; [injection H as <- <- <-; exact Hadded|].
  apply bind_Ret in H as (headBlock & m1 & Hhead & H). injection Hhead as <- <-.
  apply bind_Ret in H as (chained & m2 & Hchained & H).
  assert (m2 = set_clock (S (clock m)) m) as ->.
  { destruct (list.last _) in Hchained.
    - apply bind_Ret in Hchained as (hb & m1 & Hload & Hc).
      apply load_inv in Hload as (-> & _). by injection Hc as <- <-.
    - by injection Hchained as <- <-. }
  clear Hchained.
  assert (Hadded0 : chain_added (set_clock (S (clock m)) m)) by done.
  destruct chained.
  - apply bind_Ret in H as (block & m3 & Halloc & H).
    apply bind_Ret in H as (e & m4 & Hpush & H). injection H as <- <- <-.
    eapply chain_added_push; [exact Hadded0 | exact Halloc | exact Hpush].
  - apply bind_Ret in H as (popped & m3 & Hpop & H).
    apply pop_inv in Hpop as (-> & Hheap3 & _ & Hchain3). simpl in Hheap3.
    change (chain_list (set_clock (S (clock m)) m)) with (chain_list m) in *.
    destruct (list.last (chain_list m)) as [pp|] eqn:Hlast; [|done].
    specialize (Hchain3 pp eq_refl).
    apply bind_Ret in H as (pb & m4 & Hload & H). apply load_inv in Hload as (-> & _).
    apply bind_Ret in H as (poppedBlock & m5 & Halloc & H).
    apply alloc_inv in Halloc as (-> & Hheap5 & Hchain5).
    apply bind_Ret in H as (fetched & m6 & Hfetch & H).
    apply fetchBlockByHash_state in Hfetch as (Hheap6 & Hchain6).
    assert (Hadded6 : chain_added m6).
    { unfold chain_added in *. rewrite Hchain3 in Hadded.
      apply Forall_app in Hadded as (Hadded & _).
      unfold chain_list at 1. rewrite Hchain6, Hchain5. fold (chain_list m3).
      eapply list.Forall_impl; [exact Hadded|]. intros p (b & Hb & Hevent).
      exists b. rewrite Hheap6, Hheap5, Hheap3.
      split; [by apply lookup_app_l_Some | done]. }
    destruct fetched as [nextParentBlock|e]; [|injection H as <- <- <-; assumption].
    apply bind_Ret in H as ([evs' err'] & m7 & Hrec & H).
    apply IH in Hrec; [|done].
    destruct err' as [e|]; [injection H as <- <- <-; assumption|].
    apply bind_Ret in H as (block & m8 & Halloc & H).
    apply bind_Ret in H as (e & m9 & Hpush & H).
    assert (chain_added m9)
      by (eapply chain_added_push; [exact Hrec | exact Halloc | exact Hpush]).
    destruct e; injection H as <- <- <-; assumption.
Qed.

Lemma chain_added_monitor_iteration (E : Env) (l l' : locals) (m m' : Monitor)
    (r : iteration) :
  chain_added m -> monitor_iteration E l m = Ret (r, l') m' -> chain_added m'.
Proof.
  intros Hadded H.
  destruct (ctxDone E (clock m)) eqn:Hctx.
  { rewrite monitor_iteration_cancelled in H by done. by injection H as <- <- <-. }
  apply monitor_iteration_inv in H as [(? & _) | (_ & H)]; [congruence|].
  destruct H as (m1 & fetched & m2 & _ & Hheap1 & Hchain1 & _ & _ & _ & Hfetch & H).
  apply fetchBlockByNumber_state in Hfetch as (Hheap2 & Hchain2).
  assert (Hadded2 : chain_added m2).
  { unfold chain_added, chain_list in *. by rewrite Hchain2, Hchain1, Hheap2, Hheap1. }
  destruct fetched as [nextBlock|err].
  - destruct H as (evs & err & m3 & Hbuild & H).
    unfold buildCanonicalChain in Hbuild.
    apply chain_added_buildCanonicalChain_rec in Hbuild; [|exact Hadded2].
    destruct err as [e|]; [by destruct H as (_ & _ & ->)|].
    destruct H as (m4 & perr & Hlogs & Hpub & _).
    pose proof heap_evolves_frame as HF. pose proof (frame_flags_frame _ HF) as HR.
    assert (Hadded4 : chain_added m4).
    { destruct (WithLogs (options m)).
      - apply bind_Ret in Hlogs as ([] & m3' & Hadd & Hback).
        eapply chain_added_heap;
          [|by eapply backfillChainLogs_chain|by eapply (keeps_backfillChainLogs _ HR _ HF)].
        eapply chain_added_heap;
          [exact Hbuild|by eapply addLogs_chain|by eapply (keeps_addLogs _ HR _ HF)].
      - eapply chain_added_heap;
          [exact Hbuild|by eapply clearLogs_chain|by eapply (keeps_clearLogs _ HR HF)]. }
    unfold chain_added, chain_list in *.
    by rewrite (publish_chain _ _ _ _ Hpub), (publish_heap _ _ _ _ Hpub).
  - by destruct H as (_ & _ & ->).
Qed.

(** X7.  The retained chain holds Added blocks only, after any number of
    iterations from a monitor of which this is true (a new monitor
    retains nothing): the Removed copy of a popped block never enters
    the chain, and no retained block is turned into a Removed one. *)
Theorem chain_holds_added_blocks (E : Env) (n : nat) (l l' : locals) (m m' : Monitor) :
  chain_added m -> iterate E n l m = Ret l' m' -> chain_added m'.
Proof.
  revert l m. induction n as [|n IH]; intros l m Hadded H; simpl in H.
  { by injection H as <- <-. }
  apply bind_Ret in H as ([r l1] & m1 & Hiter & H).
  apply chain_added_monitor_iteration in Hiter; [|exact Hadded].
  destruct r; try (eapply IH; [exact Hiter | exact H]).
  by injection H as <- <-.
Qed.

Lemma chain_holds_added_blocks_witness :
  chain_added (NewMonitor with_logs) /\
  exists l', iterate forked 2 (mkLocals [] 1000) (NewMonitor with_logs) = Ret l' two_blocks
             /\ chain_added two_blocks.
Proof.
  assert (H0 : chain_added (NewMonitor with_logs)) by (vm_compute; constructor).
  split; [exact H0|].
  assert (H : exists l', iterate forked 2 (mkLocals [] 1000) (NewMonitor with_logs)
                         = Ret l' two_blocks) by (vm_compute; eauto).
  destruct H as (l' & H). exists l'. split; [exact H|].
  exact (chain_holds_added_blocks _ _ _ _ _ _ H0 H).
Defined.

(** ** The chain after a reorg *)

Lemma buildCanonicalChain_rec_chain (E : Env) (fuel : nat) (nextBlock : types.Block)
    (events evs : list nat) (m m' : Monitor) :
  buildCanonicalChain_rec E fuel nextBlock events m = Ret (evs, None) m' ->
  retentionLimit (chain m') = retentionLimit (chain m) /\
  exists base ps rem add,
    chain_list m = base ++ ps /\ evs = events ++ rem ++ add /\
    length rem = length ps /\ length add = S (length ps) /\
    chain_list m' `suffix_of` base ++ add /\
    (len (base ++ add) <= retentionLimit (chain m) -> chain_list m' = base ++ add).
Proof.
  revert nextBlock events evs m m'.
  induction fuel as [|fuel IH]; intros nextBlock events evs m m' H; [done|].
  simpl in H.
  apply bind_Ret in H as (done & m0 & Hdone & H).
  apply ctx_Done_inv in Hdone as (-> & ->).
  destruct (ctxDone E (clock m)) eqn:Hctx; [done|].
  apply bind_Ret in H as (headBlock & m1 & Hhead & H). injection Hhead as <- <-.
  apply bind_Ret in H as (chained & m2 & Hchained & H).
  assert (m2 = set_clock (S (clock m)) m) as ->.
  { destruct (list.last _) in Hchained.
    - apply bind_Ret in Hchained as (hb & m1 & Hload & Hc).
      apply load_inv in Hload as (-> & _). by injection Hc as <- <-.
    - by injection Hchained as <- <-. }
  clear Hchained. destruct chained.
  - apply bind_Ret in H as (block & m3 & Halloc & H).
    apply bind_Ret in H as (e & m4 & Hpush & H). injection H as <- -> <-.
    apply alloc_inv in Halloc as (-> & Hheap3 & Hchain3).
    pose proof (push_appends _ _ _ Hpush) as Hchain4.
    apply push_inv in Hpush as (_ & Hlim & _).
    assert (Hcl3 : chain_list m3 = chain_list m) by (unfold chain_list; by rewrite Hchain3).
    rewrite Hcl3, Hchain3 in Hchain4. rewrite Hchain3 in Hlim. simpl in Hchain4, Hlim.
    split; [exact Hlim|].
    exists (chain_list m), [], [], [length (heap m)].
    split; [by rewrite app_nil_r|]. split; [done|]. split; [done|]. split; [done|].
    rewrite Hchain4. split.
    + destruct (_ <? _); [apply suffix_drop | done].
    + intros Hroom. by replace (_ <? _) with false by lia.
  - apply bind_Ret in H as (popped & m3 & Hpop & H).
    apply pop_inv in Hpop as (-> & Hheap3 & Hlim3 & Hchain3). simpl in Hheap3, Hlim3.
    change (chain_list (set_clock (S (clock m)) m)) with (chain_list m) in *.
    destruct (list.last (chain_list m)) as [pp|] eqn:Hlast; [|done].
    specialize (Hchain3 pp eq_refl).
    apply bind_Ret in H as (pb & m4 & Hload & H). apply load_inv in Hload as (-> & _).
    apply bind_Ret in H as (poppedBlock & m5 & Halloc & H).
    apply alloc_inv in Halloc as (-> & Hheap5 & Hchain5).
    apply bind_Ret in H as (fetched & m6 & Hfetch & H).
    apply fetchBlockByHash_state in Hfetch as (Hheap6 & Hchain6).
    destruct fetched as [nextParentBlock|e]; [|done].
    apply bind_Ret in H as ([evs' err'] & m7 & Hrec & H).
    destruct err' as [e|]; [done|].
    apply IH in Hrec as (Hlim7 & base & ps & rem & add & Hbase & Hevs & Hrem & Hadd
                         & Hsuffix & Hroom).
    assert (Hcl6 : chain_list m6 = chain_list m3)
      by (unfold chain_list; by rewrite Hchain6, Hchain5).
    rewrite Hcl6 in Hbase. rewrite Hchain6, Hchain5, Hlim3 in Hlim7, Hroom.
    apply bind_Ret in H as (block & m8 & Halloc & H).
    apply alloc_inv in Halloc as (-> & Hheap8 & Hchain8).
    apply bind_Ret in H as ([e|] & m9 & Hpush & H); [done|]. injection H as <- <-.
    pose proof (push_appends _ _ _ Hpush) as Hchain9.
    apply push_inv in Hpush as (_ & Hlim9 & _).
    assert (Hcl8 : chain_list m8 = chain_list m7) by (unfold chain_list; by rewrite Hchain8).
    rewrite Hcl8, Hchain8, Hlim7 in Hchain9. rewrite Hchain8, Hlim7 in Hlim9.
    split; [exact Hlim9|].
    exists base, (ps ++ [pp]), (length (heap m) :: rem), (add ++ [length (heap m7)]).
    split; [by rewrite Hchain3, Hbase, app_assoc|].
    split; [rewrite Hevs, Hheap3; by rewrite <- !app_assoc|].
    split; [rewrite length_app; simpl; lia|].
    split; [rewrite !length_app; simpl; lia|].
    rewrite Hchain9, app_assoc. split.
    + etrans; [|apply suffix_snoc; exact Hsuffix].
      destruct (_ <? _); [apply suffix_drop | done].
    + intros Hroom9. rewrite Hroom.
      * replace (_ <? _) with false; [done|]. symmetry. apply Z.ltb_ge.
        unfold len in *. rewrite !length_app in *. simpl in *. clear -Hroom9. lia.
      * unfold len in *. rewrite !length_app in *. simpl in *. clear -Hroom9. lia.
Qed.

(** X8.  After a successful [buildCanonicalChain] that popped the blocks
    [ps] off the chain [base ++ ps], the batch is the events it was
    given, then as many Removed events [rem] as blocks were popped, then
    one more Added event [add]; the chain is [base ++ add], less the
    oldest blocks that the retention limit evicts: replaying the batch
    on the chain as it was gives the chain as it is. *)
Theorem buildCanonicalChain_chain (E : Env) (nextBlock : types.Block)
    (events evs : list nat) (m m' : Monitor) :
  buildCanonicalChain E nextBlock events m = Ret (evs, None) m' ->
  exists base ps rem add,
    chain_list m = base ++ ps /\ evs = events ++ rem ++ add /\
    length rem = length ps /\ length add = S (length ps) /\
    chain_list m' `suffix_of` base ++ add /\
    (len (base ++ add) <= retentionLimit (chain m) -> chain_list m' = base ++ add).
Proof.
  unfold buildCanonicalChain. intros H.
  by apply buildCanonicalChain_rec_chain in H as (_ & H).
Qed.

Lemma buildCanonicalChain_chain_witness :
  exists m' base,
    buildCanonicalChain forked (blk 3 203 202) [] two_blocks
      = Ret ([2; 3; 4]%nat, None) m' /\
    chain_list two_blocks = base ++ [1%nat] /\ chain_list m' = base ++ [3; 4]%nat.
Proof.
  assert (H : exists m', buildCanonicalChain forked (blk 3 203 202) [] two_blocks
                         = Ret ([2; 3; 4]%nat, None) m') by (vm_compute; eauto).
  destruct H as (m' & H). exists m', [0%nat]. split; [exact H|].
  split; [reflexivity|].
  destruct (buildCanonicalChain_chain _ _ _ _ _ _ H)
    as (base & ps & rem & add & Hbase & Hevs & Hrem & Hadd & _ & Hroom).
  assert (Hps : ps = [1%nat] /\ base = [0%nat]).
  { simpl in Hevs. destruct rem as [|r0 [|r1 rem]]; destruct ps as [|p0 [|p1 ps]];
      simpl in Hrem, Hadd; try discriminate Hrem;
      try (apply (f_equal (@length nat)) in Hevs; rewrite ?length_app in Hevs;
           simpl in Hevs; lia).
    change (chain_list two_blocks) with ([0; 1]%nat) in Hbase.
    destruct base as [|b0 [|b1 base]]; simpl in Hbase; try discriminate Hbase.
    - by injection Hbase as <- <-.
    - injection Hbase as _ _ Hnil. by destruct base. }
  destruct Hps as (-> & ->).
  assert (Hadd' : add = [3; 4]%nat).
  { destruct rem as [|r0 [|r1 rem]]; try discriminate Hrem. simpl in Hevs. congruence. }
  subst add. apply Hroom. vm_compute. discriminate.
Defined.

(** X9.  After a successful [buildCanonicalChain] on a chain that
    retains at least one block, the head of the chain is the Added
    block of [nextBlock], which is also the last event of the batch:
    [LatestBlock] returns it and [LatestBlockNum] its number. *)
Theorem buildCanonicalChain_head (E : Env) (nextBlock : types.Block)
    (events evs : list nat) (m m' : Monitor) :
  chain_valid m -> 1 <= retentionLimit (chain m) ->
  buildCanonicalChain E nextBlock events m = Ret (evs, None) m' ->
  exists p,
    LatestBlock m' = Ret (Some p) m' /\ heap m' !! p = Some (added nextBlock) /\
    list.last evs = Some p /\
    LatestBlockNum m' = Ret (types.Number nextBlock) m'.
Proof.
  intros Hvalid Hlim H.
  apply buildCanonicalChain_shape in H as (_ & _ & Hshape); [|exact Hvalid].
  destruct Hshape as [(_ & ?) | (ps & olds & rem & add & news & Hres & Hok)]; [done|].
  destruct (Hok eq_refl) as (Hlen & Hlast & Hlink). destruct (Hlink Hlim) as (_ & Hhead).
  destruct Hres as (_ & _ & -> & _ & Hadd & _).
  apply last_Some in Hlast as (news' & ->).
  rewrite map_app in Hadd. apply Forall2_app_inv_r in Hadd as (add' & k & _ & Hk & ->).
  apply list.Forall2_length in Hk as Hklen. destruct k as [|p [|p' k]]; try done.
  apply list.Forall2_cons in Hk as (Hp & _). unfold points_to in Hp.
  rewrite last_snoc in Hhead. exists p.
  assert (HL : LatestBlock m' = Ret (Some p) m').
  { unfold LatestBlock, chain_ops.Head. by rewrite Hhead. }
  split; [exact HL|]. split; [exact Hp|].
  split; [by rewrite !app_assoc, last_snoc|].
  unfold LatestBlockNum, bind. rewrite HL. unfold load. by rewrite Hp.
Qed.

Lemma buildCanonicalChain_head_witness :
  exists m',
    buildCanonicalChain forked (blk 3 203 202) [] two_blocks
      = Ret ([2; 3; 4]%nat, None) m' /\
    LatestBlockNum m' = Ret 3 m'.
Proof.
  assert (H : exists m', buildCanonicalChain forked (blk 3 203 202) [] two_blocks
                         = Ret ([2; 3; 4]%nat, None) m') by (vm_compute; eauto).
  destruct H as (m' & H). exists m'. split; [exact H|].
  destruct (buildCanonicalChain_head _ _ _ _ _ _ two_blocks_valid ltac:(vm_compute; discriminate) H)
    as (p & _ & _ & _ & Hnum).
  exact Hnum.
Defined.

(** X10.  [buildCanonicalChain] writes to no block object that exists
    when it is called: it only allocates.  Every event it appends is a
    new object, so the Removed event of a popped block is a copy and
    the block published earlier as Added is left as it was. *)
Theorem buildCanonicalChain_allocates (E : Env) (nextBlock : types.Block)
    (events evs : list nat) (err : option error) (m m' : Monitor) :
  chain_valid m ->
  buildCanonicalChain E nextBlock events m = Ret (evs, err) m' ->
  heap m `prefix_of` heap m' /\
  ((evs = [] /\ err = Some ErrCanceled) \/
   exists new,
     evs = events ++ new /\
     Forall (fun p : nat => (length (heap m) <= p < length (heap m'))%nat) new).
Proof.
  intros Hvalid H.
  apply buildCanonicalChain_shape in H as (Hpre & _ & Hshape); [|exact Hvalid].
  split; [exact Hpre|].
  destruct Hshape as [?|(ps & olds & rem & add & news & Hres & _)]; [by left|].
  right. destruct Hres as (_ & _ & -> & Hrem & Hadd & Hfresh).
  exists (rem ++ add). split; [done|].
  apply list.Forall_forall. intros p Hp.
  rewrite list.Forall_forall in Hfresh. split; [by apply Hfresh|].
  apply elem_of_app in Hp as [Hp|Hp].
  - destruct (points_to_map_elem _ _ _ _ _ Hrem Hp) as (o & _ & Ho).
    by eapply lookup_lt_Some.
  - destruct (points_to_map_elem _ _ _ _ _ Hadd Hp) as (q & _ & Hq).
    by eapply lookup_lt_Some.
Qed.

Lemma buildCanonicalChain_allocates_witness :
  exists m',
    buildCanonicalChain forked (blk 3 203 202) [] two_blocks
      = Ret ([2; 3; 4]%nat, None) m' /\
    heap two_blocks `prefix_of` heap m'.
Proof.
  assert (H : exists m', buildCanonicalChain forked (blk 3 203 202) [] two_blocks
                         = Ret ([2; 3; 4]%nat, None) m') by (vm_compute; eauto).
  destruct H as (m' & H). exists m'. split; [exact H|].
  exact (proj1 (buildCanonicalChain_allocates _ _ _ _ _ _ _ two_blocks_valid H)).
Defined.

(** ** Iterations that fetch nothing *)

(** X11.  An iteration whose fetch of the next block fails, with
    [NotFound] or otherwise, changes nothing but the clock and the next
    block number: the chain, the block objects, the queue and what was
    published are as before, and so are the events of the sink.  The
    error of a failed fetch is that of the cancelled context or
    [ErrMaxAttempts]. *)
Theorem failed_fetch_changes_nothing (E : Env) (l l' : locals) (m m' : Monitor)
    (r : iteration) :
  monitor_iteration E l m = Ret (r, l') m' ->
  r = ContinueNotFound \/ (exists e, r = ContinueFetchFailed e) ->
  events l' = events l /\
  m' = set_clock (clock m') (set_nextBlockNumber (nextBlockNumber m') m) /\
  (forall e, r = ContinueFetchFailed e ->
     e = ErrCanceled \/ exists e', e = superr_New ErrMaxAttempts (Some e')).
Proof.
  intros H Hr.
  destruct (ctxDone E (clock m)) eqn:Hctx.
  { rewrite monitor_iteration_cancelled in H by done. injection H as <- <- <-.
    by destruct Hr as [?|(e & ?)]. }
  apply monitor_iteration_probe in H as (next & fetched & m2 & _ & Hfetch & H);
    [|exact Hctx].
  destruct (fetchBlockByNumber_returns E next
              (set_nextBlockNumber next (set_clock (S (clock m)) m)))
    as (r0 & m0 & Hrun & Hm0 & _ & Hr0).
  rewrite Hfetch in Hrun. injection Hrun as <- <-.
  destruct fetched as [nextBlock|err].
  { destruct Hr as [->|(e & ->)]; destruct (H eq_refl) as (e' & He'); discriminate He'. }
  destruct H as (-> & -> & ->). split; [done|]. split.
  - rewrite Hm0. simpl. reflexivity.
  - intros e He. destruct err; try done; injection He as <-.
    + by left.
    + destruct err; try done.
      destruct Hr0 as (_ & _ & [(Hten & _)|(e1 & -> & _)]); [discriminate Hten|].
      right. by exists e1.
Qed.

Lemma failed_fetch_changes_nothing_witness :
  exists l' m',
    monitor_iteration silent (mkLocals [] 1000) (NewMonitor DefaultOptions)
      = Ret (ContinueNotFound, l') m' /\
    m' = set_clock (clock m') (NewMonitor DefaultOptions).
Proof.
  assert (H : exists l' m',
    monitor_iteration silent (mkLocals [] 1000) (NewMonitor DefaultOptions)
      = Ret (ContinueNotFound, l') m') by (vm_compute; eauto).
  destruct H as (l' & m' & H). exists l', m'. split; [exact H|].
  destruct (failed_fetch_changes_nothing _ _ _ _ _ _ H (or_introl eq_refl))
    as (_ & Hm' & _).
  rewrite Hm' at 1. f_equal.
  assert (Hn : nextBlockNumber m' = None).
  { vm_compute in H. by injection H as _ <-. }
  by rewrite Hn.
Defined.

(** ** Cancellation *)

Lemma fetchBlockByNumber_loop_cancelled (E : Env) (fuel : nat) (num : option Z)
    (ea : Z) (err : option error) (m : Monitor) :
  ctxDone E (clock m) = true ->
  fetchBlockByNumber_loop E (S fuel) num ea err m
  = Ret (Fail ErrCanceled) (set_clock (S (clock m)) m).
Proof.
  intros Hctx. cbn [fetchBlockByNumber_loop].
  unfold bind at 1, ctx_Done, bind, tick, ret. by rewrite Hctx.
Qed.

Lemma fetchBlockByHash_loop_cancelled (E : Env) (fuel : nat) (hash : common.Hash)
    (nf ea : Z) (err : option error) (m : Monitor) :
  ctxDone E (clock m) = true ->
  fetchBlockByHash_loop E (S fuel) hash nf ea err m
  = Ret (Fail ErrCanceled) (set_clock (S (clock m)) m).
Proof.
  intros Hctx. cbn [fetchBlockByHash_loop].
  unfold bind at 1, ctx_Done, bind, tick, ret. by rewrite Hctx.
Qed.

Lemma buildCanonicalChain_rec_cancelled (E : Env) (fuel : nat) (nextBlock : types.Block)
    (events : Blocks) (m : Monitor) :
  ctxDone E (clock m) = true ->
  buildCanonicalChain_rec E (S fuel) nextBlock events m
  = Ret ([], Some ErrCanceled) (set_clock (S (clock m)) m).
Proof.
  intros Hctx. cbn [buildCanonicalChain_rec].
  unfold bind at 1, ctx_Done, bind, tick, ret. by rewrite Hctx.
Qed.

(** X12.  At a cancelled context the monitor does no work, whatever the
    provider would answer: [fetchBlockByNumber] and [fetchBlockByHash]
    return the error of the context without a call of the provider,
    [buildCanonicalChain] returns that error and no events without
    touching the chain, and [addLogs] and [backfillChainLogs] return
    without fetching any logs.  Nothing but the instant of the
    observation has passed. *)
Theorem cancelled_context_stops_work (E : Env) (m : Monitor) :
  ctxDone E (clock m) = true ->
  (forall num,
     fetchBlockByNumber E num m = Ret (Fail ErrCanceled) (set_clock (S (clock m)) m)) /\
  (forall hash,
     fetchBlockByHash E hash m = Ret (Fail ErrCanceled) (set_clock (S (clock m)) m)) /\
  (forall nextBlock events,
     buildCanonicalChain E nextBlock events m
     = Ret ([], Some ErrCanceled) (set_clock (S (clock m)) m)) /\
  (forall block rest,
     addLogs E (block :: rest) m = Ret tt (set_clock (S (clock m)) m)) /\
  (chain_list m <> [] ->
   backfillChainLogs E m = Ret tt (set_clock (S (clock m)) m)).
Proof.
  intros Hctx. split; [|split; [|split; [|split]]].
  - intros num. by apply fetchBlockByNumber_loop_cancelled.
  - intros hash. by apply fetchBlockByHash_loop_cancelled.
  - intros nextBlock events. by apply buildCanonicalChain_rec_cancelled.
  - intros block rest. cbn [addLogs].
    unfold bind at 1, ctx_Done, bind, tick, ret. by rewrite Hctx.
  - intros Hchain. unfold backfillChainLogs, bind at 1, chain_ops.Blocks_.
    destruct (rev (chain_list m)) as [|p rest] eqn:Hrev.
    + apply (f_equal (@rev nat)) in Hrev. rewrite rev_involutive in Hrev. done.
    + cbn [backfill_loop]. unfold bind at 1, ctx_Done, bind, tick, ret. by rewrite Hctx.
Qed.

(** After two blocks the context of [halting] is cancelled: the fetch
    of block 3 and a resolution that holds an event both stop. *)
Lemma cancelled_context_stops_work_witness :
  exists l m,
    iterate halting 2 (mkLocals [] 1000) (NewMonitor DefaultOptions) = Ret l m /\
    chain_list m = [0; 1]%nat /\
    fetchBlockByNumber halting (Some 3) m
    = Ret (Fail ErrCanceled) (set_clock (S (clock m)) m) /\
    buildCanonicalChain halting (blk 3 103 102) [7%nat] m
    = Ret ([], Some ErrCanceled) (set_clock (S (clock m)) m).
Proof.
  assert (H : exists l m,
    iterate halting 2 (mkLocals [] 1000) (NewMonitor DefaultOptions) = Ret l m /\
    chain_list m = [0; 1]%nat /\ ctxDone halting (clock m) = true).
  { eexists _, _. split; [vm_compute; reflexivity|]. split; reflexivity. }
  destruct H as (l & m & Hrun & Hchain & Hctx). exists l, m.
  split; [exact Hrun|]. split; [exact Hchain|].
  destruct (cancelled_context_stops_work halting m Hctx) as (Hnum & _ & Hbuild & _).
  split; [apply Hnum | apply Hbuild].
Defined.

(** ** Run *)

(** X13.  [Run] is not re-entrant and gives the [running] flag back:
    on a monitor that is running it returns an error at once and
    changes nothing, the flag staying set for the call that owns it; on
    a monitor that is not running, whatever it returns, an error of the
    start or the result of the loop, [IsRunning] is false
    afterwards. *)
Theorem Run_running_flag (E : Env) (n : nat) (m : Monitor) :
  (running m = true -> Run E n m = Ret (Some ErrAlreadyRunning) m) /\
  (running m = false ->
   forall err m', Run E n m = Ret err m' -> IsRunning m' = Ret false m').
Proof.
  split.
  - intros Hrun. unfold Run, bind at 1, Run_start, bind at 1, get. by rewrite Hrun.
  - intros Hrun err m' H. unfold Run in H.
    apply bind_Ret in H as (serr & m1 & Hstart & H).
    unfold IsRunning. f_equal.
    destruct serr as [e|].
    + injection H as <- <-.
      unfold Run_start in Hstart.
      apply bind_Ret in Hstart as (m0 & m0' & Hget & Hstart). injection Hget as <- <-.
      rewrite Hrun in Hstart.
      apply bind_Ret in Hstart as ([] & m2 & Hset & Hstart). injection Hset as <-.
      destruct (_ && _).
      * apply bind_Ret in Hstart as ([] & m3 & Hset & Hstart). injection Hset as <-.
        by injection Hstart as <- <-.
      * apply bind_Ret in Hstart as (head & m3 & _ & Hstart).
        apply bind_Ret in Hstart as ([] & m4 & _ & Hstart). discriminate Hstart.
    + apply bind_Ret in H as (merr & m2 & _ & H).
      apply bind_Ret in H as ([] & m3 & Hset & H). injection Hset as <-.
      by injection H as <- <-.
Qed.

Lemma Run_running_flag_witness :
  Run linear 5 (set_running true (NewMonitor DefaultOptions))
  = Ret (Some ErrAlreadyRunning) (set_running true (NewMonitor DefaultOptions)).
Proof.
  exact (proj1 (Run_running_flag linear 5 (set_running true (NewMonitor DefaultOptions)))
           eq_refl).
Defined.

(** X14.  When the monitor retains a block at the start of [Run], the
    cache takes precedence: the first block number to probe is the
    number of the head plus one, whatever [StartBlockNumber] and
    [Bootstrap] are, and the provider is not asked. *)
Theorem Run_start_resumes (E : Env) (m : Monitor) (hp : nat) (hb : Block.t) :
  running m = false ->
  list.last (chain_list m) = Some hp -> heap m !! hp = Some hb ->
  Run_start E m =
    Ret None (set_nextBlockNumber (Some (types.Number (Block.Block hb) + 1))
                (set_running true m)).
Proof.
  intros Hrun Hlast Hhb.
  assert (Hblocks : bool_decide (blocks (chain m) = None) = false).
  { apply bool_decide_eq_false. intros Hnone. unfold chain_list in Hlast.
    by rewrite Hnone in Hlast. }
  unfold Run_start, bind, get, modify, chain_ops.Head, load, ret. rewrite Hrun.
  rewrite Hblocks, andb_false_r.
  unfold chain_list in *. cbn [chain heap set_running]. rewrite Hlast.
  cbn [heap]. by rewrite Hhb.
Qed.

Lemma Run_start_resumes_witness :
  Run_start silent two_blocks =
    Ret None (set_nextBlockNumber (Some 3) (set_running true two_blocks)).
Proof.
  exact (Run_start_resumes silent two_blocks 1 (Block.mk (blk 2 102 101) Added [102] true)
           eq_refl eq_refl eq_refl).
Defined.

(** ** Publishing without a trail *)

Lemma publish_at_once (events : list nat) (m : Monitor) :
  TrailNumBlocksBehindHead (options m) <= 0 ->
  0 < cap (publishQueue m) -> batches (publishQueue m) = [] ->
  publish events m = Ret None (set_publishCh (publishCh m ++ [events]) m).
Proof.
  intros Hk Hcap Hempty.
  unfold publish, publish_maxBlockNum, queue_ops.enqueue, queue_ops.dequeue,
    bind, get, modify, ret.
  replace (0 <? TrailNumBlocksBehindHead (options m)) with false by lia.
  cbv zeta. rewrite Hempty.
  replace (cap (publishQueue m) <=? len []) with false
    by (symmetry; apply Z.leb_gt; exact Hcap).
  cbn [publishQueue set_publishQueue batches app cap].
  replace (0 =? 0) with true by done.
  cbn [publishCh set_publishQueue set_publishCh options chain nextBlockNumber
       subscribers running heap subheap clock].
  rewrite <- Hempty. destruct m as [? ? ? ? [? ?] ? ? ? ? ?]; reflexivity.
Qed.

(** An iteration leaves the options, the queue and what was published
    as they are, up to its call of [publish]. *)
Lemma monitor_iteration_publishes (E : Env) (l l' : locals) (m m' : Monitor)
    (r : iteration) :
  monitor_iteration E l m = Ret (r, l') m' ->
  (same_config m m' /\ (is_continue r = true \/ r = Return None)) \/
  exists evs m4 perr,
    same_config m m4 /\ publish evs m4 = Ret perr m' /\
    r = match perr with
        | Some e => Return (Some (superr_New ErrFatal (Some e)))
        | None => Published evs
        end.
Proof.
  intros H.
  destruct (ctxDone E (clock m)) eqn:Hctx.
  { rewrite monitor_iteration_cancelled in H by done. injection H as <- <- <-.
    left. split; [done | by right]. }
  apply monitor_iteration_inv in H as [(? & _) | (_ & H)]; [congruence|].
  destruct H as (m1 & fetched & m2 & Hopt1 & _ & _ & Hq1 & Hch1 & _ & Hfetch & H).
  pose proof same_config_frame as HF. pose proof (frame_flags_frame _ HF) as HR.
  assert (Hc1 : same_config m m1) by done.
  pose proof (keeps_fetchBlockByNumber _ HR _ _ _ _ _ Hfetch) as Hc2.
  assert (Hc02 : same_config m m2) by (by eapply (frame_trans _ HR)).
  destruct fetched as [nextBlock|err].
  - destruct H as (evs & err & m3 & Hbuild & H).
    pose proof (keeps_buildCanonicalChain _ HR _ _ _ _ _ _ Hbuild) as Hc3.
    assert (Hc03 : same_config m m3) by (by eapply (frame_trans _ HR)).
    destruct err as [e|].
    { destruct H as (-> & _ & ->). left. split; [done | by left]. }
    destruct H as (m4 & perr & Hlogs & Hpub & H).
    assert (Hc4 : same_config m3 m4).
    { destruct (WithLogs (options m)).
      - apply bind_Ret in Hlogs as ([] & m3' & Hadd & Hback).
        eapply (frame_trans _ HR).
        + by eapply (keeps_addLogs _ HR _ HF).
        + by eapply (keeps_backfillChainLogs _ HR _ HF).
      - by eapply (keeps_clearLogs _ HR HF). }
    right. exists evs, m4, perr. split; [by eapply (frame_trans _ HR)|].
    split; [exact Hpub|]. by destruct perr; destruct H as (-> & _).
  - destruct H as (-> & _ & ->). left. split; [done|]. left. by destruct err.
Qed.

(** X15.  Without a trail behind the head ([TrailNumBlocksBehindHead]
    not positive), with an empty queue of positive capacity, an
    iteration that publishes hands its batch over at once, alone and as
    it is, and leaves the queue empty; no iteration returns an
    error. *)
Theorem no_trail_publishes_at_once (E : Env) (l l' : locals) (m m' : Monitor)
    (r : iteration) :
  TrailNumBlocksBehindHead (options m) <= 0 ->
  0 < cap (publishQueue m) -> batches (publishQueue m) = [] ->
  monitor_iteration E l m = Ret (r, l') m' ->
  options m' = options m /\ publishQueue m' = publishQueue m /\
  match r with
  | Published batch => publishCh m' = publishCh m ++ [batch]
  | Return err => err = None /\ publishCh m' = publishCh m
  | _ => publishCh m' = publishCh m
  end.
Proof.
  intros Hk Hcap Hempty H.
  apply monitor_iteration_publishes in H
    as [((Hopt & Hq & Hch) & Hr) | (evs & m4 & perr & (Hopt & Hq & Hch) & Hpub & ->)].
  - split; [exact Hopt|]. split; [exact Hq|].
    destruct Hr as [Hr| ->]; [|done]. by destruct r.
  - rewrite publish_at_once in Hpub by congruence. injection Hpub as <- <-.
    simpl. repeat split; congruence.
Qed.

Lemma no_trail_publishes_at_once_witness :
  exists l' m',
    monitor_iteration linear (mkLocals [] 1000) (NewMonitor DefaultOptions)
      = Ret (Published [0%nat], l') m' /\
    publishCh m' = [[0%nat]] /\ batches (publishQueue m') = [].
Proof.
  assert (H : exists l' m',
    monitor_iteration linear (mkLocals [] 1000) (NewMonitor DefaultOptions)
      = Ret (Published [0%nat], l') m') by (vm_compute; eauto).
  destruct H as (l' & m' & H). exists l', m'. split; [exact H|].
  destruct (no_trail_publishes_at_once linear _ _ (NewMonitor DefaultOptions) _ _
              ltac:(vm_compute; discriminate) eq_refl eq_refl H) as (_ & Hq & Hch).
  split; [exact Hch | by rewrite Hq].
Defined.

(** Without a trail behind the head, the loop of a monitor whose queue
    is empty and has room never ends with an error. *)
Lemma monitor_loop_never_fatal (E : Env) (n : nat) (l : locals) (m m' : Monitor)
    (err : option error) :
  TrailNumBlocksBehindHead (options m) <= 0 ->
  0 < cap (publishQueue m) -> batches (publishQueue m) = [] ->
  monitor_loop E n l m = Ret err m' -> err = None.
Proof.
  revert l m. induction n as [|n IH]; intros l m Hk Hcap Hempty H; [done|].
  cbn [monitor_loop] in H.
  apply bind_Ret in H as ([r l1] & m1 & Hiter & H).
  apply monitor_iteration_publishes in Hiter
    as [((Hopt & Hq & _) & Hr) | (evs & m4 & perr & (Hopt & Hq & _) & Hpub & ->)].
  - rewrite <- Hopt in Hk. rewrite <- Hq in Hcap, Hempty.
    destruct Hr as [Hr| ->]; [|by injection H as <- <-].
    destruct r; try discriminate Hr;
      (eapply IH; [exact Hk | exact Hcap | exact Hempty | exact H]).
  - rewrite publish_at_once in Hpub by congruence. injection Hpub as <- <-.
    eapply IH; [| | |exact H]; simpl; congruence.
Qed.

(** ** Broadcast and subscribers *)

Lemma broadcast_loop_delivers (on_closed : St unit) (events : list nat)
    (subs : list nat) (m : Monitor) :
  NoDup subs -> Forall (open_at m) subs ->
  exists m',
    broadcast_loop on_closed subs events m = Ret tt m' /\
    m' = set_subheap (subheap m') m /\
    forall sp sub, subheap m !! sp = Some sub ->
      subheap m' !! sp = Some (if bool_decide (sp ∈ subs) then received events sub
                               else sub).
Proof.
  revert m. induction subs as [|s rest IH]; intros m Hnd Hopen.
  { exists m. split; [done|]. split; [by destruct m|]. intros sp sub Hsub.
    by rewrite bool_decide_eq_false_2 by apply not_elem_of_nil. }
  apply list.NoDup_cons in Hnd as (Hs & Hnd).
  apply list.Forall_cons in Hopen as ((sub0 & Hsub0 & Hch & Hdone) & Hopen).
  cbn [broadcast_loop]. unfold bind at 1, ch_Send, bind at 1, get.
  rewrite Hsub0, Hch. unfold modify.
  set (m1 := set_subheap _ m).
  destruct (IH m1) as (m' & Hrun & Hm' & Hall); [exact Hnd| |].
  { apply list.Forall_forall. intros sp Hin. rewrite list.Forall_forall in Hopen.
    destruct (Hopen sp Hin) as (sub & Hsub & Hopen'). exists sub. split; [|exact Hopen']. unfold m1. simpl.
    rewrite list_lookup_insert_ne; [done|]. by intros ->. }
  exists m'. split; [exact Hrun|]. split; [rewrite Hm'; by destruct m|].
  intros sp sub Hsub. destruct (decide (sp = s)) as [->|Hne].
  - rewrite bool_decide_eq_true_2 by apply list_elem_of_here.
    replace sub with sub0 by congruence.
    rewrite (Hall s (received events sub0)).
    + by rewrite bool_decide_eq_false_2.
    + unfold m1. simpl. rewrite list_lookup_insert_eq by (by eapply lookup_lt_Some).
      unfold received. by rewrite Hch.
  - rewrite (Hall sp sub).
    + destruct (decide (sp ∈ rest)) as [Hin|Hout].
      * by rewrite !bool_decide_eq_true_2 by (try apply list_elem_of_further; done).
      * rewrite (bool_decide_eq_false_2 (sp ∈ rest)) by done.
        rewrite bool_decide_eq_false_2; [done|]. by rewrite not_elem_of_cons.
    + unfold m1. simpl. by rewrite list_lookup_insert_ne.
Qed.

(** X17.  With a registry that holds each subscriber once, none of them
    unsubscribed, [broadcast] sends on no closed channel: it returns,
    every registered subscriber has received the batch once, after the
    batches that were pending, and every other subscriber, like the
    rest of the monitor, is left as it was. *)
Theorem broadcast_delivers (on_closed : St unit) (events : list nat) (m : Monitor) :
  registry_ok m ->
  exists m',
    broadcast on_closed events m = Ret tt m' /\
    m' = set_subheap (subheap m') m /\ registry_ok m' /\
    forall sp sub, subheap m !! sp = Some sub ->
      subheap m' !! sp = Some (if bool_decide (sp ∈ subscribers m)
                               then received events sub else sub).
Proof.
  intros (Hnd & Hopen).
  destruct (broadcast_loop_delivers on_closed events (subscribers m) m Hnd Hopen)
    as (m' & Hrun & Hm' & Hall).
  exists m'. split; [exact Hrun|]. split; [exact Hm'|]. split; [|exact Hall].
  assert (Hsubs : subscribers m' = subscribers m) by (by rewrite Hm').
  split; rewrite Hsubs; [exact Hnd|].
  apply list.Forall_forall. intros sp Hin. rewrite list.Forall_forall in Hopen.
  destruct (Hopen sp Hin) as (sub & Hsub & Hch & Hdone).
  exists (received events sub). split; [|done].
  by rewrite (Hall sp sub Hsub), bool_decide_eq_true_2.
Qed.

Lemma broadcast_delivers_witness :
  exists m',
    broadcast (throw CloseOfClosedChannel) [7%nat] subscribed = Ret tt m' /\
    subheap m' !! 0%nat = Some (mkSubscriber [[7%nat]] false false).
Proof.
  assert (Hok : registry_ok subscribed).
  { split; [vm_compute; apply NoDup_singleton|].
    repeat constructor. by exists (mkSubscriber [] false false). }
  destruct (broadcast_delivers (throw CloseOfClosedChannel) [7%nat] subscribed Hok)
    as (m' & Hrun & _ & _ & Hall).
  exists m'. split; [exact Hrun|].
  exact (Hall 0%nat (mkSubscriber [] false false) eq_refl).
Defined.

Lemma first_index_last (sp : nat) (l : list nat) (i : nat) :
  sp ∉ l -> first_index sp (l ++ [sp]) i = Some (i + length l)%nat.
Proof.
  revert i. induction l as [|x l IH]; intros i Hnot; simpl.
  - rewrite Nat.eqb_refl. f_equal. lia.
  - apply not_elem_of_cons in Hnot as (Hne & Hnot).
    replace (x =? sp)%nat with false by (symmetry; apply Nat.eqb_neq; congruence).
    rewrite IH by done. f_equal. lia.
Qed.

Lemma registry_fresh (m : Monitor) :
  registry_ok m -> length (subheap m) ∉ subscribers m.
Proof.
  intros (_ & Hopen) Hin. rewrite list.Forall_forall in Hopen.
  destruct (Hopen _ Hin) as (sub & Hsub & _). apply lookup_lt_Some in Hsub. lia.
Qed.

(** X18.  [Subscribe] registers a new subscriber, open and with nothing
    pending, after the ones that are registered; unsubscribing it at
    once gives the registry back as it was.  Both keep the registry
    well formed. *)
Theorem Subscribe_unsubscribe (m : Monitor) :
  registry_ok m ->
  exists sp m1 m2,
    Subscribe m = Ret sp m1 /\ (sp ∉ subscribers m) /\
    subscribers m1 = subscribers m ++ [sp] /\
    subheap m1 !! sp = Some (mkSubscriber [] false false) /\ registry_ok m1 /\
    unsubscribe sp m1 = Ret tt m2 /\
    subscribers m2 = subscribers m /\ registry_ok m2.
Proof.
  intros Hok. pose proof (registry_fresh m Hok) as Hfresh. destruct Hok as (Hnd & Hopen).
  eexists (length (subheap m)), _, _. split; [reflexivity|]. split; [exact Hfresh|].
  split; [reflexivity|]. cbn [subheap subscribers set_subscribers set_subheap].
  assert (Hsp : (subheap m ++ [mkSubscriber [] false false]) !! length (subheap m)
                = Some (mkSubscriber [] false false)) by apply lookup_snoc_length.
  split; [exact Hsp|].
  assert (Hold : forall h' : list subscriber, (forall q s, subheap m !! q = Some s -> h' !! q = Some s) ->
            Forall (fun q => exists sub, h' !! q = Some sub /\ ch_closed sub = false /\
                                         done_closed sub = false) (subscribers m)).
  { intros h' Hh'. eapply list.Forall_impl; [exact Hopen|].
    intros q (sub & Hsub & Hclosed). exists sub. split; [by apply Hh' | done]. }
  split.
  { split; cbn [subheap subscribers].
    - apply list.NoDup_app. split; [exact Hnd|]. split; [|apply NoDup_singleton].
      intros q Hq Hq'. apply list_elem_of_singleton in Hq'. by subst q.
    - apply Forall_app. split.
      + apply Hold. intros q s Hq. by apply lookup_app_l_Some.
      + repeat constructor. by exists (mkSubscriber [] false false). }
  unfold unsubscribe, bind at 1, get. cbn [subheap]. rewrite Hsp. cbn [done_closed].
  unfold bind at 1, modify. unfold bind at 1, get.
  cbn [subscribers set_subheap]. rewrite (first_index_last _ _ 0 Hfresh).
  unfold modify. cbn [Nat.add].
  rewrite take_app_length, drop_ge by (rewrite length_app; simpl; lia).
  rewrite app_nil_r.
  split; [reflexivity|]. split; [reflexivity|].
  split; cbn [subheap subscribers]; [exact Hnd|].
  apply (Hold (<[length (subheap m) := mkSubscriber [] true true]>
                 (subheap m ++ [mkSubscriber [] false false]))).
  intros q s Hq. rewrite list_lookup_insert_ne.
  - by apply lookup_app_l_Some.
  - apply lookup_lt_Some in Hq. lia.
Qed.

Lemma Subscribe_unsubscribe_witness :
  exists sp m1 m2,
    Subscribe subscribed = Ret sp m1 /\ unsubscribe sp m1 = Ret tt m2 /\
    subscribers m2 = subscribers subscribed.
Proof.
  assert (Hok : registry_ok subscribed).
  { split; [vm_compute; apply NoDup_singleton|].
    repeat constructor. by exists (mkSubscriber [] false false). }
  destruct (Subscribe_unsubscribe subscribed Hok)
    as (sp & m1 & m2 & H1 & _ & _ & _ & _ & H2 & H3 & _).
  by exists sp, m1, m2.
Defined.

(** X19.  Unsubscribing a registered subscriber returns, takes it off
    the registry and leaves the other subscribers registered, in their
    order; its channel is closed and drained, and no later broadcast
    reaches it. *)
Theorem unsubscribed_receives_nothing (on_closed : St unit) (events : list nat)
    (m : Monitor) (sp : nat) :
  registry_ok m -> sp ∈ subscribers m ->
  exists m1 m2,
    unsubscribe sp m = Ret tt m1 /\
    (exists l1 l2, subscribers m = l1 ++ sp :: l2 /\ subscribers m1 = l1 ++ l2) /\
    registry_ok m1 /\
    broadcast on_closed events m1 = Ret tt m2 /\
    subheap m2 !! sp = Some (mkSubscriber [] true true).
Proof.
  intros (Hnd & Hopen) Hin.
  pose proof Hopen as Hopen'. rewrite list.Forall_forall in Hopen'.
  destruct (Hopen' _ Hin) as (sub & Hsub & Hch & Hdone).
  assert (Hlt : (sp < length (subheap m))%nat) by (by eapply lookup_lt_Some).
  unfold unsubscribe, bind at 1, get. rewrite Hsub, Hdone.
  unfold bind at 1, modify. unfold bind at 1, get. cbn [subscribers set_subheap].
  destruct (first_index sp (subscribers m) 0) as [i|] eqn:Hidx;
    [|by apply first_index_None in Hidx].
  apply first_index_Some in Hidx as (k & -> & Hk & Hnot). cbn [Nat.add].
  pose proof (take_drop_middle _ _ _ Hk) as Hmid.
  assert (Hsplit : NoDup (take k (subscribers m) ++ drop (S k) (subscribers m)) /\
                   sp ∉ drop (S k) (subscribers m)).
  { rewrite <- Hmid in Hnd. apply list.NoDup_app in Hnd as (Hnd1 & Hdisj & Hnd2).
    apply list.NoDup_cons in Hnd2 as (Hnot2 & Hnd2). split; [|exact Hnot2].
    apply list.NoDup_app. split; [exact Hnd1|]. split; [|exact Hnd2].
    intros q Hq Hq'. apply (Hdisj q Hq). by apply list_elem_of_further. }
  destruct Hsplit as (Hnd' & Hnot2).
  set (m1 := set_subscribers _ _).
  assert (Hok1 : registry_ok m1).
  { split; [exact Hnd'|]. unfold m1. cbn [subscribers subheap set_subscribers set_subheap].
    apply list.Forall_forall. intros q Hq.
    assert (Hne : q <> sp).
    { intros ->. apply elem_of_app in Hq as [Hq|Hq]; done. }
    assert (Hq' : q ∈ subscribers m).
    { rewrite <- Hmid. apply elem_of_app in Hq as [Hq|Hq].
      - apply elem_of_app. by left.
      - apply elem_of_app. right. by apply list_elem_of_further. }
    destruct (Hopen' _ Hq') as (s & Hs & Hopen_s). exists s.
    cbn [subheap set_subscribers set_subheap].
    split; [by rewrite list_lookup_insert_ne | exact Hopen_s]. }
  destruct Hok1 as (Hnd1 & Hopen1).
  destruct (broadcast_loop_delivers on_closed events (subscribers m1) m1 Hnd1 Hopen1)
    as (m2 & Hrun & _ & Hall).
  exists m1, m2. split; [reflexivity|].
  split; [by exists (take k (subscribers m)), (drop (S k) (subscribers m))|].
  split; [by split|]. split; [exact Hrun|].
  rewrite (Hall sp (mkSubscriber [] true true)).
  - rewrite bool_decide_eq_false_2; [done|].
    unfold m1. cbn [subscribers set_subscribers]. intros Hq.
    apply elem_of_app in Hq as [Hq|Hq]; done.
  - unfold m1. cbn [subheap set_subscribers set_subheap].
    by rewrite list_lookup_insert_eq.
Qed.

Lemma unsubscribed_receives_nothing_witness :
  exists m1 m2,
    unsubscribe 0 subscribed = Ret tt m1 /\
    broadcast (throw CloseOfClosedChannel) [7%nat] m1 = Ret tt m2 /\
    subheap m2 !! 0%nat = Some (mkSubscriber [] true true).
Proof.
  assert (Hok : registry_ok subscribed).
  { split; [vm_compute; apply NoDup_singleton|].
    repeat constructor. by exists (mkSubscriber [] false false). }
  assert (Hin : 0%nat ∈ subscribers subscribed) by (vm_compute; apply list_elem_of_here).
  destruct (unsubscribed_receives_nothing (throw CloseOfClosedChannel) [7%nat]
              subscribed 0 Hok Hin) as (m1 & m2 & H1 & _ & _ & H3 & H4).
  by exists m1, m2.
Defined.

(** ** LatestFinalBlock and LatestBlock *)

(** X20.  With a finality depth of zero, [LatestFinalBlock] is
    [LatestBlock]: the head of the chain, and nil on the empty chain. *)
Theorem LatestFinalBlock_zero (m : Monitor) :
  len (chain_list m) <= max_int -> LatestFinalBlock 0 m = LatestBlock m.
Proof.
  intros Hlen. unfold LatestFinalBlock, LatestBlock, chain_ops.Head, bind, get.
  change (int (0 + 1)) with 1.
  destruct (len (chain_list m) <? 1) eqn:Hn.
  - destruct (chain_list m) as [|p l]; [done|].
    apply Z.ltb_lt in Hn. unfold len in Hn. cbn [length] in Hn. lia.
  - rewrite int_int_sub, int_id
      by (unfold is_int, min_int, max_int, len in *; lia).
    destruct (index_in_range (chain_list m) (len (chain_list m) - 0 - 1) m)
      as (a & Ha & ->); [unfold len in *; lia|].
    unfold ret. f_equal. rewrite last_lookup, <- Ha. f_equal. unfold len. lia.
Qed.

Lemma LatestFinalBlock_zero_witness :
  LatestFinalBlock 0 three_blocks = LatestBlock three_blocks.
Proof.
  apply LatestFinalBlock_zero. vm_compute. discriminate.
Defined.

(** ** Logs that failed are fetched again *)

Lemma addLogs_heals (E : Env) (p : nat) (m m' : Monitor) :
  live E ->
  (forall b topics, heap m !! p = Some b ->
     exists logs, FilterLogs E (S (clock m)) (Block.Hash b) topics = Ok logs /\
                  (0 <? len logs) || (types.Bloom (Block.Block b) =? 0) = true) ->
  addLogs E [p] m = Ret tt m' -> ok_at m' p.
Proof.
  intros Hlive Hlogs H. cbn [addLogs] in H.
  apply bind_Ret in H as (done & m0 & Hdone & H).
  apply ctx_Done_inv in Hdone as (-> & ->). rewrite Hlive in H.
  apply bind_Ret in H as (b & m0 & Hload & H).
  apply load_inv in Hload as (-> & Hb). simpl in Hb.
  assert (Hupd : forall (f : Block.t -> Block.t) (m1 : Monitor),
             heap m1 = heap m -> Block.OK (f b) = true ->
             (let* _ := update p f in ret tt) m1 = Ret tt m' -> ok_at m' p).
  { intros f m1 Hh1 Hfb Hrun.
    apply bind_Ret in Hrun as ([] & m3 & Hu & Hrun). injection Hrun as <-.
    apply update_inv in Hu as (b' & Hb' & ->). exists (f b).
    simpl. rewrite list_lookup_insert_eq by (by eapply lookup_lt_Some).
    split; [|done]. do 2 f_equal. congruence. }
  destruct (Block.OK b) eqn:Hok.
  { injection H as <-. by exists b. }
  destruct (Block.Event b).
  - apply bind_Ret in H as (m1 & m1' & Hget & H). injection Hget as <- <-.
    apply bind_Ret in H as (t & m2 & Htick & H). injection Htick as <- <-.
    match type of H with
    | context [FilterLogs E _ _ ?topics] =>
        destruct (Hlogs b topics Hb) as (logs & Hanswer & Haccept)
    end.
    cbn [clock set_clock] in H.
    rewrite Hanswer, Haccept in H. by eapply Hupd; [| |exact H].
  - by eapply Hupd; [| |exact H].
Qed.

Lemma backfill_loop_heals (E : Env) (ps : list nat) (m m' : Monitor) :
  live E ->
  (forall (t : nat) p b topics,
     (clock m <= t)%nat -> p ∈ ps -> heap m' !! p = Some b ->
     exists logs, FilterLogs E t (Block.Hash b) topics = Ok logs /\
                  (0 <? len logs) || (types.Bloom (Block.Block b) =? 0) = true) ->
  backfill_loop E ps m = Ret tt m' -> Forall (ok_at m') ps.
Proof.
  intros Hlive. revert m.
  induction ps as [|p rest IH]; intros m Hlogs H; cbn [backfill_loop] in H; [constructor|].
  apply bind_Ret in H as (done & m0 & Hdone & H).
  apply ctx_Done_inv in Hdone as (-> & ->). rewrite Hlive in H.
  apply bind_Ret in H as (b & m0 & Hload & H). apply load_inv in Hload as (-> & Hb).
  apply bind_Ret in H as ([] & m1 & Hadd & H).
  pose proof heap_evolves_frame as HF. pose proof (frame_flags_frame _ HF) as HR.
  pose proof (frame_flags_frame _ clock_le_frame) as HC.
  assert (Hc1 : (S (clock m) <= clock m1)%nat).
  { destruct (negb (Block.OK b)).
    - by apply (keeps_addLogs _ HC _ clock_le_frame) in Hadd.
    - by injection Hadd as <-. }
  assert (Hev1 : heap_evolves (set_clock (S (clock m)) m) m1).
  { destruct (negb (Block.OK b)).
    - by apply (keeps_addLogs _ HR _ HF) in Hadd.
    - injection Hadd as <-. by apply (frame_refl _ HR). }
  pose proof (keeps_backfill_loop _ HR _ HF _ _ _ _ H) as Hev2.
  constructor.
  - assert (Hp : ok_at m1 p).
    { destruct (Block.OK b) eqn:Hok; simpl in Hadd.
      - injection Hadd as <-. by exists b.
      - eapply addLogs_heals; [exact Hlive | | exact Hadd].
        intros b0 topics Hb0.
        destruct (Hev1 _ _ Hb0) as (b1 & Hb1 & HB1 & _).
        destruct (Hev2 _ _ Hb1) as (b2 & Hb2 & HB2 & _).
        destruct (Hlogs (S (S (clock m))) p b2 topics) as (logs & Hanswer & Haccept);
          [lia | apply list_elem_of_here | exact Hb2 |].
        exists logs. unfold Block.Hash in *. simpl. rewrite <- HB1, <- HB2. by split. }
    destruct Hp as (b1 & Hb1 & Hok1). exists b1. split; [|done].
    by eapply (backfill_loop_ok_stable _ _ _ _ H).
  - eapply IH; [|exact H]. intros t q b0 topics Ht Hq Hb0.
    apply (Hlogs t q b0 topics); [lia | by apply list_elem_of_further | exact Hb0].
Qed.

(** X21.  With [WithLogs], a context that is not cancelled and a
    provider that, from the iteration on, answers for the logs of the
    blocks then retained (with some logs, or with none for a block
    whose bloom is empty), every block the monitor retains is marked
    [OK] after an iteration that publishes: the blocks whose logs an
    earlier iteration failed to fetch have been fetched again. *)
Theorem retained_logs_are_backfilled (E : Env) (l l' : locals) (m m' : Monitor)
    (batch : list nat) :
  WithLogs (options m) = true -> answers_logs E m m' -> live E ->
  monitor_iteration E l m = Ret (Published batch, l') m' ->
  Forall (ok_at m') (chain_list m').
Proof.
  intros Hopt Hlogs Hlive H.
  apply monitor_iteration_inv in H as [(_ & ? & _) | (_ & H)]; [done|].
  destruct H as (m1 & fetched & m2 & _ & _ & _ & _ & _ & Hc1 & Hfetch & H).
  destruct fetched as [nextBlock|err]; [|by destruct H as (? & _); destruct err].
  destruct H as (evs & [e|] & m3 & Hbuild & H); [by destruct H|].
  destruct H as (m4 & [e|] & Hphase & Hpub & H); [by destruct H|].
  rewrite Hopt in Hphase.
  apply bind_Ret in Hphase as ([] & m3' & Hadd & Hback).
  pose proof (frame_flags_frame _ clock_le_frame) as HC.
  apply (keeps_fetchBlockByNumber _ HC) in Hfetch.
  apply (keeps_buildCanonicalChain _ HC) in Hbuild.
  apply (keeps_addLogs _ HC _ clock_le_frame) in Hadd.
  unfold clock_le in *.
  pose proof (backfillChainLogs_chain _ _ _ Hback) as (Hchain & _).
  unfold backfillChainLogs in Hback.
  apply bind_Ret in Hback as (blocks & m0 & Hb & Hback). injection Hb as <- <-.
  assert (Hheap := publish_heap _ _ _ _ Hpub).
  assert (Hch := publish_chain _ _ _ _ Hpub).
  apply backfill_loop_heals in Hback; [|exact Hlive|].
  - unfold ok_at, chain_list in *.
    rewrite Hch, Hheap, Hchain.
    apply list.Forall_forall. intros p Hp. rewrite list.Forall_forall in Hback.
    apply Hback. apply list_elem_of_In, in_rev.
    rewrite rev_involutive. by apply list_elem_of_In.
  - intros t p b topics Ht Hp Hb. apply (Hlogs t p b topics); [lia | |].
    + unfold chain_list. rewrite Hch, Hchain.
      apply list_elem_of_In, in_rev in Hp. by apply list_elem_of_In.
    + by rewrite Hheap.
Qed.

(** The second iteration on [late_logs]: the first block, whose logs
    the first iteration failed to fetch, is not marked [OK] before it
    and is marked after. *)
Lemma retained_logs_are_backfilled_witness :
  exists l' m',
    (exists b, heap awaiting_logs !! 0%nat = Some b /\ Block.OK b = false) /\
    chain_list awaiting_logs = [0%nat] /\
    monitor_iteration late_logs (mkLocals [] 500) awaiting_logs
      = Ret (Published [1%nat], l') m' /\
    chain_list m' = [0; 1]%nat /\
    Forall (ok_at m') (chain_list m').
Proof.
  assert (H : exists l' m',
    monitor_iteration late_logs (mkLocals [] 500) awaiting_logs
      = Ret (Published [1%nat], l') m' /\
    chain_list m' = [0; 1]%nat /\
    Forall (fun p => forall b, heap m' !! p = Some b -> types.Bloom (Block.Block b) = 0)
      (chain_list m')).
  { eexists _, _. split; [vm_compute; reflexivity|]. split; [reflexivity|].
    repeat constructor; intros b [= <-]; reflexivity. }
  destruct H as (l' & m' & H & Hchain & Hbloom). exists l', m'.
  split; [eexists; split; reflexivity|]. split; [reflexivity|].
  split; [exact H|]. split; [exact Hchain|].
  apply (retained_logs_are_backfilled late_logs (mkLocals [] 500) l' awaiting_logs m'
           [1%nat] eq_refl);
    [|intros t; reflexivity | exact H].
  intros t p b topics Ht Hp Hb. exists [].
  rewrite list.Forall_forall in Hbloom. rewrite (Hbloom p Hp b Hb).
  split; [|reflexivity]. simpl.
  replace (t <? 9)%nat with false; [done|].
  symmetry. apply Nat.ltb_ge. exact Ht.
Defined.

(** ** The trail: a batch released behind the head *)

Lemma publish_respects_trail_witness :
  exists m',
    publish [4%nat] trailing = Ret None m' /\
    publishCh m' = publishCh trailing ++ [[2%nat]] /\
    forall b, heap m' !! 2%nat = Some b -> Block.NumberU64 b <= 5 - 2.
Proof.
  assert (H : exists m', publish [4%nat] trailing = Ret None m' /\
                         publishCh m' = publishCh trailing ++ [[2%nat]])
    by (vm_compute; eauto).
  destruct H as (m' & H & Hch). exists m'. split; [exact H|]. split; [exact Hch|].
  destruct (publish_respects_trail [4%nat] trailing m' 4
              (Block.mk (blk 5 105 104) Added [] true)
              ltac:(vm_compute; split; [reflexivity | discriminate])
              eq_refl eq_refl eq_refl H)
    as [Hnone|(batch & Hbatch & Hbound)].
  - rewrite Hch in Hnone. apply (f_equal (@length (list nat))) in Hnone.
    rewrite length_app in Hnone. simpl in Hnone. lia.
  - rewrite Hch in Hbatch. apply app_inj_tail in Hbatch as (_ & <-).
    intros b Hb. apply (Hbound 2%nat b); [apply list_elem_of_here | exact Hb].
Defined.

(** ** A block that [push] rejects *)

(** X23.  When the next block names the head as its parent but does not
    follow it in number, [buildCanonicalChain] appends its Added event
    and [push] rejects it: the error is returned with the event in the
    events, for a block that the chain, left as it was, does not
    hold. *)
Theorem rejected_block_stays_in_events (E : Env) (nextBlock : types.Block)
    (events : list nat) (m : Monitor) (hp : nat) (hb : Block.t) :
  ctxDone E (clock m) = false ->
  list.last (chain_list m) = Some hp -> heap m !! hp = Some hb ->
  types.ParentHash nextBlock = Block.Hash hb ->
  types.Number nextBlock <> types.Number (Block.Block hb) + 1 ->
  buildCanonicalChain E nextBlock events m =
    Ret (events ++ [length (heap m)], Some ErrUnexpectedBlockNumber)
      (set_heap (heap m ++ [added nextBlock]) (set_clock (S (clock m)) m)).
Proof.
  intros Hctx Hlast Hhb Hparent Hnumber.
  unfold buildCanonicalChain. cbn [buildCanonicalChain_rec].
  unfold ctx_Done, chain_ops.push.
  unfold bind, tick, ret, chain_ops.Head, load, alloc, get, modify.
  rewrite Hctx. unfold chain_list in *. cbn [chain heap set_clock set_heap clock].
  rewrite Hlast. cbn [heap]. rewrite Hhb, Hparent, Z.eqb_refl.
  cbn [chain heap set_clock set_heap options nextBlockNumber publishCh publishQueue
       subscribers running subheap clock].
  rewrite lookup_snoc_length. simpl (chain _). rewrite Hlast.
  simpl (heap _). rewrite (lookup_app_l_Some _ _ _ _ Hhb).
  cbn [added Block.Block types.Number negb].
  replace (_ =? _) with false by lia. reflexivity.
Qed.

Lemma rejected_block_stays_in_events_witness :
  exists m',
    buildCanonicalChain forked (blk 7 107 102) [] two_blocks
      = Ret ([2%nat], Some ErrUnexpectedBlockNumber) m' /\
    chain_list m' = chain_list two_blocks.
Proof.
  eexists. split.
  - exact (rejected_block_stays_in_events forked (blk 7 107 102) [] two_blocks 1
             (Block.mk (blk 2 102 101) Added [102] true)
             eq_refl eq_refl eq_refl eq_refl ltac:(vm_compute; discriminate)).
  - reflexivity.
Defined.

(** ** Bootstrap mode *)

(** X24.  A monitor made in [Bootstrap] mode has a nil chain: [Run]
    returns an error at once, and leaves the monitor as it was made,
    not running. *)
Theorem Run_not_bootstrapped (E : Env) (n : nat) (opts : Options) :
  Bootstrap opts = true ->
  Run E n (NewMonitor opts) = Ret (Some ErrNotBootstrapped) (NewMonitor opts).
Proof.
  intros Hboot. unfold Run, Run_start, bind, get, modify, ret, NewMonitor, newChain.
  cbn [running options chain Bootstrap blocks set_running]. by rewrite Hboot.
Qed.

Lemma Run_not_bootstrapped_witness :
  Run linear 3 (NewMonitor (mkOptions 1000 1000 None true 0 200 false [] false))
  = Ret (Some ErrNotBootstrapped)
      (NewMonitor (mkOptions 1000 1000 None true 0 200 false [] false)).
Proof.
  exact (Run_not_bootstrapped linear 3
           (mkOptions 1000 1000 None true 0 200 false [] false) eq_refl).
Defined.

(** ** A new monitor without a trail *)

(** X16.  A monitor made with no trail behind the head and a retention
    limit of at least one block never ends its loop with an error:
    [monitor] returns only nil, at a cancelled context. *)
Theorem no_trail_never_fatal (E : Env) (n : nat) (opts : Options) (m' : Monitor)
    (err : option error) :
  TrailNumBlocksBehindHead opts <= 0 ->
  0 < BlockRetentionLimit opts + TrailNumBlocksBehindHead opts ->
  2 * (BlockRetentionLimit opts + TrailNumBlocksBehindHead opts) <= max_int ->
  monitor E n (NewMonitor opts) = Ret err m' -> err = None.
Proof.
  intros Hk Hpos Hmax H. unfold monitor, bind, get in H.
  eapply monitor_loop_never_fatal; [| | |exact H]; [exact Hk| |reflexivity].
  cbn [NewMonitor publishQueue newQueue cap].
  unfold max_int in Hmax.
  rewrite (int_id (BlockRetentionLimit opts + TrailNumBlocksBehindHead opts))
    by (unfold is_int, min_int, max_int; lia).
  rewrite int_id by (unfold is_int, min_int, max_int; lia). lia.
Qed.

(** Two blocks are published before the context is cancelled. *)
Lemma no_trail_never_fatal_witness :
  exists m',
    monitor halting 3 (NewMonitor DefaultOptions) = Ret None m' /\
    publishCh m' = [[0]; [1]]%nat.
Proof.
  assert (H : exists err m',
    monitor halting 3 (NewMonitor DefaultOptions) = Ret err m' /\
    publishCh m' = [[0]; [1]]%nat).
  { eexists _, _. split; [vm_compute; reflexivity | reflexivity]. }
  destruct H as (err & m' & H & Hch). exists m'. split; [|exact Hch].
  rewrite (no_trail_never_fatal halting 3 DefaultOptions m' err
             ltac:(vm_compute; discriminate) eq_refl ltac:(vm_compute; discriminate) H)
    in H.
  exact H.
Defined.
